(** * golang-essentials: the concurrency examples and the GoBank CLI

    A shallow embedding of the Go programs of the repository that the
    specification talks about:

    - [21_channels/channels.md]: closing channels, [select] with a default
      branch and the worker pool;
    - the "Range Over Channel" example of the [range] notes;
    - [22_mutex/mutex.go]: one hundred goroutines bumping [post.views]
      under [p.mu];
    - [20_goRoutines/goRoutines.go]: eleven tasks and a [sync.WaitGroup];
    - the file-backed GoBank program ([readBalanceFromFile] and the menu
      loop) over a file system whose writes can fail, the loop program
      that keeps the balance in memory, and the first GoBank program,
      which makes one turn;
    - the first example of channels.md (one message from a goroutine) and
      its buffered channel;
    - the program of the channels lesson: a [select] without default, run
      twice over two unbuffered channels;
    - the counter of the mutex notes that leaves the mutex out;
    - the character count of the [range] notes and the variadic [sum].

    Goroutines are modelled by interleaving: every program is a transition
    system whose states record the shared objects and one program counter
    per goroutine, and a schedule is the list of goroutines that move, in
    order.  The primitives of the Go runtime ([chan], [select],
    [sync.Mutex], [sync.WaitGroup]) are not code of the repository; they
    are modelled from the specification. *)

From Stdlib Require Import ZArith Lia Floats.
From stdpp Require Import base option list list_numbers gmap strings.

Local Open Scope Z_scope.

(** ** Go's [int] *)

Module GoInt.

(** [int] is 64 bits wide on the targets the tutorial is run on; arithmetic
    wraps around in two's complement. *)
Definition min_int : Z := - 2 ^ 63.
Definition max_int : Z := 2 ^ 63 - 1.

Definition wrap (z : Z) : Z := (z - min_int) mod 2 ^ 64 + min_int.

Definition add (a b : Z) : Z := wrap (a + b).
Definition mul (a b : Z) : Z := wrap (a * b).
(** [x++] *)
Definition incr (a : Z) : Z := add a 1.

Definition in_range (z : Z) : Prop := min_int <= z <= max_int.

Lemma wrap_in_range z : in_range z -> wrap z = z.
Proof.
  unfold in_range, wrap, min_int, max_int. intros H.
  rewrite Z.mod_small; lia.
Qed.

Lemma incr_small a : min_int <= a < max_int -> incr a = a + 1.
Proof.
  intros H. unfold incr, add. apply wrap_in_range.
  unfold in_range, min_int, max_int in *. lia.
Qed.

End GoInt.


(** ** Channels *)

Module Channel.

(** The zero value of the element type, which a receive on a closed and
    drained channel yields. *)
Class ZeroValue (T : Type) := zero : T.
#[export] Instance int_zero : ZeroValue Z := 0.
#[export] Instance string_zero : ZeroValue string := EmptyString.

Section Chan.
Context {T : Type} `{ZeroValue T}.

(** Modelled from the spec: the channels of the Go runtime ([make],
    [ch <- v], [<-ch], [close]) are missing from the sources.  Section 3
    gives a channel a buffer of capacity C (0 for an unbuffered channel)
    and a closed flag that only goes from false to true.  A goroutine that
    blocks stays at its statement and tries again, so the queues of blocked
    goroutines are the program counters of the programs below. *)
Record chan : Type := mkChan {
  cap : nat;
  buf : list T;
  closed : bool
}.

(** [make(chan T, c)]; [make(chan T)] is [make 0]. *)
Definition make (c : nat) : chan := mkChan c [] false.

Inductive send_result : Type :=
| SendOk (c : chan)
| SendBlocked
| SendFault.

Inductive recv_result : Type :=
| RecvOk (v : T) (ok : bool) (c : chan)
| RecvBlocked.

Inductive close_result : Type :=
| CloseOk (c : chan)
| CloseFault.

(** Modelled from the spec: [send(v)] of section 4.1.  A send on a closed
    channel fails with ClosedChannelFault; it blocks while the buffer is
    full; otherwise the value joins the end of the buffer. *)
Definition send (v : T) (c : chan) : send_result :=
  if closed c then SendFault
  else if (length (buf c) <? cap c)%nat
       then SendOk (mkChan (cap c) (buf c ++ [v]) (closed c))
       else SendBlocked.

(** Modelled from the spec: [receive()] of section 4.1.  Buffered values
    leave in FIFO order, also after the close; a closed and drained channel
    yields the zero value with [ok = false]; an open empty one blocks. *)
Definition recv (c : chan) : recv_result :=
  match buf c with
  | v :: rest => RecvOk v true (mkChan (cap c) rest (closed c))
  | [] => if closed c then RecvOk zero false c else RecvBlocked
  end.

(** Modelled from the spec: [close()] of section 4.1, a one-shot
    transition; closing twice fails with DoubleCloseFault. *)
Definition close (c : chan) : close_result :=
  if closed c then CloseFault
  else CloseOk (mkChan (cap c) (buf c) true).

(** Modelled from the spec: the direct handoff of section 4.1.  A sender
    that finds no room and a receiver that finds nothing to take meet: the
    value passes from one to the other and the channel is left as it was.
    On an open channel both block only when the capacity is 0. *)
Definition handoff (v : T) (c : chan) : option T :=
  match send v c, recv c with
  | SendBlocked, RecvBlocked => Some v
  | _, _ => None
  end.

(** The operations a goroutine may attempt on a channel, and the channel
    they leave behind.  An attempt that blocks or faults leaves the
    channel as it was. *)
Inductive op : Type :=
| Send (v : T)
| Recv
| Close.

Definition after (c : chan) (o : op) : chan :=
  match o with
  | Send v => match send v c with SendOk c' => c' | _ => c end
  | Recv => match recv c with RecvOk _ _ c' => c' | RecvBlocked => c end
  | Close => match close c with CloseOk c' => c' | CloseFault => c end
  end.

Definition after_all (c : chan) (ops : list op) : chan :=
  fold_left after ops c.

Definition is_recv (o : op) : bool :=
  match o with Recv => true | _ => false end.

(** How many receives a history of operations holds. *)
Fixpoint receives (ops : list op) : nat :=
  match ops with
  | [] => 0%nat
  | o :: ops => ((if is_recv o then 1 else 0) + receives ops)%nat
  end.

(** *** Facts about one operation *)

Lemma send_closed v c : closed c = true -> send v c = SendFault.
Proof. intros Hc. unfold send. now rewrite Hc. Qed.

Lemma send_ok_inv v c c' :
  send v c = SendOk c' ->
  closed c = false /\ (length (buf c) < cap c)%nat /\
  c' = mkChan (cap c) (buf c ++ [v]) false.
Proof.
  unfold send. destruct (closed c) eqn:Hc; [discriminate|].
  destruct (Nat.ltb_spec (length (buf c)) (cap c)); [|discriminate].
  intros [= <-]. auto.
Qed.

Lemma send_blocked_inv v c :
  send v c = SendBlocked -> closed c = false /\ (cap c <= length (buf c))%nat.
Proof.
  unfold send. destruct (closed c); [discriminate|].
  destruct (Nat.ltb_spec (length (buf c)) (cap c)); [discriminate|auto].
Qed.

Lemma recv_blocked_inv c :
  recv c = RecvBlocked -> closed c = false /\ buf c = [].
Proof.
  unfold recv. destruct (buf c); [|discriminate].
  destruct (closed c); [discriminate|auto].
Qed.

Lemma handoff_inv v c w :
  handoff v c = Some w ->
  w = v /\ closed c = false /\ buf c = [] /\ cap c = 0%nat.
Proof.
  unfold handoff.
  destruct (send v c) eqn:Hs; try discriminate.
  destruct (recv c) eqn:Hr; try discriminate.
  intros [= <-].
  apply send_blocked_inv in Hs as [Hc Hlen].
  apply recv_blocked_inv in Hr as [_ Hb].
  rewrite Hb in Hlen. simpl in Hlen. repeat split; auto. lia.
Qed.

Lemma closed_after c o : closed c = true -> closed (after c o) = true.
Proof.
  intros Hc. destruct o as [v| |]; simpl.
  - now rewrite send_closed.
  - unfold recv. destruct (buf c); [now rewrite Hc|exact Hc].
  - unfold close. now rewrite Hc.
Qed.

Lemma closed_after_all ops : forall c,
  closed c = true -> closed (after_all c ops) = true.
Proof.
  induction ops as [|o ops IH]; intros c Hc; [exact Hc|].
  apply IH, closed_after, Hc.
Qed.

(** On a closed channel only a receive changes the buffer: it takes the
    head away. *)
Lemma buf_after_closed c o :
  closed c = true ->
  buf (after c o) = if is_recv o then tail (buf c) else buf c.
Proof.
  intros Hc. destruct o as [v| |]; simpl.
  - now rewrite send_closed.
  - unfold recv. destruct (buf c) eqn:Hb; [|reflexivity].
    rewrite Hc. simpl. exact Hb.
  - unfold close. now rewrite Hc.
Qed.

Lemma buf_after_all_closed ops : forall c,
  closed c = true ->
  buf (after_all c ops) = drop (receives ops) (buf c).
Proof.
  induction ops as [|o ops IH]; intros c Hc.
  - simpl. now rewrite drop_0.
  - change (after_all c (o :: ops)) with (after_all (after c o) ops).
    rewrite IH by now apply closed_after.
    rewrite buf_after_closed by assumption.
    simpl. destruct (is_recv o); simpl; [|reflexivity].
    destruct (buf c); simpl; [now rewrite drop_nil|reflexivity].
Qed.

Lemma recv_closed_empty c :
  closed c = true -> buf c = [] -> recv c = RecvOk zero false c.
Proof. intros Hc Hb. unfold recv. now rewrite Hb, Hc. Qed.

End Chan.

Arguments chan T : clear implicits.
Arguments send_result T : clear implicits.
Arguments recv_result T : clear implicits.
Arguments close_result T : clear implicits.
Arguments op T : clear implicits.

Lemma after_all_app {T : Type} `{ZeroValue T} (c : chan T) ops later :
  after_all c (ops ++ later) = after_all (after_all c ops) later.
Proof. unfold after_all. apply fold_left_app. Qed.

Lemma close_ok_inv {T : Type} `{ZeroValue T} (c c' : chan T) :
  close c = CloseOk c' ->
  closed c = false /\ closed c' = true /\ buf c' = buf c /\ cap c' = cap c.
Proof.
  unfold close. destruct (closed c); [discriminate|].
  intros [= <-]. auto.
Qed.

(** Until it is drained, a closed channel still hands out what it holds,
    oldest value first. *)
Lemma recv_closed_buffered {T : Type} `{ZeroValue T} (c : chan T) v rest :
  buf c = v :: rest ->
  recv c = RecvOk v true (mkChan (cap c) rest (closed c)).
Proof. intros Hb. unfold recv. now rewrite Hb. Qed.

(** Closing a channel whose buffer is empty: a receive that was blocked
    before the close, and every later one, reports the close at once. *)
Lemma close_empty_reports_closed {T : Type} `{ZeroValue T} (c c' : chan T) :
  close c = CloseOk c' ->
  buf c = [] ->
  recv c = RecvBlocked /\
  forall later : list (op T),
    recv (after_all c' later) = RecvOk zero false (after_all c' later).
Proof.
  intros Hclose Hb.
  apply close_ok_inv in Hclose as (Hopen & Hc' & Hb' & _).
  split.
  - unfold recv. now rewrite Hb, Hopen.
  - intros later. apply recv_closed_empty.
    + now apply closed_after_all.
    + rewrite buf_after_all_closed by assumption.
      rewrite Hb', Hb. apply drop_nil.
Qed.

(** C2: every send attempted on a closed channel fails with
    ClosedChannelFault, whatever the value, and whatever was attempted on
    the channel since the flag was set (the flag never goes back); nor can
    the value pass by direct handoff.  No send succeeds after a close. *)
Theorem send_on_closed_faults {T : Type} `{ZeroValue T} (c : chan T) :
  closed c = true ->
  forall (ops : list (op T)) (v : T),
    send v (after_all c ops) = SendFault /\
    handoff v (after_all c ops) = None /\
    after (after_all c ops) (Send v) = after_all c ops.
Proof.
  intros Hc ops v.
  pose proof (closed_after_all ops c Hc) as Hc'.
  assert (Hs : send v (after_all c ops) = SendFault) by now apply send_closed.
  repeat split; [exact Hs| |].
  - unfold handoff. now rewrite Hs.
  - simpl. now rewrite Hs.
Qed.

Lemma send_on_closed_faults_witness :
  let c := mkChan 2%nat [7] true in
  closed c = true /\
  send 9 (after_all c [Recv; Send 1; Close; Recv]) = SendFault.
Proof.
  split; [reflexivity|].
  apply (send_on_closed_faults (mkChan 2%nat [7] true) eq_refl
           [Recv; Send 1; Close; Recv] 9).
Defined.

(** C3: once a channel is closed and as many receives have been made as the
    buffer held values (it is drained), every receive, whatever else is
    attempted on the channel in between, returns at once with the zero
    value and [ok = false], and leaves the channel closed and empty.  In
    particular, when the channel was closed with an empty buffer, a
    receive that was blocked before the close and every receive after it
    report the close. *)
Theorem recv_closed_drained {T : Type} `{ZeroValue T} (c : chan T) :
  closed c = true ->
  (forall ops later : list (op T),
     (length (buf c) <= receives ops)%nat ->
     recv (after_all c (ops ++ later)) =
       RecvOk zero false (after_all c (ops ++ later)) /\
     buf (after_all c (ops ++ later)) = [] /\
     closed (after_all c (ops ++ later)) = true) /\
  (forall c0 : chan T,
     close c0 = CloseOk c -> buf c0 = [] ->
     recv c0 = RecvBlocked /\
     forall later : list (op T),
       recv (after_all c later) = RecvOk zero false (after_all c later)).
Proof.
  intros Hc. split.
  - intros ops later Hlen.
    assert (Hclosed : closed (after_all c (ops ++ later)) = true)
      by now apply closed_after_all.
    assert (Hbuf : buf (after_all c (ops ++ later)) = []).
    { rewrite after_all_app.
      rewrite buf_after_all_closed by now apply closed_after_all.
      rewrite buf_after_all_closed by assumption.
      rewrite (drop_ge (buf c)) by exact Hlen. apply drop_nil. }
    split; [|split; assumption].
    now apply recv_closed_empty.
  - intros c0. apply close_empty_reports_closed.
Qed.

Lemma recv_closed_drained_witness :
  let c := mkChan 3%nat [4; 5] true in
  let c' := after_all c ([Recv; Send 6; Recv] ++ [Close; Recv; Send 8]) in
  closed c = true /\ recv c' = RecvOk 0 false c'.
Proof.
  split; [reflexivity|].
  apply (recv_closed_drained (mkChan 3%nat [4; 5] true) eq_refl).
  simpl. lia.
Defined.

(** *** The buffer and the capacity *)

Lemma buf_bounded_after {T : Type} `{ZeroValue T} (c : chan T) (o : op T) :
  (length (buf c) <= cap c)%nat ->
  (length (buf (after c o)) <= cap (after c o))%nat.
Proof.
  intros Hc. destruct o as [v| |]; simpl.
  - destruct (send v c) as [c'| |] eqn:Hs; try exact Hc.
    apply send_ok_inv in Hs as (_ & Hroom & ->). simpl.
    rewrite length_app. simpl. lia.
  - unfold recv. destruct (buf c) as [|v rest] eqn:Hb.
    + destruct (closed c); simpl; rewrite Hb; simpl; lia.
    + simpl in *. lia.
  - unfold close. destruct (closed c); simpl; exact Hc.
Qed.

Lemma sends_buffered {T : Type} `{ZeroValue T} (vs : list T) : forall c : chan T,
  closed c = false ->
  (length (buf c) + length vs <= cap c)%nat ->
  after_all c (Send <$> vs) = mkChan (cap c) (buf c ++ vs) false.
Proof.
  induction vs as [|v vs IH]; intros c Hopen Hroom.
  - simpl. rewrite app_nil_r. destruct c; simpl in *. now subst.
  - simpl in Hroom.
    change (after_all c (Send <$> v :: vs))
      with (after_all (after c (Send v)) (Send <$> vs)).
    assert (Hs : send v c = SendOk (mkChan (cap c) (buf c ++ [v]) false)).
    { unfold send. rewrite Hopen.
      destruct (Nat.ltb_spec (length (buf c)) (cap c)); [reflexivity|lia]. }
    simpl. rewrite Hs, IH; simpl.
    + now rewrite <- app_assoc.
    + reflexivity.
    + rewrite length_app. simpl. lia.
Qed.

(** X15: the buffered channel of channels.md ([make(chan int, 2)], two
    sends, and a third that would block).  A new channel of capacity C
    takes up to C values without a receiver and keeps them in the order
    they were sent; the next send finds room exactly when fewer than C are
    held, and blocks otherwise; and whatever is attempted on the channel,
    its buffer never holds more than C values. *)
Theorem buffer_holds_capacity {T : Type} `{ZeroValue T} (capacity : nat)
    (vs : list T) :
  (length vs <= capacity)%nat ->
  buf (after_all (make capacity) (Send <$> vs)) = vs /\
  (forall v : T,
     send v (after_all (make capacity) (Send <$> vs)) =
       if (length vs <? capacity)%nat
       then SendOk (mkChan capacity (vs ++ [v]) false)
       else SendBlocked) /\
  (forall ops : list (op T),
     (length (buf (after_all (make capacity) ops)) <= capacity)%nat).
Proof.
  intros Hlen.
  assert (Hall : after_all (make capacity) (Send <$> vs)
                 = mkChan capacity vs false).
  { rewrite sends_buffered; [reflexivity|reflexivity|simpl; lia]. }
  rewrite Hall. split; [reflexivity|]. split.
  - intros v. reflexivity.
  - intros ops.
    assert (Hgen : forall c : chan T,
              (length (buf c) <= cap c)%nat ->
              (length (buf (after_all c ops)) <= cap c)%nat /\
              cap (after_all c ops) = cap c).
    { induction ops as [|o ops IH]; intros c Hc; [simpl; auto|].
      change (after_all c (o :: ops)) with (after_all (after c o) ops).
      assert (Hcap : cap (after c o) = cap c).
      { destruct o as [v| |]; simpl.
        - destruct (send v c) as [c'| |] eqn:Hs; try reflexivity.
          now apply send_ok_inv in Hs as (_ & _ & ->).
        - unfold recv. destruct (buf c); [destruct (closed c)|]; reflexivity.
        - unfold close. destruct (closed c); reflexivity. }
      destruct (IH (after c o) (buf_bounded_after c o Hc)) as [Hb Hcap'].
      rewrite Hcap in *. auto. }
    apply (Hgen (make capacity)). simpl. lia.
Qed.

(** The channel of channels.md. *)
Lemma buffer_holds_capacity_witness :
  (length [1; 2] <= 2)%nat /\
  buf (after_all (make 2) (Send <$> [1; 2])) = [1; 2] /\
  (forall v : Z,
     send v (after_all (make 2) (Send <$> [1; 2])) =
       if (length [1; 2] <? 2)%nat
       then SendOk (mkChan 2 ([1; 2] ++ [v]) false)
       else SendBlocked) /\
  (forall ops : list (op Z),
     (length (buf (after_all (make 2) ops)) <= 2)%nat).
Proof.
  assert (Hlen : (length [1; 2] <= 2)%nat) by (simpl; lia).
  split; [exact Hlen|].
  exact (buffer_holds_capacity 2 [1; 2] Hlen).
Defined.

End Channel.

(** ** Select *)

Module Select.
Import Channel.

Section Branches.
Context {T : Type} `{ZeroValue T}.

(** A candidate operation of a [select], with what the goroutines blocked
    on its channel offer: for a receive, the value of a sender that waits
    (if one does); for a send, whether a receiver waits. *)
Inductive branch : Type :=
| RecvCase (c : chan T) (sender : option T)
| SendCase (c : chan T) (v : T) (receiver : bool).

Definition has_room (c : chan T) : bool := (length (buf c) <? cap c)%nat.
Definition has_value (c : chan T) : bool :=
  match buf c with [] => false | _ :: _ => true end.
Definition waits (sender : option T) : bool :=
  match sender with Some _ => true | None => false end.

(** Modelled from the spec: the readiness of section 4.2 (what the Go
    runtime's [select] does is missing from the sources).  A send is ready
    if the buffer has room or a receiver waits; a receive is ready if the
    buffer is not empty, a sender waits, or the channel is closed. *)
Definition ready (b : branch) : bool :=
  match b with
  | SendCase c _ receiver => has_room c || receiver
  | RecvCase c sender => has_value c || waits sender || closed c
  end.

(** The positions of the ready branches, counted from [i]. *)
Fixpoint ready_from (i : nat) (bs : list branch) : list nat :=
  match bs with
  | [] => []
  | b :: bs => if ready b then i :: ready_from (S i) bs
               else ready_from (S i) bs
  end.

Inductive outcome : Type :=
| Fired (i : nat)
| FiredDefault
| Parked.

(** Modelled from the spec: the choice of section 4.2.  With one or more
    ready branches one of them fires, picked by a number the runtime draws
    ([pick]); with none, the default runs if there is one, else the
    goroutine blocks. *)
Definition select (bs : list branch) (default : bool) (pick : nat) : outcome :=
  match ready_from 0 bs with
  | [] => if default then FiredDefault else Parked
  | i :: rest => Fired (nth (pick mod length (i :: rest)) (i :: rest) i)
  end.

(** Modelled from the spec: the choice of section 4.2 among the positions
    of the ready branches, for a [select] whose channels carry values of
    different types ([select] is [choose] on [ready_from 0 bs]). *)
Definition choose (ready_at : list nat) (default : bool) (pick : nat) : outcome :=
  match ready_at with
  | [] => if default then FiredDefault else Parked
  | i :: rest => Fired (nth (pick mod length (i :: rest)) (i :: rest) i)
  end.

(** What a fired receive yields: the oldest buffered value, else the value
    of the waiting sender, else the zero value of a closed channel. *)
Definition fire_recv (c : chan T) (sender : option T) : T * bool * chan T :=
  match recv c, sender with
  | RecvOk v ok c', _ => (v, ok, c')
  | RecvBlocked, Some v => (v, true, c)
  | RecvBlocked, None => (zero, false, c)
  end.

(** What [fmt.Println] is given: a text or a received value. *)
Inductive word : Type :=
| Text (s : string)
| Value (v : T).

(** The [select] of channels.md:
<<
    select {
    case msg1 := <-ch1:
        fmt.Println("Received", msg1)
    case msg2 := <-ch2:
        fmt.Println("Received", msg2)
    default:
        fmt.Println("No message received")
    }
>>
    It returns the line it prints and the two channels. *)
Definition select_example (ch1 ch2 : chan T) (sender1 sender2 : option T)
    (pick : nat) : list word * chan T * chan T :=
  match select [RecvCase ch1 sender1; RecvCase ch2 sender2] true pick with
  | Fired 0 =>
      let '(msg1, _, ch1') := fire_recv ch1 sender1 in
      ([Text "Received"; Value msg1], ch1', ch2)
  | Fired _ =>
      let '(msg2, _, ch2') := fire_recv ch2 sender2 in
      ([Text "Received"; Value msg2], ch1, ch2')
  | FiredDefault => ([Text "No message received"], ch1, ch2)
  | Parked => ([], ch1, ch2)
  end.


Lemma select_choose bs default pick :
  select bs default pick = choose (ready_from 0 bs) default pick.
Proof. reflexivity. Qed.


End Branches.

Arguments branch T : clear implicits.
Arguments word T : clear implicits.




(** The three ways the [select] of channels.md goes. *)
Lemma select_example_none {T : Type} `{ZeroValue T} (ch1 ch2 : chan T)
    (sender1 sender2 : option T) (pick : nat) :
  ready (RecvCase ch1 sender1) = false ->
  ready (RecvCase ch2 sender2) = false ->
  select_example ch1 ch2 sender1 sender2 pick
  = ([Text "No message received"], ch1, ch2).
Proof.
  intros H1 H2. unfold select_example, select. cbn [ready_from].
  now rewrite H1, H2.
Qed.




(** The example of channels.md: with both channels open and empty and no
    sender waiting, the default line is printed and nothing is received. *)
Lemma select_example_default (ch1 ch2 : chan string) pick :
  ready (RecvCase ch1 None) = false ->
  ready (RecvCase ch2 None) = false ->
  select_example ch1 ch2 None None pick = ([Text "No message received"], ch1, ch2).
Proof. apply select_example_none. Qed.

(** With a message in the first channel only, it is the one received. *)
Lemma select_example_first (ch2 : chan string) msg pick :
  ready (RecvCase ch2 None) = false ->
  select_example (mkChan 1%nat [msg] false) ch2 None None pick =
    ([Text "Received"; Value msg], mkChan 1%nat [] false, ch2).
Proof.
  intros H2. unfold select_example, select. cbn [ready_from].
  rewrite H2. cbn [ready has_value buf orb length].
  now rewrite Nat.mod_1_r.
Qed.

(** With a message in each channel the runtime picks: either is received,
    and the other stays in its channel. *)
Lemma select_example_both (msg1 msg2 : string) :
  select_example (mkChan 1%nat [msg1] false) (mkChan 1%nat [msg2] false)
    None None 0
  = ([Text "Received"; Value msg1], mkChan 1%nat [] false,
     mkChan 1%nat [msg2] false) /\
  select_example (mkChan 1%nat [msg1] false) (mkChan 1%nat [msg2] false)
    None None 1
  = ([Text "Received"; Value msg2], mkChan 1%nat [msg1] false,
     mkChan 1%nat [] false).
Proof. split; reflexivity. Qed.

(** A closed and drained channel is ready: the receive yields the zero
    value, and the default does not run. *)
Lemma select_example_closed (ch2 : chan string) pick :
  ready (RecvCase ch2 None) = false ->
  select_example (mkChan 0%nat [] true) ch2 None None pick =
    ([Text "Received"; Value EmptyString], mkChan 0%nat [] true, ch2).
Proof.
  intros H2. unfold select_example, select. cbn [ready_from].
  rewrite H2. cbn [ready has_value buf orb length closed waits].
  now rewrite Nat.mod_1_r.
Qed.

End Select.

(** ** Schedules *)

Module Sched.

(** What happens when a goroutine is given the processor: it makes one
    step, it cannot move (it is blocked, has not been started or has
    returned), or the program dies of a run-time fault. *)
Inductive step_result (state : Type) : Type :=
| Step (s : state)
| Block
| Crash.
Arguments Step {state} s.
Arguments Block {state}.
Arguments Crash {state}.

Section Run.
Context {state tid : Type}.
Variable step : tid -> state -> step_result state.

(** The run of a schedule: the goroutines named move one after the other. *)
Fixpoint run (sched : list tid) (s : state) : step_result state :=
  match sched with
  | [] => Step s
  | t :: sched =>
      match step t s with
      | Step s' => run sched s'
      | Block => Block
      | Crash => Crash
      end
  end.

(** Some goroutine can move. *)
Definition can_move (s : state) : Prop := exists t s', step t s = Step s'.

Section Invariant.
Variable Inv : state -> Prop.
Hypothesis Inv_step : forall t s s', Inv s -> step t s = Step s' -> Inv s'.

Lemma run_invariant sched : forall s s',
  Inv s -> run sched s = Step s' -> Inv s'.
Proof.
  induction sched as [|t sched IH]; intros s s' Hs; simpl.
  - now intros [= <-].
  - destruct (step t s) as [s1| |] eqn:Ht; try discriminate.
    apply IH. eapply Inv_step; eauto.
Qed.

Lemma run_no_crash sched : forall s,
  (forall t s, Inv s -> step t s <> Crash) ->
  Inv s -> run sched s <> Crash.
Proof.
  induction sched as [|t sched IH]; intros s Hsafe Hs; simpl; [discriminate|].
  destruct (step t s) as [s1| |] eqn:Ht; [|discriminate|].
  - apply IH; [exact Hsafe|]. eapply Inv_step; eauto.
  - exfalso. eapply Hsafe; eauto.
Qed.

(** A measure that every step lowers bounds the length of every run. *)
Lemma run_bounded (m : state -> nat) sched : forall s s',
  (forall t s s', Inv s -> step t s = Step s' -> (m s' < m s)%nat) ->
  Inv s -> run sched s = Step s' -> (length sched + m s' <= m s)%nat.
Proof.
  induction sched as [|t sched IH]; intros s s' Hm Hs; simpl.
  - intros [= <-]. lia.
  - destruct (step t s) as [s1| |] eqn:Ht; try discriminate.
    intros Hrun.
    pose proof (Hm _ _ _ Hs Ht).
    pose proof (IH s1 s' Hm (Inv_step _ _ _ Hs Ht) Hrun). lia.
Qed.

(** With a measure that every step lowers, and a goroutine that can move
    in every state that is not final, every run can be carried on to a
    final state. *)
Lemma run_completes (m : state -> nat) (final : state -> Prop) :
  (forall s, final s \/ ~ final s) ->
  (forall t s s', Inv s -> step t s = Step s' -> (m s' < m s)%nat) ->
  (forall s, Inv s -> ~ final s -> can_move s) ->
  forall s, Inv s -> exists rest s', run rest s = Step s' /\ final s'.
Proof.
  intros Hdec Hm Hmove s.
  remember (m s) as k eqn:Hk. revert s Hk.
  induction k as [k IH] using lt_wf_ind. intros s -> Hs.
  destruct (Hdec s) as [Hfin|Hnot].
  - exists [], s. auto.
  - destruct (Hmove s Hs Hnot) as (t & s1 & Ht).
    destruct (IH (m s1) (Hm _ _ _ Hs Ht) s1 eq_refl (Inv_step _ _ _ Hs Ht))
      as (rest & s' & Hrun & Hfin).
    exists (t :: rest), s'. simpl. rewrite Ht. auto.
Qed.

End Invariant.

Lemma run_app sched rest s :
  run (sched ++ rest) s =
  match run sched s with
  | Step s' => run rest s'
  | Block => Block
  | Crash => Crash
  end.
Proof.
  revert s. induction sched as [|t sched IH]; intros s; simpl; [reflexivity|].
  destruct (step t s); auto.
Qed.

(** A schedule made of rounds: if round [j] leads from a state that
    satisfies [P j] to one that satisfies [P (S j)], the rounds [0..m-1],
    one after the other, lead from [P 0] to [P m]. *)
Lemma run_rounds (P : nat -> state -> Prop) (round : nat -> list tid) (m : nat) :
  (forall j s, (j < m)%nat -> P j s ->
     exists s', run (round j) s = Step s' /\ P (S j) s') ->
  forall s, P 0%nat s ->
    exists s', run (concat (round <$> seq 0 m)) s = Step s' /\ P m s'.
Proof.
  induction m as [|m IH]; intros Hround s Hs.
  - exists s. auto.
  - destruct (IH (fun j s Hj => Hround j s (Nat.lt_lt_succ_r _ _ Hj)) s Hs)
      as (s1 & Hrun1 & Hs1).
    destruct (Hround m s1 (Nat.lt_succ_diag_r m) Hs1) as (s2 & Hrun2 & Hs2).
    exists s2. split; [|exact Hs2].
    rewrite seq_S, fmap_app, concat_app, run_app, Hrun1. simpl.
    now rewrite app_nil_r.
Qed.

End Run.

End Sched.

(** ** One message from a goroutine *)

Module FirstMessage.
Import Channel Sched.

Section Program.
Context {T : Type} `{ZeroValue T}.

(** The first example of channels.md:
<<
    func main() {
        ch := make(chan string)

        go func() {
            ch <- "Hello from goroutine"
        }()

        msg := <-ch
        fmt.Println(msg)
    }
>>
    The message and the capacity of the channel (0 there) are parameters
    here. *)
Variable capacity : nat.
Variable hello : T.

(** The anonymous goroutine: not started yet, at its send, returned. *)
Inductive sender_pc : Type :=
| S_NotStarted
| S_Send
| S_Done.

(** [main]: at the [go] statement, at the receive, at [fmt.Println],
    returned. *)
Inductive main_pc : Type :=
| M_Go
| M_Recv
| M_Println (msg : T)
| M_Done.

Record state : Type := mkState {
  ch : chan T;
  sender : sender_pc;
  main : main_pc;
  stdout : list T
}.

Inductive goroutine : Type := Sender | Main.

Definition init : state := mkState (make capacity) S_NotStarted M_Go [].

Definition step_sender (s : state) : step_result state :=
  match sender s with
  | S_Send =>
      match send hello (ch s) with
      | SendOk ch' => Step (mkState ch' S_Done (main s) (stdout s))
      | SendFault => Crash
      | SendBlocked =>
          (* no room: the value can only pass to a receiver that waits *)
          match main s, handoff hello (ch s) with
          | M_Recv, Some msg =>
              Step (mkState (ch s) S_Done (M_Println msg) (stdout s))
          | _, _ => Block
          end
      end
  | _ => Block
  end.

Definition step_main (s : state) : step_result state :=
  match main s with
  | M_Go => Step (mkState (ch s) S_Send M_Recv (stdout s))
  | M_Recv =>
      match recv (ch s) with
      | RecvOk msg _ ch' =>
          Step (mkState ch' (sender s) (M_Println msg) (stdout s))
      | RecvBlocked => Block
      end
  | M_Println msg =>
      Step (mkState (ch s) (sender s) M_Done (stdout s ++ [msg]))
  | M_Done => Block
  end.

Definition step (g : goroutine) (s : state) : step_result state :=
  match g with
  | Sender => step_sender s
  | Main => step_main s
  end.

(** *** The invariant *)

(** The message, while the goroutine has it, and while [main] has it. *)
Definition unsent (s : state) : list T :=
  match sender s with
  | S_Done => []
  | _ => [hello]
  end.

Definition in_hand (s : state) : list T :=
  match main s with
  | M_Println msg => [msg]
  | _ => []
  end.

(** The message is in one place: with the goroutine, in the channel, with
    [main], or on standard output, where it is only once [main] has
    returned. *)
Record Inv (s : state) : Prop := mkInv {
  inv_where : stdout s ++ in_hand s ++ buf (ch s) ++ unsent s = [hello];
  inv_open : closed (ch s) = false;
  inv_started : main s = M_Go <-> sender s = S_NotStarted;
  inv_out : stdout s = [] <-> main s <> M_Done
}.

(** The number of steps left. *)
Definition measure (s : state) : nat :=
  match sender s with S_Done => 0 | _ => 1 end +
  match main s with M_Go => 3 | M_Recv => 2 | M_Println _ => 1 | M_Done => 0 end.

Lemma hello_Inv_init : Inv init.
Proof.
  split; simpl; [reflexivity|reflexivity|tauto|].
  split; [discriminate|reflexivity].
Qed.

Lemma hello_step_sender_inv s s' :
  step_sender s = Step s' ->
  sender s = S_Send /\
  ((exists ch', send hello (ch s) = SendOk ch' /\
      s' = mkState ch' S_Done (main s) (stdout s)) \/
   (main s = M_Recv /\ handoff hello (ch s) = Some hello /\
      s' = mkState (ch s) S_Done (M_Println hello) (stdout s))).
Proof.
  unfold step_sender. intros Hstep.
  destruct (sender s); try discriminate. split; [reflexivity|].
  destruct (send hello (ch s)) as [ch'| |] eqn:Hsend; try discriminate.
  - left. exists ch'. now injection Hstep as <-.
  - destruct (main s) eqn:Hm; try discriminate.
    destruct (handoff hello (ch s)) as [msg|] eqn:Hh; try discriminate.
    pose proof (handoff_inv _ _ _ Hh) as (-> & _).
    right. now injection Hstep as <-.
Qed.

Lemma hello_step_main_inv s s' :
  step_main s = Step s' ->
  (main s = M_Go /\ s' = mkState (ch s) S_Send M_Recv (stdout s)) \/
  (exists msg rest, main s = M_Recv /\ buf (ch s) = msg :: rest /\
     s' = mkState (mkChan (cap (ch s)) rest (closed (ch s))) (sender s)
            (M_Println msg) (stdout s)) \/
  (exists msg, main s = M_Recv /\ buf (ch s) = [] /\ closed (ch s) = true /\
     s' = mkState (ch s) (sender s) (M_Println msg) (stdout s)) \/
  (exists msg, main s = M_Println msg /\
     s' = mkState (ch s) (sender s) M_Done (stdout s ++ [msg])).
Proof.
  unfold step_main, recv. intros Hstep.
  destruct (main s) as [| |msg|]; try discriminate.
  - left. now injection Hstep as <-.
  - destruct (buf (ch s)) as [|msg rest] eqn:Hb.
    + destruct (closed (ch s)) eqn:Hc; try discriminate.
      right; right; left. exists zero. now injection Hstep as <-.
    + right; left. exists msg, rest. now injection Hstep as <-.
  - right; right; right. exists msg. now injection Hstep as <-.
Qed.

Lemma hello_Inv_step g s s' : Inv s -> step g s = Step s' -> Inv s'.
Proof.
  intros [Hw Hop Hst Hout] Hstep.
  unfold unsent, in_hand in Hw.
  destruct s as [c p m out]; simpl in *.
  destruct g; simpl in Hstep.
  - apply hello_step_sender_inv in Hstep
      as [Hp [(ch' & Hsend & ->)|(Hm & Hh & ->)]]; simpl in *; subst p.
    + apply send_ok_inv in Hsend as (_ & _ & ->); simpl in *.
      split; unfold unsent, in_hand; simpl; auto.
      * now rewrite app_nil_r.
      * rewrite Hst. split; discriminate.
    + apply handoff_inv in Hh as (_ & _ & Hbuf & _). subst m.
      split; unfold unsent, in_hand; simpl; auto.
      * rewrite Hbuf in *. simpl in *. exact Hw.
      * split; discriminate.
      * rewrite Hout. split; discriminate.
  - apply hello_step_main_inv in Hstep
      as [(Hm & ->)|[(msg & rest & Hm & Hb & ->)|
          [(msg & Hm & Hb & Hc & ->)|(msg & Hm & ->)]]];
      simpl in *; subst m.
    + assert (Hp : p = S_NotStarted) by tauto. subst p.
      split; unfold unsent, in_hand; simpl; auto.
      * split; discriminate.
      * rewrite Hout. split; discriminate.
    + split; unfold unsent, in_hand; simpl; auto.
      * now rewrite Hb in Hw.
      * split; [discriminate|]. intros Hp. apply Hst in Hp. discriminate.
      * rewrite Hout. split; discriminate.
    + congruence.
    + split; unfold unsent, in_hand; simpl; auto.
      * now rewrite <- app_assoc.
      * split; [discriminate|]. intros Hp. apply Hst in Hp. discriminate.
      * split; [|intros Hne; now destruct Hne].
        intros Hnil. now apply app_eq_nil in Hnil as [_ Hnil].
Qed.

Lemma hello_step_no_crash g s : Inv s -> step g s <> Crash.
Proof.
  intros [_ Hop _ _]. destruct g; simpl.
  - unfold step_sender. destruct (sender s); try discriminate.
    unfold send. rewrite Hop.
    destruct (_ <? _)%nat; [discriminate|].
    destruct (main s); try discriminate.
    destruct (handoff _ _); discriminate.
  - unfold step_main. destruct (main s); try discriminate.
    destruct (recv (ch s)); discriminate.
Qed.

Lemma hello_measure_step g s s' :
  Inv s -> step g s = Step s' -> (measure s' < measure s)%nat.
Proof.
  intros [_ _ Hst _] Hstep. unfold measure.
  destruct s as [c p m out]; simpl in *.
  destruct g; simpl in Hstep.
  - apply hello_step_sender_inv in Hstep
      as [Hp [(ch' & Hsend & ->)|(Hm & Hh & ->)]]; simpl in *; subst p.
    + destruct m; simpl; lia.
    + subst m. simpl. lia.
  - apply hello_step_main_inv in Hstep
      as [(Hm & ->)|[(msg & rest & Hm & Hb & ->)|
          [(msg & Hm & Hb & Hc & ->)|(msg & Hm & ->)]]];
      simpl in *; subst m; simpl.
    + assert (Hp : p = S_NotStarted) by tauto. subst p. lia.
    + destruct p; lia.
    + destruct p; lia.
    + destruct p; lia.
Qed.

(** Until [main] returns, one of the two goroutines can move. *)
Lemma hello_progress s : Inv s -> main s <> M_Done -> can_move step s.
Proof.
  intros [Hw Hop Hst Hout] Hm. unfold unsent, in_hand in Hw.
  destruct (main s) as [| |msg|] eqn:Em; try congruence.
  - exists Main. simpl. unfold step_main. rewrite Em. eauto.
  - destruct (buf (ch s)) as [|msg rest] eqn:Hb.
    + exists Sender. simpl. unfold step_sender.
      destruct (sender s) eqn:Ep.
      * assert (M_Recv = M_Go) by tauto. discriminate.
      * unfold handoff, send, recv. rewrite Em, Hop, Hb.
        destruct (_ <? _)%nat; eauto.
      * assert (Hnil : stdout s = []) by (apply Hout; discriminate).
        rewrite Hnil in Hw. discriminate.
    + exists Main. simpl. unfold step_main, recv. rewrite Em, Hb. eauto.
  - exists Main. simpl. unfold step_main. rewrite Em. eauto.
Qed.

End Program.

(** X14: the first example of channels.md, for any message and any
    capacity of the channel.  Whatever the schedule, the program does not
    fault; nothing is printed before [main] returns, and when it has
    returned the message has been printed, once; until then one of the two
    goroutines can move; no run is longer than 4 steps; and every run can
    be carried on until [main] returns. *)
Theorem message_printed_once {T : Type} `{ZeroValue T} (capacity : nat)
    (hello : T) (sched : list goroutine) :
  run (step hello) sched (init capacity) <> Crash /\
  forall s, run (step hello) sched (init capacity) = Step s ->
    (main s = M_Done -> stdout s = [hello]) /\
    (main s <> M_Done -> stdout s = [] /\ can_move (step hello) s) /\
    (length sched <= 4)%nat /\
    (exists rest s', run (step hello) (sched ++ rest) (init capacity) = Step s' /\
                     main s' = M_Done).
Proof.
  split.
  - apply (run_no_crash _ (Inv hello)).
    + apply hello_Inv_step.
    + intros g s. apply hello_step_no_crash.
    + apply hello_Inv_init.
  - intros s Hrun.
    assert (Hinv : Inv hello s).
    { eapply run_invariant; [apply hello_Inv_step|apply hello_Inv_init|exact Hrun]. }
    split; [|split; [|split]].
    + intros Hdone.
      pose proof (inv_where _ _ Hinv) as Hw.
      pose proof (inv_out _ _ Hinv) as Hout.
      unfold in_hand in Hw. rewrite Hdone in Hw. simpl in Hw.
      destruct (stdout s) as [|x out] eqn:Eo.
      * exfalso. now apply Hout.
      * injection Hw as -> Hw. apply app_eq_nil in Hw as [-> _]. reflexivity.
    + intros Hm. split; [now apply (inv_out _ _ Hinv)|now apply hello_progress].
    + pose proof (run_bounded _ (Inv hello) (hello_Inv_step hello) (measure (T:=T))
                    sched _ _ (hello_measure_step hello) (hello_Inv_init _ _) Hrun)
        as Hb.
      change (measure (init capacity)) with 4%nat in Hb. lia.
    + destruct (run_completes _ (Inv hello) (hello_Inv_step hello) (measure (T:=T))
                  (fun s => main s = M_Done))
        with (s := s) as (rest & s' & Hrest & Hdone).
      * intros s0. destruct (main s0); (now left) || (right; discriminate).
      * apply hello_measure_step.
      * intros s0. apply hello_progress.
      * exact Hinv.
      * exists rest, s'. rewrite run_app, Hrun. auto.
Qed.

(** The run of channels.md, on the unbuffered channel. *)
Example hello_run :
  run (step "Hello from goroutine") [Main; Sender; Main] (init 0)
  = Step (mkState (make 0) S_Done M_Done ["Hello from goroutine"]).
Proof. reflexivity. Qed.

End FirstMessage.

(** ** One producer, one consumer: ranging over a channel *)

Module RangeChannel.
Import Channel Sched.

Section Program.
Context {T : Type} `{ZeroValue T}.

(** The example of the [range] notes:
<<
    ch := make(chan int)
    go func() {
        for i := 1; i <= 3; i++ {
            ch <- i
        }
        close(ch)
    }()
    for val := range ch {
        fmt.Println(val)
    }
>>
    The goroutine sends the values of a sequence, one after the other,
    and closes the channel; the sequence ([1; 2; 3] in the notes) and the
    capacity of the channel (0 there) are parameters here. *)
Variable capacity : nat.
Variable xs : list T.

(** The anonymous goroutine: not started yet, at [ch <- i] with the values
    still to send, at [close(ch)], returned. *)
Inductive producer_pc : Type :=
| P_NotStarted
| P_Send (rest : list T)
| P_Close
| P_Done.

(** [main]: at the [go] statement, at the receive of [range ch], at
    [fmt.Println(val)], past the loop. *)
Inductive main_pc : Type :=
| M_Go
| M_Range
| M_Println (val : T)
| M_Done.

Record state : Type := mkState {
  ch : chan T;
  producer : producer_pc;
  main : main_pc;
  printed : list T
}.

Inductive goroutine : Type := Producer | Main.

Definition init : state := mkState (make capacity) P_NotStarted M_Go [].

Definition step_producer (s : state) : step_result state :=
  match producer s with
  | P_NotStarted => Block
  | P_Send [] => Step (mkState (ch s) P_Close (main s) (printed s))
  | P_Send (i :: rest) =>
      match send i (ch s) with
      | SendOk ch' => Step (mkState ch' (P_Send rest) (main s) (printed s))
      | SendFault => Crash
      | SendBlocked =>
          (* no room: the value can only pass to a receiver that waits *)
          match main s, handoff i (ch s) with
          | M_Range, Some val =>
              Step (mkState (ch s) (P_Send rest) (M_Println val) (printed s))
          | _, _ => Block
          end
      end
  | P_Close =>
      match close (ch s) with
      | CloseOk ch' => Step (mkState ch' P_Done (main s) (printed s))
      | CloseFault => Crash
      end
  | P_Done => Block
  end.

Definition step_main (s : state) : step_result state :=
  match main s with
  | M_Go => Step (mkState (ch s) (P_Send xs) M_Range (printed s))
  | M_Range =>
      match recv (ch s) with
      | RecvOk val true ch' =>
          Step (mkState ch' (producer s) (M_Println val) (printed s))
      | RecvOk _ false ch' =>
          Step (mkState ch' (producer s) M_Done (printed s))
      | RecvBlocked => Block
      end
  | M_Println val =>
      Step (mkState (ch s) (producer s) M_Range (printed s ++ [val]))
  | M_Done => Block
  end.

Definition step (g : goroutine) (s : state) : step_result state :=
  match g with
  | Producer => step_producer s
  | Main => step_main s
  end.

(** The values the goroutine has still to send, and the value [main] has
    received and not printed yet. *)
Definition unsent (s : state) : list T :=
  match producer s with
  | P_NotStarted => xs
  | P_Send rest => rest
  | P_Close | P_Done => []
  end.

Definition in_hand (s : state) : list T :=
  match main s with
  | M_Println val => [val]
  | _ => []
  end.

(** The invariant: the values printed, the one in hand, those in the
    buffer and those still to send make up the sequence, in this order;
    the channel is closed exactly when the goroutine has returned; [main]
    leaves its loop only then, with the buffer empty. *)
Record Inv (s : state) : Prop := mkInv {
  inv_order : printed s ++ in_hand s ++ buf (ch s) ++ unsent s = xs;
  inv_closed : closed (ch s) = true <-> producer s = P_Done;
  inv_started : main s = M_Go <-> producer s = P_NotStarted;
  inv_done : main s = M_Done -> producer s = P_Done /\ buf (ch s) = []
}.

(** The number of steps left is bounded by this measure. *)
Definition measure (s : state) : nat :=
  3 * length (unsent s) + 2 * length (buf (ch s)) +
  match producer s with
  | P_NotStarted | P_Send _ => 2 | P_Close => 1 | P_Done => 0
  end +
  match main s with
  | M_Go => 3 | M_Range => 1 | M_Println _ => 2 | M_Done => 0
  end.

Lemma range_Inv_init : Inv init.
Proof.
  split; simpl; [reflexivity|split; discriminate|tauto|discriminate].
Qed.

Lemma range_step_producer_inv s s' :
  step_producer s = Step s' ->
  (producer s = P_Send [] /\ s' = mkState (ch s) P_Close (main s) (printed s)) \/
  (exists i rest ch', producer s = P_Send (i :: rest) /\ send i (ch s) = SendOk ch' /\
     s' = mkState ch' (P_Send rest) (main s) (printed s)) \/
  (exists i rest, producer s = P_Send (i :: rest) /\ main s = M_Range /\
     handoff i (ch s) = Some i /\
     s' = mkState (ch s) (P_Send rest) (M_Println i) (printed s)) \/
  (exists ch', producer s = P_Close /\ close (ch s) = CloseOk ch' /\
     s' = mkState ch' P_Done (main s) (printed s)).
Proof.
  unfold step_producer. intros Hstep.
  destruct (producer s) as [|[|i rest]| |]; try discriminate.
  - left. now injection Hstep as <-.
  - destruct (send i (ch s)) as [ch'| |] eqn:Hsend; try discriminate.
    + right; left. exists i, rest, ch'. now injection Hstep as <-.
    + destruct (main s) eqn:Hm; try discriminate.
      destruct (handoff i (ch s)) as [val|] eqn:Hh; try discriminate.
      pose proof (handoff_inv _ _ _ Hh) as (-> & _).
      right; right; left. exists i, rest. now injection Hstep as <-.
  - destruct (close (ch s)) as [ch'|] eqn:Hc; try discriminate.
    right; right; right. exists ch'. now injection Hstep as <-.
Qed.

Lemma range_step_main_inv s s' :
  step_main s = Step s' ->
  (main s = M_Go /\ s' = mkState (ch s) (P_Send xs) M_Range (printed s)) \/
  (exists val rest, main s = M_Range /\ buf (ch s) = val :: rest /\
     s' = mkState (mkChan (cap (ch s)) rest (closed (ch s))) (producer s)
            (M_Println val) (printed s)) \/
  (main s = M_Range /\ buf (ch s) = [] /\ closed (ch s) = true /\
     s' = mkState (ch s) (producer s) M_Done (printed s)) \/
  (exists val, main s = M_Println val /\
     s' = mkState (ch s) (producer s) M_Range (printed s ++ [val])).
Proof.
  unfold step_main, recv. intros Hstep.
  destruct (main s) as [| |val|]; try discriminate.
  - left. now injection Hstep as <-.
  - destruct (buf (ch s)) as [|val rest] eqn:Hb.
    + destruct (closed (ch s)) eqn:Hc; try discriminate.
      right; right; left. now injection Hstep as <-.
    + right; left. exists val, rest. now injection Hstep as <-.
  - right; right; right. exists val. now injection Hstep as <-.
Qed.

Lemma range_Inv_step g s s' : Inv s -> step g s = Step s' -> Inv s'.
Proof.
  intros [Hord Hcl Hst Hdn] Hstep.
  unfold unsent, in_hand in Hord.
  destruct s as [c p m out]; simpl in *.
  destruct g; simpl in Hstep.
  - apply range_step_producer_inv in Hstep
      as [(Hp & ->)|[(i & rest & ch' & Hp & Hsend & ->)|
          [(i & rest & Hp & Hm & Hh & ->)|(ch' & Hp & Hclose & ->)]]];
      simpl in *; subst p.
    + split; unfold unsent, in_hand; simpl; auto.
      * rewrite Hcl. split; discriminate.
      * rewrite Hst. split; discriminate.
      * intros Hm. apply Hdn in Hm as [? _]. discriminate.
    + apply send_ok_inv in Hsend as (Hopen & _ & ->); simpl in *.
      split; unfold unsent, in_hand; simpl.
      * etransitivity; [|exact Hord]. now rewrite <- !app_assoc.
      * split; discriminate.
      * rewrite Hst. split; discriminate.
      * intros Hm. apply Hdn in Hm as [? _]. discriminate.
    + apply handoff_inv in Hh as (_ & Hopen & Hbuf & _). subst m.
      split; unfold unsent, in_hand; simpl.
      * etransitivity; [|exact Hord]. now rewrite Hbuf.
      * rewrite Hcl. split; discriminate.
      * split; discriminate.
      * discriminate.
    + apply close_ok_inv in Hclose as (Hopen & Hclosed & Hbuf & _).
      split; unfold unsent, in_hand; simpl.
      * now rewrite Hbuf.
      * tauto.
      * rewrite Hst. split; discriminate.
      * intros Hm. apply Hdn in Hm as [? _]. discriminate.
  - apply range_step_main_inv in Hstep
      as [(Hm & ->)|[(val & rest & Hm & Hb & ->)|
          [(Hm & Hb & Hc & ->)|(val & Hm & ->)]]];
      simpl in *; subst m.
    + assert (Hp : p = P_NotStarted) by tauto. subst p.
      split; unfold unsent, in_hand; simpl; auto.
      * rewrite Hcl. split; discriminate.
      * split; discriminate.
      * discriminate.
    + split; unfold unsent, in_hand; simpl.
      * etransitivity; [|exact Hord]. now rewrite Hb.
      * exact Hcl.
      * split; [discriminate|]. intros Hp. apply Hst in Hp. discriminate.
      * discriminate.
    + split; unfold unsent, in_hand; simpl; auto.
      * split; [discriminate|]. intros Hp. apply Hst in Hp. discriminate.
      * intros _. split; [now apply Hcl|exact Hb].
    + split; unfold unsent, in_hand; simpl.
      * etransitivity; [|exact Hord]. now rewrite <- app_assoc.
      * exact Hcl.
      * split; [discriminate|]. intros Hp. apply Hst in Hp. discriminate.
      * discriminate.
Qed.

Lemma range_step_no_crash g s : Inv s -> step g s <> Crash.
Proof.
  intros [_ Hcl _ _]. destruct g; simpl.
  - unfold step_producer.
    destruct (producer s) as [|[|i rest]| |] eqn:Hp; try discriminate.
    + unfold send. destruct (closed (ch s)).
      * assert (P_Send (i :: rest) = P_Done) by tauto. discriminate.
      * destruct (_ <? _)%nat; [discriminate|].
        destruct (main s); try discriminate.
        destruct (handoff _ _); discriminate.
    + unfold close. destruct (closed (ch s)); [|discriminate].
      assert (P_Close = P_Done) by tauto. discriminate.
  - unfold step_main.
    destruct (main s); try discriminate.
    destruct (recv (ch s)) as [? [|] ?|]; discriminate.
Qed.

Lemma range_measure_step g s s' :
  Inv s -> step g s = Step s' -> (measure s' < measure s)%nat.
Proof.
  intros [_ _ Hst _] Hstep. unfold measure, unsent.
  destruct s as [c p m out]; simpl in *.
  destruct g; simpl in Hstep.
  - apply range_step_producer_inv in Hstep
      as [(Hp & ->)|[(i & rest & ch' & Hp & Hsend & ->)|
          [(i & rest & Hp & Hm & Hh & ->)|(ch' & Hp & Hclose & ->)]]];
      simpl in *; subst p; simpl.
    + destruct m; lia.
    + apply send_ok_inv in Hsend as (_ & _ & ->); simpl.
      rewrite length_app. destruct m; simpl; lia.
    + subst m. lia.
    + apply close_ok_inv in Hclose as (_ & _ & -> & _). destruct m; lia.
  - apply range_step_main_inv in Hstep
      as [(Hm & ->)|[(val & rest & Hm & Hb & ->)|
          [(Hm & Hb & Hc & ->)|(val & Hm & ->)]]];
      simpl in *; subst m; simpl.
    + assert (Hp : p = P_NotStarted) by tauto. subst p. lia.
    + rewrite Hb. destruct p; simpl; lia.
    + destruct p; lia.
    + destruct p; lia.
Qed.

(** Until [main] has left its loop, one of the two goroutines can move:
    the program does not deadlock. *)
Lemma range_progress s : Inv s -> main s <> M_Done -> can_move step s.
Proof.
  intros [_ Hcl Hst _] Hm.
  destruct (step Main s) as [s1| |] eqn:HM.
  - exists Main, s1. exact HM.
  - (* [main] waits at the receive on an open and empty channel *)
    simpl in HM. unfold step_main in HM.
    destruct (main s) eqn:Em; try discriminate; [|congruence].
    destruct (recv (ch s)) as [? [|] ?|] eqn:Hr; try discriminate.
    pose proof (recv_blocked_inv _ Hr) as [Hopen Hb].
    exists Producer. simpl. unfold step_producer. rewrite Em.
    destruct (producer s) as [|[|i rest]| |] eqn:Hp.
    + assert (M_Range = M_Go) by tauto. discriminate.
    + eauto.
    + unfold handoff. rewrite Hr. unfold send. rewrite Hopen, Hb. simpl.
      destruct (_ <? _)%nat; eauto.
    + unfold close. rewrite Hopen. eauto.
    + assert (closed (ch s) = true) by tauto. congruence.
  - exfalso. unfold step in HM. unfold step_main in HM.
    destruct (main s); try discriminate.
    destruct (recv (ch s)) as [? [|] ?|]; discriminate.
Qed.

End Program.

(** The program of the notes: an unbuffered channel and the values 1, 2, 3. *)

(** C6: whatever the sequence the producer sends, whatever the capacity of
    the channel and whatever the schedule, the program does not fault, the
    values printed so far are the first values sent, in the order they
    were sent, and when [main] has left its loop they are the whole
    sequence; until then some goroutine can move, no schedule is longer
    than [3 * length xs + 5] steps, and every run can be carried on until
    [main] leaves its loop. *)
Theorem fifo_order {T : Type} `{ZeroValue T} (capacity : nat) (xs : list T)
    (sched : list goroutine) :
  run (step xs) sched (init capacity) <> Crash /\
  forall s, run (step xs) sched (init capacity) = Step s ->
    (exists later, xs = printed s ++ later) /\
    (main s = M_Done -> printed s = xs) /\
    (main s <> M_Done -> can_move (step xs) s) /\
    (length sched <= 3 * length xs + 5)%nat /\
    (exists rest s', run (step xs) (sched ++ rest) (init capacity) = Step s' /\
                     main s' = M_Done).
Proof.
  split.
  - apply (run_no_crash _ (Inv xs)).
    + apply range_Inv_step.
    + intros g s. apply range_step_no_crash.
    + apply range_Inv_init.
  - intros s Hrun.
    assert (Hinv : Inv xs s).
    { eapply run_invariant; [apply range_Inv_step|apply range_Inv_init|exact Hrun]. }
    repeat split.
    + exists (in_hand s ++ buf (ch s) ++ unsent xs s).
      symmetry. apply (inv_order _ _ Hinv).
    + intros Hdone.
      destruct (inv_done _ _ Hinv Hdone) as [Hp Hb].
      pose proof (inv_order _ _ Hinv) as Hord.
      unfold in_hand, unsent in Hord. rewrite Hdone, Hp, Hb in Hord.
      now rewrite !app_nil_r in Hord.
    + intros Hm. now apply range_progress.
    + pose proof (run_bounded _ (Inv xs) (range_Inv_step xs) (measure xs) sched
                    _ _ (range_measure_step xs) (range_Inv_init _ _) Hrun) as Hb.
      change (measure xs (init capacity)) with (3 * length xs + 0 + 2 + 3)%nat in Hb.
      lia.
    + destruct (run_completes _ (Inv xs) (range_Inv_step xs) (measure xs)
                  (fun s => main s = M_Done))
        with (s := s) as (rest & s' & Hrest & Hdone).
      * intros s0. destruct (main s0); (now left) || (right; discriminate).
      * apply range_measure_step.
      * intros s0. apply range_progress.
      * exact Hinv.
      * exists rest, s'. rewrite run_app, Hrun. auto.
Qed.

Example range_example_run :
  run (step (seqZ 1 3))
    [Main; Producer; Main; Producer; Main; Producer; Main; Producer;
     Producer; Main] (init 0)
  = Step (mkState (mkChan 0%nat [] true) P_Done M_Done [1; 2; 3]).
Proof. reflexivity. Qed.

(** The same values through a channel of capacity 2, with the goroutine
    running ahead of [main]. *)
Example range_buffered_run :
  run (step (seqZ 1 3))
    [Main; Producer; Producer; Main; Producer; Producer; Main; Main; Main;
     Producer; Main; Main; Main] (init 2)
  = Step (mkState (mkChan 2%nat [] true) P_Done M_Done [1; 2; 3]).
Proof. reflexivity. Qed.

End RangeChannel.

(** ** A [select] in a loop: two senders, two channels *)

Module SelectLoop.
Import Channel Select Sched.

(** The program of the channels lesson:
<<
    func main() {
        chanInt:=make(chan int)
        chanStr:=make(chan string)

        go func ()  {
            chanInt <- 10
        }()

        go func ()  {
            chanStr <- "hello"
        }()

        for i:=0; i<2; i++{
            select {
            case chanIntVal:= <-chanInt:
                fmt.Println("Received DATA from chanInt: ",chanIntVal)
            case chanStrVal:= <-chanStr:
                fmt.Println("Received DATA from chanStr: ",chanStrVal)
            }
        }
    }
>> *)

(** A goroutine that sends one value: not started yet, at its send,
    returned. *)
Inductive sender_pc : Type :=
| S_NotStarted
| S_Send
| S_Done.

(** [main]: at the first and at the second [go] statement, at the loop
    test, at the [select], at one of the two [fmt.Println], returned. *)
Inductive main_pc : Type :=
| M_GoInt
| M_GoStr
| M_Loop (i : Z)
| M_Select (i : Z)
| M_PrintInt (i : Z) (chanIntVal : Z)
| M_PrintStr (i : Z) (chanStrVal : string)
| M_Done.

(** The lines on standard output. *)
Inductive line : Type :=
| IntLine (chanIntVal : Z)
| StrLine (chanStrVal : string).

Record state : Type := mkState {
  chanInt : chan Z;
  chanStr : chan string;
  senderInt : sender_pc;
  senderStr : sender_pc;
  main : main_pc;
  stdout : list line
}.

(** [main] moves with the number the runtime draws for its [select]. *)
Inductive goroutine : Type :=
| Main (pick : nat)
| SenderInt
| SenderStr.

Definition init : state :=
  mkState (make 0) (make 0) S_NotStarted S_NotStarted M_GoInt [].

(** What a sender offers to a [select]: its value while it waits at its
    send. *)
Definition offer {T : Type} (pc : sender_pc) (v : T) : option T :=
  match pc with
  | S_Send => Some v
  | _ => None
  end.

(** The sender once a receive on its channel has fired: it has returned
    if the value came from it (nothing was buffered). *)
Definition after_recv {T : Type} `{ZeroValue T} (c : chan T) (pc : sender_pc)
    : sender_pc :=
  match recv c, pc with
  | RecvBlocked, S_Send => S_Done
  | _, _ => pc
  end.

Section Program.
(** The values sent, 10 and "hello" in the lesson. *)
Variable ten : Z.
Variable hello : string.

(** The positions of the ready branches of the [select]. *)
Definition ready_cases (s : state) : list nat :=
  (if ready (RecvCase (chanInt s) (offer (senderInt s) ten))
   then [0%nat] else []) ++
  (if ready (RecvCase (chanStr s) (offer (senderStr s) hello))
   then [1%nat] else []).

Definition step_main (pick : nat) (s : state) : step_result state :=
  match main s with
  | M_GoInt =>
      Step (mkState (chanInt s) (chanStr s) S_Send (senderStr s) M_GoStr
              (stdout s))
  | M_GoStr =>
      Step (mkState (chanInt s) (chanStr s) (senderInt s) S_Send (M_Loop 0)
              (stdout s))
  | M_Loop i =>
      if i <? 2
      then Step (mkState (chanInt s) (chanStr s) (senderInt s) (senderStr s)
                   (M_Select i) (stdout s))
      else Step (mkState (chanInt s) (chanStr s) (senderInt s) (senderStr s)
                   M_Done (stdout s))
  | M_Select i =>
      match choose (ready_cases s) false pick with
      | Fired 0 =>
          let '(chanIntVal, _, chanInt') :=
            fire_recv (chanInt s) (offer (senderInt s) ten) in
          Step (mkState chanInt' (chanStr s)
                  (after_recv (chanInt s) (senderInt s)) (senderStr s)
                  (M_PrintInt i chanIntVal) (stdout s))
      | Fired _ =>
          let '(chanStrVal, _, chanStr') :=
            fire_recv (chanStr s) (offer (senderStr s) hello) in
          Step (mkState (chanInt s) chanStr'
                  (senderInt s) (after_recv (chanStr s) (senderStr s))
                  (M_PrintStr i chanStrVal) (stdout s))
      | FiredDefault | Parked => Block
      end
  | M_PrintInt i chanIntVal =>
      Step (mkState (chanInt s) (chanStr s) (senderInt s) (senderStr s)
              (M_Loop (GoInt.incr i)) (stdout s ++ [IntLine chanIntVal]))
  | M_PrintStr i chanStrVal =>
      Step (mkState (chanInt s) (chanStr s) (senderInt s) (senderStr s)
              (M_Loop (GoInt.incr i)) (stdout s ++ [StrLine chanStrVal]))
  | M_Done => Block
  end.

(** [chanInt <- 10]: on a channel without room the value can only pass to
    a receiver that waits, which is [main] at its [select]. *)
Definition step_senderInt (s : state) : step_result state :=
  match senderInt s with
  | S_Send =>
      match send ten (chanInt s) with
      | SendOk chanInt' =>
          Step (mkState chanInt' (chanStr s) S_Done (senderStr s) (main s)
                  (stdout s))
      | SendFault => Crash
      | SendBlocked =>
          match main s, handoff ten (chanInt s) with
          | M_Select i, Some chanIntVal =>
              Step (mkState (chanInt s) (chanStr s) S_Done (senderStr s)
                      (M_PrintInt i chanIntVal) (stdout s))
          | _, _ => Block
          end
      end
  | _ => Block
  end.

Definition step_senderStr (s : state) : step_result state :=
  match senderStr s with
  | S_Send =>
      match send hello (chanStr s) with
      | SendOk chanStr' =>
          Step (mkState (chanInt s) chanStr' (senderInt s) S_Done (main s)
                  (stdout s))
      | SendFault => Crash
      | SendBlocked =>
          match main s, handoff hello (chanStr s) with
          | M_Select i, Some chanStrVal =>
              Step (mkState (chanInt s) (chanStr s) (senderInt s) S_Done
                      (M_PrintStr i chanStrVal) (stdout s))
          | _, _ => Block
          end
      end
  | _ => Block
  end.

Definition step (g : goroutine) (s : state) : step_result state :=
  match g with
  | Main pick => step_main pick s
  | SenderInt => step_senderInt s
  | SenderStr => step_senderStr s
  end.

(** *** The invariant *)

(** The line a sender has caused, once its value is taken; the line
    [main] is about to print. *)
Definition sent (pc : sender_pc) (l : line) : list line :=
  match pc with
  | S_Done => [l]
  | _ => []
  end.

Definition in_hand (s : state) : list line :=
  match main s with
  | M_PrintInt _ v => [IntLine v]
  | M_PrintStr _ v => [StrLine v]
  | _ => []
  end.

Definition started (pc : sender_pc) : Prop := pc <> S_NotStarted.

(** Where [main] stands: the loop counter is the number of lines
    printed. *)
Definition main_ok (s : state) : Prop :=
  let got := Z.of_nat (length (stdout s)) in
  match main s with
  | M_GoInt => senderInt s = S_NotStarted /\ senderStr s = S_NotStarted
  | M_GoStr => senderInt s = S_Send /\ senderStr s = S_NotStarted
  | M_Loop i => 0 <= i <= 2 /\ got = i /\
                started (senderInt s) /\ started (senderStr s)
  | M_Select i | M_PrintInt i _ | M_PrintStr i _ =>
      0 <= i < 2 /\ got = i /\ started (senderInt s) /\ started (senderStr s)
  | M_Done => got = 2 /\ started (senderInt s) /\ started (senderStr s)
  end.

Record Inv (s : state) : Prop := mkInv {
  (** the channels are as they were made: nothing is buffered *)
  inv_int : chanInt s = make 0;
  inv_str : chanStr s = make 0;
  (** the lines printed, with the one in hand, are those of the senders
      that have returned *)
  inv_lines :
    stdout s ++ in_hand s
    ≡ₚ sent (senderInt s) (IntLine ten) ++ sent (senderStr s) (StrLine hello);
  inv_main : main_ok s
}.

(** *** The steps left *)

Definition main_steps (m : main_pc) : nat :=
  match m with
  | M_GoInt => 9
  | M_GoStr => 8
  | M_Loop i => 3 * Z.to_nat (2 - i) + 1
  | M_Select i => 3 * Z.to_nat (2 - i)
  | M_PrintInt i _ | M_PrintStr i _ => 3 * Z.to_nat (2 - i) - 1
  | M_Done => 0
  end.

Definition measure (s : state) : nat := main_steps (main s).

(** The value passes from a sender that waits to [main] at its [select]. *)
Definition int_passes (s : state) (i : Z) : state :=
  mkState (make 0) (make 0) S_Done (senderStr s) (M_PrintInt i ten) (stdout s).

Definition str_passes (s : state) (i : Z) : state :=
  mkState (make 0) (make 0) (senderInt s) S_Done (M_PrintStr i hello) (stdout s).

(** *** What a step can be *)

Lemma ready_unbuffered {T : Type} `{ZeroValue T} (pc : sender_pc) (v : T) :
  ready (RecvCase (make 0) (offer pc v)) =
  match pc with S_Send => true | _ => false end.
Proof. now destruct pc. Qed.

Lemma choose_two (pick : nat) :
  choose [0%nat; 1%nat] false pick = Fired 0 \/
  choose [0%nat; 1%nat] false pick = Fired 1.
Proof.
  unfold choose.
  match goal with |- context [nth ?k _ _] => generalize k end.
  intros [|[|[|k]]]; simpl; auto.
Qed.

Lemma choose_one (i pick : nat) : choose [i] false pick = Fired i.
Proof.
  unfold choose.
  match goal with |- context [nth ?k _ _] => generalize k end.
  intros [|[|k]]; reflexivity.
Qed.

Lemma select_step_inv pick s i s' :
  chanInt s = make 0 -> chanStr s = make 0 -> main s = M_Select i ->
  step_main pick s = Step s' ->
  (senderInt s = S_Send /\ s' = int_passes s i) \/
  (senderStr s = S_Send /\ s' = str_passes s i).
Proof.
  intros Hi Hs Hm. unfold step_main, ready_cases, int_passes, str_passes.
  rewrite Hm, Hi, Hs, !ready_unbuffered.
  destruct (senderInt s) eqn:Ei, (senderStr s) eqn:Es; cbn [app];
    rewrite ?choose_one;
    try (destruct (choose_two pick) as [Hc|Hc]; rewrite Hc);
    simpl; try discriminate; intros [= <-]; auto.
Qed.

Lemma senderInt_step_inv s s' :
  chanInt s = make 0 -> chanStr s = make 0 ->
  step_senderInt s = Step s' ->
  senderInt s = S_Send /\ exists i, main s = M_Select i /\ s' = int_passes s i.
Proof.
  intros Hi Hs. unfold step_senderInt, int_passes. rewrite Hi, Hs.
  destruct (senderInt s); try discriminate. simpl.
  destruct (main s) as [| |i|i|i v|i v|]; try discriminate.
  intros [= <-]. eauto.
Qed.

Lemma senderStr_step_inv s s' :
  chanInt s = make 0 -> chanStr s = make 0 ->
  step_senderStr s = Step s' ->
  senderStr s = S_Send /\ exists i, main s = M_Select i /\ s' = str_passes s i.
Proof.
  intros Hi Hs. unfold step_senderStr, str_passes. rewrite Hi, Hs.
  destruct (senderStr s); try discriminate. simpl.
  destruct (main s) as [| |i|i|i v|i v|]; try discriminate.
  intros [= <-]. eauto.
Qed.

(** *** The invariant is kept *)

Lemma select_Inv_init : Inv init.
Proof. split; try reflexivity. unfold main_ok. simpl. auto. Qed.

Lemma incr_loop i : 0 <= i < 2 -> GoInt.incr i = i + 1.
Proof.
  intros Hi. apply GoInt.incr_small.
  unfold GoInt.min_int, GoInt.max_int. lia.
Qed.

Lemma Inv_int_passes s i :
  Inv s -> main s = M_Select i -> senderInt s = S_Send -> Inv (int_passes s i).
Proof.
  intros [Hi Hs Hl Hm] Em Ei. unfold main_ok, in_hand in *.
  rewrite Em, Ei in *. simpl in *.
  split; unfold main_ok, in_hand, started; simpl; auto.
  - rewrite app_nil_r in Hl. rewrite Hl. solve_Permutation.
  - destruct Hm as (? & ? & ? & ?).
    repeat split; try assumption; try lia; discriminate.
Qed.

Lemma Inv_str_passes s i :
  Inv s -> main s = M_Select i -> senderStr s = S_Send -> Inv (str_passes s i).
Proof.
  intros [Hi Hs Hl Hm] Em Es. unfold main_ok, in_hand in *.
  rewrite Em, Es in *. simpl in *.
  split; unfold main_ok, in_hand, started; simpl; auto.
  - rewrite !app_nil_r in Hl. rewrite Hl. solve_Permutation.
  - destruct Hm as (? & ? & ? & ?).
    repeat split; try assumption; try lia; discriminate.
Qed.

Lemma select_Inv_step g s s' : Inv s -> step g s = Step s' -> Inv s'.
Proof.
  intros Hinv Hstep. destruct g as [pick| |]; simpl in Hstep.
  - destruct (main s) as [| |i|i|i v|i v|] eqn:Em.
    4: { destruct (select_step_inv pick s i s' (inv_int _ Hinv)
                     (inv_str _ Hinv) Em Hstep) as [[E ->]|[E ->]];
           [now apply Inv_int_passes|now apply Inv_str_passes]. }
    all: destruct Hinv as [Hi Hs Hl Hm]; unfold main_ok, in_hand in *;
      unfold step_main in Hstep; rewrite Em in *; simpl in *.
    + injection Hstep as <-. destruct Hm as [Ei Es]. rewrite Ei in Hl.
      split; unfold main_ok, in_hand; simpl; auto.
    + injection Hstep as <-. destruct Hm as [Ei Es]. rewrite Ei, Es in Hl.
      pose proof (Permutation_length Hl) as Hlen.
      rewrite length_app in Hlen. simpl in Hlen.
      split; unfold main_ok, in_hand, started; simpl; auto.
      * now rewrite Ei.
      * rewrite Ei. repeat split; (lia || discriminate).
    + destruct (Z.ltb_spec i 2); injection Hstep as <-;
        split; unfold main_ok, in_hand; simpl; auto.
      * intuition lia.
      * intuition lia.
    + injection Hstep as <-. destruct Hm as (Hr & Hgot & Hsi & Hss).
      rewrite incr_loop by lia.
      split; unfold main_ok, in_hand; simpl; auto.
      * now rewrite app_nil_r.
      * rewrite length_app. simpl. intuition lia.
    + injection Hstep as <-. destruct Hm as (Hr & Hgot & Hsi & Hss).
      rewrite incr_loop by lia.
      split; unfold main_ok, in_hand; simpl; auto.
      * now rewrite app_nil_r.
      * rewrite length_app. simpl. intuition lia.
    + discriminate.
  - apply senderInt_step_inv in Hstep as (E & i & Em & ->);
      [now apply Inv_int_passes|apply (inv_int _ Hinv)|apply (inv_str _ Hinv)].
  - apply senderStr_step_inv in Hstep as (E & i & Em & ->);
      [now apply Inv_str_passes|apply (inv_int _ Hinv)|apply (inv_str _ Hinv)].
Qed.

(** *** No fault, termination, no deadlock *)

Lemma select_step_no_crash g s : Inv s -> step g s <> Crash.
Proof.
  intros [Hi Hs _ _]. destruct g as [pick| |]; simpl.
  - unfold step_main. destruct (main s); try discriminate.
    + now destruct (_ <? _).
    + destruct (choose _ _ _) as [[|k]| |]; try discriminate.
      * now destruct (fire_recv _ _) as [[? ?] ?].
      * now destruct (fire_recv _ _) as [[? ?] ?].
  - unfold step_senderInt. rewrite Hi.
    destruct (senderInt s); try discriminate. simpl.
    now destruct (main s).
  - unfold step_senderStr. rewrite Hs.
    destruct (senderStr s); try discriminate. simpl.
    now destruct (main s).
Qed.

Lemma select_measure_step g s s' :
  Inv s -> step g s = Step s' -> (measure s' < measure s)%nat.
Proof.
  intros Hinv Hstep.
  assert (Hpass : forall i, main s = M_Select i -> 0 <= i < 2).
  { intros i Em. pose proof (inv_main _ Hinv) as Hm.
    unfold main_ok in Hm. rewrite Em in Hm. tauto. }
  unfold measure. destruct g as [pick| |]; simpl in Hstep.
  - destruct (main s) as [| |i|i|i v|i v|] eqn:Em.
    4: { specialize (Hpass i eq_refl).
         destruct (select_step_inv pick s i s' (inv_int _ Hinv)
                     (inv_str _ Hinv) Em Hstep) as [[E ->]|[E ->]];
           simpl; lia. }
    all: destruct Hinv as [Hi Hs Hl Hm]; unfold main_ok in Hm;
      unfold step_main in Hstep; rewrite Em in *; simpl in *.
    + injection Hstep as <-. simpl. lia.
    + injection Hstep as <-. simpl. lia.
    + destruct (Z.ltb_spec i 2); injection Hstep as <-; simpl; lia.
    + injection Hstep as <-. simpl. rewrite incr_loop by lia. lia.
    + injection Hstep as <-. simpl. rewrite incr_loop by lia. lia.
    + discriminate.
  - apply senderInt_step_inv in Hstep as (E & i & Em & ->);
      [|apply (inv_int _ Hinv)|apply (inv_str _ Hinv)].
    specialize (Hpass i Em). rewrite Em. simpl. lia.
  - apply senderStr_step_inv in Hstep as (E & i & Em & ->);
      [|apply (inv_int _ Hinv)|apply (inv_str _ Hinv)].
    specialize (Hpass i Em). rewrite Em. simpl. lia.
Qed.

(** Until [main] returns, some goroutine can move: at the [select], a
    sender still waits. *)
Lemma select_progress s : Inv s -> main s <> M_Done -> can_move step s.
Proof.
  intros [Hi Hs Hl Hm] Hnd. unfold main_ok, in_hand in *.
  destruct (main s) as [| |i|i|i v|i v|] eqn:Em; try congruence.
  - exists (Main 0). simpl. unfold step_main. rewrite Em. eauto.
  - exists (Main 0). simpl. unfold step_main. rewrite Em. eauto.
  - exists (Main 0). simpl. unfold step_main. rewrite Em.
    destruct (i <? 2); eauto.
  - destruct Hm as (Hr & Hgot & Hsi & Hss).
    apply Permutation_length in Hl.
    rewrite !length_app in Hl. simpl in Hl.
    destruct (senderInt s) eqn:Ei; [now destruct Hsi| |].
    + exists SenderInt. simpl. unfold step_senderInt.
      rewrite Ei, Hi, Em. simpl. eauto.
    + destruct (senderStr s) eqn:Es; [now destruct Hss| |simpl in Hl; lia].
      exists SenderStr. simpl. unfold step_senderStr.
      rewrite Es, Hs, Em. simpl. eauto.
  - exists (Main 0). simpl. unfold step_main. rewrite Em. eauto.
  - exists (Main 0). simpl. unfold step_main. rewrite Em. eauto.
Qed.

End Program.

(** X10: the [select] loop of the channels lesson, with two senders on two
    unbuffered channels.  Whatever the schedule and whatever the runtime
    draws at the [select], the program does not fault; when [main] has
    returned it has printed the two values, each once, in one order or the
    other; until then some goroutine can move (the [select], which has no
    default, does not block for ever); no run is longer than 9 steps; every
    run can be carried on until [main] returns; and both orders occur. *)
Theorem select_loop_receives_both (ten : Z) (hello : string)
    (sched : list goroutine) :
  run (step ten hello) sched init <> Crash /\
  (forall s, run (step ten hello) sched init = Step s ->
     (main s = M_Done -> stdout s ≡ₚ [IntLine ten; StrLine hello]) /\
     (main s <> M_Done -> can_move (step ten hello) s) /\
     (length sched <= 9)%nat /\
     (exists rest s', run (step ten hello) (sched ++ rest) init = Step s' /\
                      main s' = M_Done)) /\
  (exists first s, run (step ten hello) first init = Step s /\
     main s = M_Done /\ stdout s = [IntLine ten; StrLine hello]) /\
  (exists second s, run (step ten hello) second init = Step s /\
     main s = M_Done /\ stdout s = [StrLine hello; IntLine ten]).
Proof.
  split; [|split; [|split]].
  - apply (run_no_crash _ (Inv ten hello)).
    + apply select_Inv_step.
    + intros g s. apply select_step_no_crash.
    + apply select_Inv_init.
  - intros s Hrun.
    assert (Hinv : Inv ten hello s).
    { eapply run_invariant;
        [apply select_Inv_step|apply select_Inv_init|exact Hrun]. }
    split; [|split; [|split]].
    + intros Hdone. destruct Hinv as [_ _ Hl Hm].
      unfold main_ok, in_hand in *. rewrite Hdone in *.
      destruct Hm as (Hgot & Hsi & Hss). rewrite app_nil_r in Hl.
      pose proof (Permutation_length Hl) as Hlen. rewrite length_app in Hlen.
      destruct (senderInt s), (senderStr s); simpl in *; try lia.
      exact Hl.
    + intros Hm. now apply select_progress.
    + pose proof (run_bounded _ (Inv ten hello) (select_Inv_step ten hello)
                    measure sched _ _ (select_measure_step ten hello)
                    (select_Inv_init ten hello) Hrun) as Hb.
      change (measure init) with 9%nat in Hb. lia.
    + destruct (run_completes _ (Inv ten hello) (select_Inv_step ten hello)
                  measure (fun s => main s = M_Done))
        with (s := s) as (rest & s' & Hrest & Hdone).
      * intros s0. destruct (main s0); (now left) || (right; discriminate).
      * apply select_measure_step.
      * intros s0. apply select_progress.
      * exact Hinv.
      * exists rest, s'. rewrite run_app, Hrun. auto.
  - exists [Main 0; Main 0; Main 0; Main 0; Main 0; Main 0; Main 0; Main 0;
            Main 0]%nat.
    eexists. split; [vm_compute; reflexivity|]. split; reflexivity.
  - exists [Main 0; Main 0; Main 0; Main 1; Main 0; Main 0; Main 0; Main 0;
            Main 0]%nat.
    eexists. split; [vm_compute; reflexivity|]. split; reflexivity.
Qed.

(** The run of the lesson in which the value of [chanInt] comes first, and
    one in which a sender, given the processor while [main] waits at the
    [select], hands its value over. *)
Example select_loop_run :
  run (step 10 "hello")
    [Main 0; Main 0; Main 0; Main 0; Main 0; Main 0; Main 0; Main 0; Main 0]%nat
    init
  = Step (mkState (make 0) (make 0) S_Done S_Done M_Done
            [IntLine 10; StrLine "hello"]) /\
  run (step 10 "hello")
    [Main 7; Main 7; Main 7; SenderStr; Main 7; Main 7; SenderInt; Main 7;
     Main 7]%nat
    init
  = Step (mkState (make 0) (make 0) S_Done S_Done M_Done
            [StrLine "hello"; IntLine 10]).
Proof. split; vm_compute; reflexivity. Qed.

End SelectLoop.

(** ** Lists of goroutines *)

Module Pool.

Section Pool.
Context {A : Type}.

(** The sum of a weight over a list of goroutines. *)
Definition total (f : A -> nat) (l : list A) : nat := sum_list_with f l.

(** The values a list of goroutines holds, each goroutine giving a few. *)
Definition gather {B : Type} (f : A -> list B) (l : list A) : list B :=
  concat (f <$> l).

Lemma total_app f l k : total f (l ++ k) = (total f l + total f k)%nat.
Proof. apply sum_list_with_app. Qed.

Lemma total_insert f l i a b :
  l !! i = Some a ->
  (total f (<[i:=b]> l) + f a = total f l + f b)%nat.
Proof.
  revert i. induction l as [|x l IH]; intros [|i] Hl; try discriminate.
  - injection Hl as ->. unfold total. simpl. lia.
  - simpl in Hl. specialize (IH i Hl). unfold total in *. simpl. lia.
Qed.

Lemma gather_cons {B} (f : A -> list B) a l :
  gather f (a :: l) = f a ++ gather f l.
Proof. reflexivity. Qed.

Lemma gather_app {B} (f : A -> list B) l k :
  gather f (l ++ k) = gather f l ++ gather f k.
Proof. unfold gather. now rewrite fmap_app, concat_app. Qed.

Lemma gather_insert {B} (f : A -> list B) l i a b :
  l !! i = Some a ->
  gather f (<[i:=b]> l) ++ f a ≡ₚ gather f l ++ f b.
Proof.
  revert i. induction l as [|x l IH]; intros [|i] Hl; try discriminate.
  - injection Hl as ->. cbn [insert list_insert]. rewrite !gather_cons.
    rewrite <- !app_assoc.
    etransitivity; [apply Permutation_app_comm|].
    rewrite <- app_assoc. apply Permutation_app_swap_app.
  - simpl in Hl. specialize (IH i Hl).
    cbn [insert list_insert]. rewrite !gather_cons.
    rewrite <- !app_assoc. now apply Permutation_app_head.
Qed.

Lemma gather_nil {B} (f : A -> list B) l :
  Forall (fun a => f a = []) l -> gather f l = [].
Proof.
  induction 1 as [|a l Ha _ IH]; [reflexivity|].
  now rewrite gather_cons, Ha, IH.
Qed.

Lemma gather_length {B} (f : A -> list B) l n :
  Forall (fun a => length (f a) = n) l ->
  length (gather f l) = (n * length l)%nat.
Proof.
  induction 1 as [|a l Ha _ IH]; [simpl; lia|].
  rewrite gather_cons, length_app, Ha, IH. simpl. lia.
Qed.

(** Weights that are 0 or 1 count the goroutines of a kind. *)
Lemma total_le (f : A -> nat) l :
  (forall a, (f a <= 1)%nat) -> (total f l <= length l)%nat.
Proof.
  intros Hf. induction l as [|a l IH]; [reflexivity|].
  unfold total in *. simpl. specialize (Hf a). lia.
Qed.

Lemma total_full (f : A -> nat) l :
  (forall a, (f a <= 1)%nat) -> total f l = length l ->
  Forall (fun a => f a = 1%nat) l.
Proof.
  intros Hf. induction l as [|a l IH]; intros Hl; [constructor|].
  pose proof (total_le f l Hf) as Hle. pose proof (Hf a) as Ha.
  unfold total in *. simpl in Hl.
  constructor; [lia|apply IH; lia].
Qed.

Lemma total_Forall (f : A -> nat) l k :
  Forall (fun a => f a = k) l -> total f l = (k * length l)%nat.
Proof.
  induction 1 as [|a l Ha _ IH]; [simpl; lia|].
  unfold total in *. simpl. rewrite Ha, IH. lia.
Qed.

Lemma total_lt (f : A -> nat) l i a :
  (forall a, (f a <= 1)%nat) -> l !! i = Some a -> f a = 0%nat ->
  (total f l < length l)%nat.
Proof.
  intros Hf. revert i. induction l as [|x l IH]; intros [|i] Hl Ha;
    try discriminate.
  - injection Hl as ->. pose proof (total_le f l Hf).
    unfold total in *. simpl. lia.
  - simpl in Hl. specialize (IH i Hl Ha). pose proof (Hf x).
    unfold total in *. simpl. lia.
Qed.

(** A pool of [m] goroutines of which the first [j] are in one state, the
    next one in a state of its own, and the others in a third state. *)
Lemma segments_start (j m : nat) (a b : A) :
  (j < m)%nat ->
  replicate j a ++ replicate (m - j) b
  = replicate j a ++ b :: replicate (m - S j) b.
Proof.
  intros Hj. replace (m - j)%nat with (S (m - S j)) by lia. reflexivity.
Qed.

Lemma segments_lookup (j : nat) (a x : A) (rest : list A) :
  (replicate j a ++ x :: rest) !! j = Some x.
Proof.
  rewrite lookup_app_r by (rewrite length_replicate; lia).
  now rewrite length_replicate, Nat.sub_diag.
Qed.

Lemma segments_insert (j : nat) (a x y : A) (rest : list A) :
  <[j := y]> (replicate j a ++ x :: rest) = replicate j a ++ y :: rest.
Proof.
  rewrite insert_app_r_alt by (rewrite length_replicate; lia).
  now rewrite length_replicate, Nat.sub_diag.
Qed.

Lemma segments_end (j : nat) (a : A) (rest : list A) :
  replicate j a ++ a :: rest = replicate (S j) a ++ rest.
Proof.
  change (a :: rest) with ([a] ++ rest). rewrite app_assoc.
  f_equal. now rewrite <- replicate_S_end.
Qed.

(** Either some goroutine of the list satisfies a decidable property, or
    none does. *)
Lemma find_or_none (P : A -> bool) l :
  (exists i a, l !! i = Some a /\ P a = true) \/
  Forall (fun a => P a = false) l.
Proof.
  induction l as [|x l [(i & a & Hl & Ha)|IH]].
  - right. constructor.
  - left. exists (S i), a. auto.
  - destruct (P x) eqn:Hx.
    + left. exists 0%nat, x. auto.
    + right. now constructor.
Qed.

End Pool.
End Pool.

(** ** The worker pool of channels.md *)

Module WorkerPool.
Import Channel Sched.

(** <<
    func worker(id int, jobs <-chan int, results chan<- int) {
        for j := range jobs {
            fmt.Println("Worker", id, "processing job", j)
            results <- j * 2
        }
    }

    func main() {
        jobs := make(chan int, 5)
        results := make(chan int, 5)

        for w := 1; w <= 3; w++ {
            go worker(w, jobs, results)
        }

        for j := 1; j <= 5; j++ {
            jobs <- j
        }
        close(jobs)

        for r := 1; r <= 5; r++ {
            fmt.Println(<-results)
        }
    }
>> *)

Definition jobs_cap : nat := 5.
Definition results_cap : nat := 5.
Definition num_workers : Z := 3.

(** A worker: at the receive of [range jobs], at its [fmt.Println], at
    [results <- j * 2], returned. *)
Inductive worker_pc : Type :=
| W_Range
| W_Println (j : Z)
| W_Send (j : Z)
| W_Done.

Record worker : Type := mkWorker { id : Z; pc : worker_pc }.

(** [main]: in the loop that starts the workers, in the loop that feeds
    the jobs, at [close(jobs)], at the receive [<-results] of the last
    loop, at its [fmt.Println], returned. *)
Inductive main_pc : Type :=
| M_Spawn (w : Z)
| M_Feed (j : Z)
| M_Close
| M_Collect (r : Z)
| M_Println (r v : Z)
| M_Done.

(** The lines on standard output. *)
Inductive line : Type :=
| WorkerLine (id j : Z)
| ResultLine (v : Z).

Record state : Type := mkState {
  jobs : chan Z;
  results : chan Z;
  main : main_pc;
  workers : list worker;
  stdout : list line
}.

Inductive goroutine : Type := Main | Worker (i : nat).

Definition init : state :=
  mkState (make jobs_cap) (make results_cap) (M_Spawn 1) [] [].

(** A schedule of the pool with 14 jobs: [main] starts the workers and
    fills the input channel; the first worker does five jobs while [main]
    feeds five more; every worker takes a job and announces it; [main]
    feeds three more. *)
Definition stuck_schedule : list goroutine :=
  replicate 4 Main ++ replicate 5 Main ++
  concat (replicate 5 [Worker 0; Worker 0; Worker 0; Main]) ++
  [Worker 0; Worker 1; Worker 2; Worker 0; Worker 1; Worker 2] ++
  replicate 3 Main.

Section Program.
(** The number of jobs, 5 in channels.md (the bound of the second and of
    the third loop). *)
Variable njobs : Z.

Definition step_main (s : state) : step_result state :=
  match main s with
  | M_Spawn w =>
      if w <=? num_workers
      then Step (mkState (jobs s) (results s) (M_Spawn (GoInt.incr w))
                   (workers s ++ [mkWorker w W_Range]) (stdout s))
      else Step (mkState (jobs s) (results s) (M_Feed 1) (workers s) (stdout s))
  | M_Feed j =>
      if j <=? njobs
      then match send j (jobs s) with
           | SendOk jobs' =>
               Step (mkState jobs' (results s) (M_Feed (GoInt.incr j))
                       (workers s) (stdout s))
           | SendBlocked => Block
           | SendFault => Crash
           end
      else Step (mkState (jobs s) (results s) M_Close (workers s) (stdout s))
  | M_Close =>
      match close (jobs s) with
      | CloseOk jobs' =>
          Step (mkState jobs' (results s) (M_Collect 1) (workers s) (stdout s))
      | CloseFault => Crash
      end
  | M_Collect r =>
      if r <=? njobs
      then match recv (results s) with
           | RecvOk v _ results' =>
               Step (mkState (jobs s) results' (M_Println r v)
                       (workers s) (stdout s))
           | RecvBlocked => Block
           end
      else Step (mkState (jobs s) (results s) M_Done (workers s) (stdout s))
  | M_Println r v =>
      Step (mkState (jobs s) (results s) (M_Collect (GoInt.incr r))
              (workers s) (stdout s ++ [ResultLine v]))
  | M_Done => Block
  end.

(** Both channels are buffered: a send that finds the buffer full finds it
    non-empty, so no receiver waits for a direct handoff, and the sender
    blocks. *)
Definition step_worker (i : nat) (s : state) : step_result state :=
  match workers s !! i with
  | None => Block
  | Some w =>
      match pc w with
      | W_Range =>
          match recv (jobs s) with
          | RecvOk j true jobs' =>
              Step (mkState jobs' (results s) (main s)
                      (<[i := mkWorker (id w) (W_Println j)]> (workers s))
                      (stdout s))
          | RecvOk _ false jobs' =>
              Step (mkState jobs' (results s) (main s)
                      (<[i := mkWorker (id w) W_Done]> (workers s))
                      (stdout s))
          | RecvBlocked => Block
          end
      | W_Println j =>
          Step (mkState (jobs s) (results s) (main s)
                  (<[i := mkWorker (id w) (W_Send j)]> (workers s))
                  (stdout s ++ [WorkerLine (id w) j]))
      | W_Send j =>
          match send (GoInt.mul j 2) (results s) with
          | SendOk results' =>
              Step (mkState (jobs s) results' (main s)
                      (<[i := mkWorker (id w) W_Range]> (workers s))
                      (stdout s))
          | SendBlocked => Block
          | SendFault => Crash
          end
      | W_Done => Block
      end
  end.

Definition step (g : goroutine) (s : state) : step_result state :=
  match g with
  | Main => step_main s
  | Worker i => step_worker i s
  end.

(** The results [main] has printed, in the order it received them. *)
Fixpoint printed_results (out : list line) : list Z :=
  match out with
  | [] => []
  | ResultLine v :: out => v :: printed_results out
  | WorkerLine _ _ :: out => printed_results out
  end.

(** *** The invariant *)

(** [j * 2] on [int]. *)
Definition double (j : Z) : Z := GoInt.mul j 2.

(** The jobs [main] has still to feed, the job a worker is busy with, and
    the result [main] has received and not printed yet. *)
Definition todo (s : state) : list Z :=
  match main s with
  | M_Spawn _ => seqZ 1 njobs
  | M_Feed j => seqZ j (njobs + 1 - j)
  | _ => []
  end.

Definition held_by (w : worker) : list Z :=
  match pc w with
  | W_Println j | W_Send j => [j]
  | _ => []
  end.

Definition in_hand (s : state) : list Z :=
  match main s with
  | M_Println _ v => [v]
  | _ => []
  end.

Definition feeding_over (s : state) : Prop :=
  match main s with
  | M_Collect _ | M_Println _ _ | M_Done => True
  | _ => False
  end.

(** Where the loop counters of [main] stand. *)
Definition main_ok (s : state) : Prop :=
  let got := Z.of_nat (length (printed_results (stdout s))) in
  match main s with
  | M_Spawn w => 1 <= w <= num_workers + 1 /\
                 Z.of_nat (length (workers s)) = w - 1 /\ got = 0
  | M_Feed j => 1 <= j <= Z.max njobs 0 + 1 /\ got = 0
  | M_Close => got = 0
  | M_Collect r => 1 <= r <= Z.max njobs 0 + 1 /\ got = r - 1
  | M_Println r _ => 1 <= r <= njobs /\ got = r - 1
  | M_Done => got = Z.max njobs 0
  end.

Record Inv (s : state) : Prop := mkInv {
  (** every job is in one place: still to feed, in the input channel, with
      a worker, or, doubled, in the output channel, in the hand of [main]
      or printed *)
  inv_jobs :
    (double <$> todo s) ++ (double <$> buf (jobs s)) ++
    (double <$> Pool.gather held_by (workers s)) ++
    buf (results s) ++ in_hand s ++ printed_results (stdout s)
    ≡ₚ double <$> seqZ 1 njobs;
  inv_closed : closed (jobs s) = true <-> feeding_over s;
  inv_open : closed (results s) = false;
  inv_cap : cap (jobs s) = jobs_cap /\ cap (results s) = results_cap;
  inv_main : main_ok s;
  inv_workers :
    (forall w, main s <> M_Spawn w) -> length (workers s) = 3%nat;
  inv_done : forall i w,
    workers s !! i = Some w -> pc w = W_Done ->
    closed (jobs s) = true /\ buf (jobs s) = []
}.

(** *** The announcements *)

(** The jobs the workers have announced on standard output, in order. *)
Fixpoint announced (out : list line) : list Z :=
  match out with
  | [] => []
  | WorkerLine _ j :: out => j :: announced out
  | ResultLine _ :: out => announced out
  end.

(** The job a worker has received and not announced yet, and the job it
    has announced and whose result it has not sent yet. *)
Definition received_by (w : worker) : list Z :=
  match pc w with
  | W_Println j => [j]
  | _ => []
  end.

Definition announced_by (w : worker) : list Z :=
  match pc w with
  | W_Send j => [j]
  | _ => []
  end.

(** A line of a worker names one of the workers [main] starts. *)
Definition line_ok (l : line) : Prop :=
  match l with
  | WorkerLine id _ => 1 <= id <= num_workers
  | ResultLine _ => True
  end.

(** Every job is still to be taken by a worker, or with a worker that has
    not announced it yet, or announced; the results sent so far are those
    of announced jobs. *)
Record Announced (s : state) : Prop := mkAnnounced {
  ann_jobs :
    todo s ++ buf (jobs s) ++ Pool.gather received_by (workers s) ++
    announced (stdout s) ≡ₚ seqZ 1 njobs;
  ann_results :
    (double <$> Pool.gather announced_by (workers s)) ++ buf (results s) ++
    in_hand s ++ printed_results (stdout s)
    ≡ₚ double <$> announced (stdout s);
  ann_ids : Forall (fun w => 1 <= id w <= num_workers) (workers s);
  ann_lines : Forall line_ok (stdout s);
  (** a result on standard output comes after the line that announces
      its job *)
  ann_order : forall out v later,
    stdout s = out ++ ResultLine v :: later -> v ∈ double <$> announced out
}.

(** *** More jobs than the pool can hold *)

(** [main] is still starting the workers or feeding one of the first 14
    jobs. *)
Definition feeding (s : state) : bool :=
  match main s with
  | M_Spawn _ => true
  | M_Feed j => j <=? 14
  | _ => false
  end.

(** The run of a schedule during which [main] is still feeding. *)
Fixpoint run_feeding (sched : list goroutine) (s : state) : option state :=
  match sched with
  | [] => Some s
  | g :: sched =>
      if feeding s
      then match step g s with
           | Step s' => run_feeding sched s'
           | _ => None
           end
      else None
  end.

(** *** The steps left *)

Definition worker_steps (w : worker) : nat :=
  match pc w with
  | W_Range => 1
  | W_Println _ => 5
  | W_Send _ => 4
  | W_Done => 0
  end.

Definition main_steps (m : main_pc) : nat :=
  match m with
  | M_Spawn w => 2 * Z.to_nat (num_workers + 1 - w) + 4
  | M_Feed _ => 3
  | M_Close => 2
  | M_Collect _ => 1
  | M_Println _ _ => 2
  | M_Done => 0
  end.

(** Every step lowers this measure. *)
Definition measure (s : state) : nat :=
  6 * length (todo s) + 5 * length (buf (jobs s)) +
  Pool.total worker_steps (workers s) + 2 * length (buf (results s)) +
  main_steps (main s).

(** A worker that can move, whatever its position in the pool. *)
Definition worker_ready (s : state) (w : worker) : bool :=
  match pc w with
  | W_Range => match recv (jobs s) with RecvBlocked => false | _ => true end
  | W_Println _ => true
  | W_Send j =>
      match send (GoInt.mul j 2) (results s) with SendOk _ => true | _ => false end
  | W_Done => false
  end.

(** *** What a step can be *)

Lemma pool_step_main_inv s s' :
  step_main s = Step s' ->
  (exists w, main s = M_Spawn w /\ w <= num_workers /\
     s' = mkState (jobs s) (results s) (M_Spawn (GoInt.incr w))
            (workers s ++ [mkWorker w W_Range]) (stdout s)) \/
  (exists w, main s = M_Spawn w /\ num_workers < w /\
     s' = mkState (jobs s) (results s) (M_Feed 1) (workers s) (stdout s)) \/
  (exists j jobs', main s = M_Feed j /\ j <= njobs /\
     send j (jobs s) = SendOk jobs' /\
     s' = mkState jobs' (results s) (M_Feed (GoInt.incr j))
            (workers s) (stdout s)) \/
  (exists j, main s = M_Feed j /\ njobs < j /\
     s' = mkState (jobs s) (results s) M_Close (workers s) (stdout s)) \/
  (exists jobs', main s = M_Close /\ close (jobs s) = CloseOk jobs' /\
     s' = mkState jobs' (results s) (M_Collect 1) (workers s) (stdout s)) \/
  (exists r v ok results', main s = M_Collect r /\ r <= njobs /\
     recv (results s) = RecvOk v ok results' /\
     s' = mkState (jobs s) results' (M_Println r v) (workers s) (stdout s)) \/
  (exists r, main s = M_Collect r /\ njobs < r /\
     s' = mkState (jobs s) (results s) M_Done (workers s) (stdout s)) \/
  (exists r v, main s = M_Println r v /\
     s' = mkState (jobs s) (results s) (M_Collect (GoInt.incr r))
            (workers s) (stdout s ++ [ResultLine v])).
Proof.
  unfold step_main. intros Hstep.
  destruct (main s) as [w|j| |r|r v|]; try discriminate.
  - destruct (Z.leb_spec w num_workers); injection Hstep as <-.
    + left. eauto.
    + right; left. eauto.
  - destruct (Z.leb_spec j njobs).
    + destruct (send j (jobs s)) as [jobs'| |] eqn:Hs; try discriminate.
      injection Hstep as <-. do 2 right; left. eauto 8.
    + injection Hstep as <-. do 3 right; left. eauto.
  - destruct (close (jobs s)) as [jobs'|] eqn:Hc; try discriminate.
    injection Hstep as <-. do 4 right; left. eauto.
  - destruct (Z.leb_spec r njobs).
    + destruct (recv (results s)) as [v ok results'|] eqn:Hr; try discriminate.
      injection Hstep as <-. do 5 right; left. eauto 10.
    + injection Hstep as <-. do 6 right; left. eauto.
  - injection Hstep as <-. do 7 right. eauto.
Qed.

Lemma pool_step_worker_inv i s s' :
  step_worker i s = Step s' ->
  exists w, workers s !! i = Some w /\
  ((exists j rest, pc w = W_Range /\ buf (jobs s) = j :: rest /\
      s' = mkState (mkChan (cap (jobs s)) rest (closed (jobs s))) (results s)
             (main s) (<[i := mkWorker (id w) (W_Println j)]> (workers s))
             (stdout s)) \/
   (pc w = W_Range /\ buf (jobs s) = [] /\ closed (jobs s) = true /\
      s' = mkState (jobs s) (results s) (main s)
             (<[i := mkWorker (id w) W_Done]> (workers s)) (stdout s)) \/
   (exists j, pc w = W_Println j /\
      s' = mkState (jobs s) (results s) (main s)
             (<[i := mkWorker (id w) (W_Send j)]> (workers s))
             (stdout s ++ [WorkerLine (id w) j])) \/
   (exists j results', pc w = W_Send j /\
      send (GoInt.mul j 2) (results s) = SendOk results' /\
      s' = mkState (jobs s) results' (main s)
             (<[i := mkWorker (id w) W_Range]> (workers s)) (stdout s))).
Proof.
  unfold step_worker, recv. intros Hstep.
  destruct (workers s !! i) as [w|]; try discriminate.
  exists w. split; [reflexivity|].
  destruct (pc w) as [|j|j|]; try discriminate.
  - destruct (buf (jobs s)) as [|j rest] eqn:Hb.
    + destruct (closed (jobs s)) eqn:Hc; try discriminate.
      right; left. now injection Hstep as <-.
    + left. exists j, rest. now injection Hstep as <-.
  - do 2 right; left. exists j. now injection Hstep as <-.
  - destruct (send _ _) as [results'| |] eqn:Hs; try discriminate.
    do 3 right. exists j, results'. now injection Hstep as <-.
Qed.

Lemma printed_results_app out out' :
  printed_results (out ++ out') = printed_results out ++ printed_results out'.
Proof.
  induction out as [|[? ?|v] out IH]; simpl; [reflexivity|exact IH|].
  now rewrite IH.
Qed.

(** *** The invariant is kept *)

Lemma pool_Inv_init : Inv init.
Proof.
  split; unfold todo, in_hand, feeding_over, main_ok; simpl.
  - now rewrite !app_nil_r.
  - split; [discriminate|intros []].
  - reflexivity.
  - split; reflexivity.
  - unfold num_workers. lia.
  - intros Hw. now destruct (Hw 1).
  - intros i w Hl. discriminate.
Qed.

Hypothesis njobs_small : njobs <= 13.

Lemma incr_counter a : 0 <= a <= 14 -> GoInt.incr a = a + 1.
Proof.
  intros Ha. apply GoInt.incr_small.
  unfold GoInt.min_int, GoInt.max_int. lia.
Qed.

Ltac inv_fields :=
  split; unfold todo, in_hand, main_ok, feeding_over; simpl.

Lemma pool_Inv_step_main s s' : Inv s -> step_main s = Step s' -> Inv s'.
Proof.
  intros [Hjobs Hcl Hop Hcap Hmain Hws Hdone] Hstep.
  unfold todo, in_hand in Hjobs. unfold main_ok in Hmain.
  unfold feeding_over in Hcl.
  destruct s as [jb rs m ws out]; simpl in *.
  apply pool_step_main_inv in Hstep
    as [(w & Hm & Hle & ->)|[(w & Hm & Hlt & ->)|
       [(j & jobs' & Hm & Hle & Hsend & ->)|[(j & Hm & Hlt & ->)|
       [(jobs' & Hm & Hclose & ->)|[(r & v & ok & results' & Hm & Hle & Hr & ->)|
       [(r & Hm & Hlt & ->)|(r & v & Hm & ->)]]]]]]];
    simpl in *; subst m; simpl in *.
  - (* go worker(w, jobs, results) *)
    destruct Hmain as (Hw & Hlen & Hgot).
    rewrite incr_counter by (unfold num_workers in *; lia).
    inv_fields; try assumption.
    + rewrite Pool.gather_app. unfold Pool.gather at 2. simpl.
      now rewrite !app_nil_r.
    + rewrite length_app. simpl. lia.
    + intros Hx. now destruct (Hx (w + 1)).
    + intros i w' Hl Hpc.
      apply lookup_app_Some in Hl as [Hl|[_ Hl]]; [eauto|].
      apply list_lookup_singleton_Some in Hl as [_ <-]. discriminate.
  - (* the workers are started *)
    destruct Hmain as (Hw & Hlen & Hgot).
    inv_fields; try assumption.
    + now replace (njobs + 1 - 1) with njobs by lia.
    + lia.
    + intros _. unfold num_workers in *. lia.
  - (* jobs <- j *)
    apply send_ok_inv in Hsend as (Hopen & Hroom & Heq). subst jobs'.
    rewrite incr_counter by lia.
    inv_fields; try assumption.
    + etransitivity; [|exact Hjobs].
      rewrite (seqZ_cons j) by lia.
      replace (Z.succ j) with (j + 1) by lia.
      replace (Z.pred (njobs + 1 - j)) with (njobs + 1 - (j + 1)) by lia.
      rewrite fmap_app, fmap_cons. simpl. solve_Permutation.
    + split; [discriminate|tauto].
    + lia.
    + intros _. apply Hws. discriminate.
    + intros i w Hl Hpc. destruct (Hdone i w Hl Hpc). congruence.
  - (* every job is fed *)
    inv_fields; try assumption.
    + now rewrite seqZ_nil in Hjobs by lia.
    + lia.
    + intros _. apply Hws. discriminate.
  - (* close(jobs) *)
    apply close_ok_inv in Hclose as (Hopen & Hclosed & Hbuf & Hcap').
    inv_fields; try assumption.
    + now rewrite Hbuf.
    + tauto.
    + split; [now rewrite Hcap'|tauto].
    + lia.
    + intros _. apply Hws. discriminate.
    + intros i w Hl Hpc. destruct (Hdone i w Hl Hpc). congruence.
  - (* <-results *)
    unfold recv in Hr. rewrite Hop in Hr.
    destruct (buf rs) as [|v0 rest] eqn:Hb; [discriminate|].
    injection Hr as <- <- <-.
    inv_fields; try assumption.
    + etransitivity; [|exact Hjobs]. solve_Permutation.
    + reflexivity.
    + lia.
    + intros _. apply Hws. discriminate.
  - (* every result is printed *)
    inv_fields; try assumption.
    + lia.
    + intros _. apply Hws. discriminate.
  - (* fmt.Println(<-results) *)
    destruct Hmain as [Hr Hlen].
    rewrite incr_counter by lia.
    inv_fields; try assumption.
    + etransitivity; [|exact Hjobs].
      rewrite printed_results_app. simpl. solve_Permutation.
    + rewrite printed_results_app, length_app. simpl. lia.
    + intros _. apply Hws. discriminate.
Qed.

Lemma pool_main_ok_same s s' :
  main s' = main s ->
  length (workers s') = length (workers s) ->
  printed_results (stdout s') = printed_results (stdout s) ->
  main_ok s -> main_ok s'.
Proof. unfold main_ok. now intros -> -> ->. Qed.

Lemma pool_Inv_step_worker i s s' : Inv s -> step_worker i s = Step s' -> Inv s'.
Proof.
  intros [Hjobs Hcl Hop Hcap Hmain Hws Hdone] Hstep.
  apply pool_step_worker_inv in Hstep as (w & Hw & Hstep).
  pose proof (fun w' => Pool.gather_insert held_by (workers s) i w w' Hw) as Hg.
  unfold todo, in_hand in Hjobs.
  destruct Hstep
    as [(j & rest & Hpc & Hb & ->)|[(Hpc & Hb & Hc & ->)|
       [(j & Hpc & ->)|(j & results' & Hpc & Hsend & ->)]]].
  - (* for j := range jobs, a job is there *)
    specialize (Hg (mkWorker (id w) (W_Println j))).
    unfold held_by at 2 4 in Hg. rewrite Hpc in Hg.
    simpl in Hg. rewrite app_nil_r in Hg.
    split; simpl; try assumption.
    + unfold todo, in_hand. simpl. rewrite Hg.
      etransitivity; [|exact Hjobs]. rewrite Hb.
      rewrite fmap_app, !fmap_cons. simpl. solve_Permutation.
    + apply (pool_main_ok_same s);
        [reflexivity|apply length_insert|reflexivity|exact Hmain].
    + rewrite length_insert. exact Hws.
    + intros i' w' Hl Hpc'.
      apply list_lookup_insert_Some in Hl as [(-> & <- & _)|[_ Hl]];
        [discriminate|].
      destruct (Hdone i' w' Hl Hpc'). congruence.
  - (* for j := range jobs, the channel is closed and drained *)
    specialize (Hg (mkWorker (id w) W_Done)).
    unfold held_by at 2 4 in Hg. rewrite Hpc in Hg.
    simpl in Hg. rewrite !app_nil_r in Hg.
    split; simpl; try assumption.
    + unfold todo, in_hand. simpl. now rewrite Hg.
    + apply (pool_main_ok_same s);
        [reflexivity|apply length_insert|reflexivity|exact Hmain].
    + rewrite length_insert. exact Hws.
    + auto.
  - (* fmt.Println("Worker", id, "processing job", j) *)
    specialize (Hg (mkWorker (id w) (W_Send j))).
    unfold held_by at 2 4 in Hg. rewrite Hpc in Hg.
    simpl in Hg. apply Permutation_app_inv_r in Hg.
    assert (Hout : printed_results (stdout s ++ [WorkerLine (id w) j]) =
                   printed_results (stdout s)).
    { rewrite printed_results_app. simpl. apply app_nil_r. }
    split; simpl; try assumption.
    + unfold todo, in_hand. simpl. now rewrite Hg, Hout.
    + apply (pool_main_ok_same s);
        [reflexivity|apply length_insert|exact Hout|exact Hmain].
    + rewrite length_insert. exact Hws.
    + intros i' w' Hl Hpc'.
      apply list_lookup_insert_Some in Hl as [(-> & <- & _)|[_ Hl]];
        [discriminate|eauto].
  - (* results <- j * 2 *)
    specialize (Hg (mkWorker (id w) W_Range)).
    unfold held_by at 2 4 in Hg. rewrite Hpc in Hg.
    simpl in Hg. rewrite app_nil_r in Hg.
    apply send_ok_inv in Hsend as (Hopen & Hroom & Heq). subst results'.
    split; simpl; try assumption.
    + unfold todo, in_hand. simpl.
      etransitivity; [|exact Hjobs]. rewrite <- Hg.
      rewrite fmap_app. simpl. fold (double j). solve_Permutation.
    + reflexivity.
    + apply (pool_main_ok_same s);
        [reflexivity|apply length_insert|reflexivity|exact Hmain].
    + rewrite length_insert. exact Hws.
    + intros i' w' Hl Hpc'.
      apply list_lookup_insert_Some in Hl as [(-> & <- & _)|[_ Hl]];
        [discriminate|eauto].
Qed.

Lemma pool_Inv_step g s s' : Inv s -> step g s = Step s' -> Inv s'.
Proof.
  destruct g; [apply pool_Inv_step_main|apply pool_Inv_step_worker].
Qed.

(** *** No fault, termination, no deadlock *)

Lemma pool_step_no_crash g s : Inv s -> step g s <> Crash.
Proof.
  intros [_ Hcl Hop _ _ _ _]. unfold feeding_over in Hcl.
  destruct g as [|i]; simpl.
  - unfold step_main.
    destruct (main s) as [w|j| |r|r v|]; try discriminate.
    + now destruct (_ <=? _).
    + destruct (_ <=? _); [|discriminate].
      unfold send. destruct (closed (jobs s)); [tauto|].
      now destruct (_ <? _)%nat.
    + unfold close. destruct (closed (jobs s)); [tauto|discriminate].
    + destruct (_ <=? _); [|discriminate].
      now destruct (recv (results s)).
  - unfold step_worker.
    destruct (workers s !! i) as [w|]; [|discriminate].
    destruct (pc w); try discriminate.
    + now destruct (recv (jobs s)) as [? [|] ?|].
    + unfold send. rewrite Hop. now destruct (_ <? _)%nat.
Qed.

Lemma pool_measure_step g s s' :
  Inv s -> step g s = Step s' -> (measure s' < measure s)%nat.
Proof.
  intros [_ _ Hop _ Hmain _ _] Hstep. unfold main_ok in Hmain.
  unfold measure, todo. destruct g as [|i]; simpl in Hstep.
  - destruct s as [jb rs m ws out]; simpl in *.
    apply pool_step_main_inv in Hstep
      as [(w & Hm & Hle & ->)|[(w & Hm & Hlt & ->)|
         [(j & jobs' & Hm & Hle & Hsend & ->)|[(j & Hm & Hlt & ->)|
         [(jobs' & Hm & Hclose & ->)|[(r & v & ok & results' & Hm & Hle & Hr & ->)|
         [(r & Hm & Hlt & ->)|(r & v & Hm & ->)]]]]]]];
      simpl in *; subst m; simpl in *.
    + rewrite incr_counter by (unfold num_workers in *; lia).
      rewrite Pool.total_app. unfold Pool.total at 2. simpl.
      unfold num_workers in *. lia.
    + replace (njobs + 1 - 1) with njobs by lia. lia.
    + apply send_ok_inv in Hsend as (_ & _ & Heq). subst jobs'. simpl.
      rewrite incr_counter by lia.
      rewrite !length_seqZ, length_app. simpl. lia.
    + lia.
    + apply close_ok_inv in Hclose as (_ & _ & -> & _). lia.
    + unfold recv in Hr. rewrite Hop in Hr.
      destruct (buf rs) as [|v0 rest]; [discriminate|].
      injection Hr as <- <- <-. simpl. lia.
    + lia.
    + lia.
  - apply pool_step_worker_inv in Hstep as (w & Hw & Hstep).
    pose proof (fun w' => Pool.total_insert worker_steps (workers s) i w w' Hw)
      as Ht.
    unfold worker_steps at 2 4 in Ht.
    destruct Hstep
      as [(j & rest & Hpc & Hb & ->)|[(Hpc & Hb & Hc & ->)|
         [(j & Hpc & ->)|(j & results' & Hpc & Hsend & ->)]]];
      simpl; rewrite Hpc in Ht.
    + specialize (Ht (mkWorker (id w) (W_Println j))). simpl in Ht.
      rewrite Hb. simpl. lia.
    + specialize (Ht (mkWorker (id w) W_Done)). simpl in Ht. lia.
    + specialize (Ht (mkWorker (id w) (W_Send j))). simpl in Ht. lia.
    + specialize (Ht (mkWorker (id w) W_Range)). simpl in Ht.
      apply send_ok_inv in Hsend as (_ & _ & Heq). subst results'. simpl.
      rewrite length_app. simpl. lia.
Qed.

Lemma worker_ready_moves s i w :
  workers s !! i = Some w -> worker_ready s w = true ->
  exists s', step_worker i s = Step s'.
Proof.
  intros Hw. unfold worker_ready, step_worker. rewrite Hw.
  destruct (pc w); try discriminate.
  - destruct (recv (jobs s)) as [? [|] ?|]; try discriminate; eauto.
  - eauto.
  - destruct (send _ _); try discriminate; eauto.
Qed.

Lemma length_jobs s :
  Inv s ->
  (length (todo s) + length (buf (jobs s)) +
   length (Pool.gather held_by (workers s)) + length (buf (results s)) +
   length (in_hand s) + length (printed_results (stdout s)))%nat
  = Z.to_nat njobs.
Proof.
  intros Hinv. pose proof (inv_jobs _ Hinv) as Hj.
  apply Permutation_length in Hj.
  rewrite !length_app, !length_fmap, length_seqZ in Hj. lia.
Qed.

(** Until [main] returns, some goroutine can move. *)
Lemma pool_progress s : Inv s -> main s <> M_Done -> can_move step s.
Proof.
  intros Hinv Hm.
  destruct (step Main s) as [s1| |] eqn:HM.
  { exists Main, s1. exact HM. }
  2: { now apply pool_step_no_crash in HM. }
  destruct (Pool.find_or_none (worker_ready s) (workers s))
    as [(i & w & Hw & Hready)|Hnone].
  { destruct (worker_ready_moves _ _ _ Hw Hready) as [s1 Hs1].
    exists (Worker i), s1. exact Hs1. }
  exfalso.
  pose proof (length_jobs _ Hinv) as Hlen.
  destruct Hinv as [_ Hcl Hop [Hcapj Hcapr] Hmain Hws Hdone].
  unfold main_ok in Hmain. unfold feeding_over in Hcl.
  unfold todo, in_hand in Hlen.
  simpl in HM. unfold step_main in HM.
  destruct (main s) as [w|j| |r|r v|] eqn:Em; try discriminate;
    try congruence.
  - now destruct (_ <=? _).
  - (* [main] waits at [jobs <- j]: the input channel is full *)
    destruct (Z.leb_spec j njobs) as [Hle|]; [|discriminate].
    destruct (send j (jobs s)) eqn:Hs; try discriminate.
    apply send_blocked_inv in Hs as [Hopen Hfull].
    assert (Hlw : length (workers s) = 3%nat) by (apply Hws; discriminate).
    assert (Hall : Forall (fun w => length (held_by w) = 1%nat /\
                                    (results_cap <= length (buf (results s)))%nat)
                     (workers s)).
    { rewrite Forall_lookup. intros i w Hw.
      rewrite Forall_lookup in Hnone. specialize (Hnone i w Hw).
      unfold worker_ready in Hnone. unfold held_by.
      destruct (pc w) eqn:Hpc; try discriminate.
      - unfold recv in Hnone.
        destruct (buf (jobs s)); [|discriminate].
        rewrite Hcapj in Hfull. unfold jobs_cap in Hfull. simpl in Hfull. lia.
      - destruct (send _ _) eqn:Hs; try discriminate.
        + apply send_blocked_inv in Hs as [_ Hs]. rewrite Hcapr in Hs. auto.
        + unfold send in Hs. rewrite Hop in Hs.
          now destruct (_ <? _)%nat.
      - destruct (Hdone i w Hw Hpc). congruence. }
    assert (Hheld : length (Pool.gather held_by (workers s)) = 3%nat).
    { rewrite (Pool.gather_length _ _ 1%nat), Hlw; [reflexivity|].
      eapply Forall_impl; [exact Hall|]. now intros ? [? _]. }
    assert (Hres : (results_cap <= length (buf (results s)))%nat).
    { destruct (workers s) as [|w0 ?]; [discriminate|].
      now apply Forall_cons in Hall as [[_ ?] _]. }
    rewrite length_seqZ in Hlen. rewrite Hcapj in Hfull.
    unfold jobs_cap, results_cap in *. lia.
  - unfold close in HM. now destruct (closed (jobs s)).
  - (* [main] waits at [<-results]: the output channel is empty *)
    destruct (Z.leb_spec r njobs) as [Hle|]; [|discriminate].
    destruct (recv (results s)) eqn:Hr; try discriminate.
    apply recv_blocked_inv in Hr as [_ Hempty].
    assert (Hclosed : closed (jobs s) = true) by tauto.
    assert (Hlw : length (workers s) = 3%nat) by (apply Hws; discriminate).
    assert (Hall : Forall (fun w => pc w = W_Done) (workers s)).
    { rewrite Forall_lookup. intros i w Hw.
      rewrite Forall_lookup in Hnone. specialize (Hnone i w Hw).
      unfold worker_ready in Hnone.
      destruct (pc w) eqn:Hpc; try discriminate; [| |reflexivity].
      - unfold recv in Hnone. rewrite Hclosed in Hnone.
        now destruct (buf (jobs s)).
      - unfold send in Hnone. rewrite Hop, Hempty, Hcapr in Hnone.
        discriminate. }
    assert (Hheld : Pool.gather held_by (workers s) = []).
    { apply Pool.gather_nil. eapply Forall_impl; [exact Hall|].
      intros w Hpc. unfold held_by. now rewrite Hpc. }
    assert (Hjobs : buf (jobs s) = []).
    { destruct (workers s) as [|w0 ?] eqn:Hws0; [discriminate|].
      apply Forall_cons in Hall as [Hpc _].
      now destruct (Hdone 0%nat w0 eq_refl Hpc). }
    rewrite Hheld, Hjobs, Hempty in Hlen. simpl in Hlen. lia.
Qed.

(** *** The announcements are kept in step *)

Lemma announced_app out out' :
  announced (out ++ out') = announced out ++ announced out'.
Proof.
  induction out as [|[? j|v] out IH]; simpl; [reflexivity| |exact IH].
  now rewrite IH.
Qed.

Lemma Announced_init : Announced init.
Proof.
  split; unfold todo, in_hand; simpl.
  - now rewrite !app_nil_r.
  - reflexivity.
  - constructor.
  - constructor.
  - intros [|? ?] v later; discriminate.
Qed.

(** A line added at the end of the output is the last line. *)
Lemma snoc_split (out : list line) (l : line) out1 v later :
  out ++ [l] = out1 ++ ResultLine v :: later ->
  (out1 = out /\ l = ResultLine v /\ later = []) \/
  (exists later', later = later' ++ [l] /\
                  out = out1 ++ ResultLine v :: later').
Proof.
  intros Heq. destruct later as [|x later _] using rev_ind.
  - left. apply app_inj_tail in Heq as [-> ->]. auto.
  - right. exists later.
    rewrite app_comm_cons, app_assoc in Heq.
    apply app_inj_tail in Heq as [-> ->]. auto.
Qed.

Lemma order_snoc (out : list line) (l : line) :
  (forall out1 v later,
     out = out1 ++ ResultLine v :: later -> v ∈ double <$> announced out1) ->
  (forall v, l = ResultLine v -> v ∈ double <$> announced out) ->
  forall out1 v later,
    out ++ [l] = out1 ++ ResultLine v :: later ->
    v ∈ double <$> announced out1.
Proof.
  intros Hold Hnew out1 v later Heq.
  apply snoc_split in Heq as [(-> & -> & _)|(later' & _ & ->)].
  - now apply Hnew.
  - now apply (Hold out1 v later').
Qed.

Ltac ann_fields :=
  split; unfold todo, in_hand; simpl.

Lemma Announced_step_main s s' :
  Inv s -> Announced s -> step_main s = Step s' -> Announced s'.
Proof.
  intros [_ _ Hop _ Hmain _ _] [Hjobs Hres Hids Hlines Hord] Hstep.
  unfold todo, in_hand in Hjobs, Hres. unfold main_ok in Hmain.
  destruct s as [jb rs m ws out]; simpl in *.
  apply pool_step_main_inv in Hstep
    as [(w & Hm & Hle & ->)|[(w & Hm & Hlt & ->)|
       [(j & jobs' & Hm & Hle & Hsend & ->)|[(j & Hm & Hlt & ->)|
       [(jobs' & Hm & Hclose & ->)|[(r & v & ok & results' & Hm & Hle & Hr & ->)|
       [(r & Hm & Hlt & ->)|(r & v & Hm & ->)]]]]]]];
    simpl in *; subst m; simpl in *.
  - (* go worker(w, jobs, results) *)
    destruct Hmain as (Hw & Hlen & Hgot).
    ann_fields; try assumption.
    + rewrite Pool.gather_app. unfold Pool.gather at 2. simpl.
      now rewrite !app_nil_r.
    + rewrite Pool.gather_app. unfold Pool.gather at 2. simpl.
      now rewrite !app_nil_r.
    + apply Forall_app. split; [exact Hids|]. constructor; [|constructor].
      simpl. lia.
  - (* the workers are started *)
    ann_fields; try assumption.
    now replace (njobs + 1 - 1) with njobs by lia.
  - (* jobs <- j *)
    apply send_ok_inv in Hsend as (Hopen & Hroom & Heq). subst jobs'.
    rewrite incr_counter by lia.
    ann_fields; try assumption.
    etransitivity; [|exact Hjobs].
    rewrite (seqZ_cons j) by lia.
    replace (Z.succ j) with (j + 1) by lia.
    replace (Z.pred (njobs + 1 - j)) with (njobs + 1 - (j + 1)) by lia.
    solve_Permutation.
  - (* every job is fed *)
    ann_fields; try assumption.
    now rewrite seqZ_nil in Hjobs by lia.
  - (* close(jobs) *)
    apply close_ok_inv in Hclose as (Hopen & Hclosed & Hbuf & Hcap').
    ann_fields; try assumption.
    now rewrite Hbuf.
  - (* <-results *)
    unfold recv in Hr. rewrite Hop in Hr.
    destruct (buf rs) as [|v0 rest] eqn:Hb; [discriminate|].
    injection Hr as <- <- <-.
    ann_fields; try assumption.
    etransitivity; [|exact Hres]. solve_Permutation.
  - (* every result is printed *)
    ann_fields; assumption.
  - (* fmt.Println(<-results) *)
    assert (Hout : announced (out ++ [ResultLine v]) = announced out).
    { rewrite announced_app. simpl. apply app_nil_r. }
    ann_fields; try assumption.
    + now rewrite Hout.
    + rewrite Hout, printed_results_app. simpl.
      etransitivity; [|exact Hres]. solve_Permutation.
    + apply Forall_app. split; [exact Hlines|]. now repeat constructor.
    + apply order_snoc; [exact Hord|].
      intros v' [= <-]. rewrite <- Hres, !elem_of_app.
      right; right. constructor.
Qed.

Lemma Announced_step_worker i s s' :
  Inv s -> Announced s -> step_worker i s = Step s' -> Announced s'.
Proof.
  intros _ [Hjobs Hres Hids Hlines Hord] Hstep.
  apply pool_step_worker_inv in Hstep as (w & Hw & Hstep).
  pose proof (fun w' => Pool.gather_insert received_by (workers s) i w w' Hw)
    as Hg.
  pose proof (fun w' => Pool.gather_insert announced_by (workers s) i w w' Hw)
    as Ha.
  assert (Hid : 1 <= id w <= num_workers).
  { rewrite Forall_lookup in Hids. exact (Hids i w Hw). }
  assert (Hids' : forall pc', Forall (fun w => 1 <= id w <= num_workers)
                                (<[i := mkWorker (id w) pc']> (workers s))).
  { intros pc'. apply Forall_insert; assumption. }
  unfold todo, in_hand in Hjobs, Hres.
  destruct Hstep
    as [(j & rest & Hpc & Hb & ->)|[(Hpc & Hb & Hc & ->)|
       [(j & Hpc & ->)|(j & results' & Hpc & Hsend & ->)]]].
  - (* for j := range jobs, a job is there *)
    specialize (Hg (mkWorker (id w) (W_Println j))).
    specialize (Ha (mkWorker (id w) (W_Println j))).
    unfold received_by at 2 4 in Hg. unfold announced_by at 2 4 in Ha.
    rewrite Hpc in Hg, Ha. simpl in Hg, Ha.
    rewrite ?app_nil_r in Hg. rewrite ?app_nil_r in Ha.
    ann_fields; try assumption; [|now rewrite Ha|apply Hids'].
    rewrite Hg. etransitivity; [|exact Hjobs]. rewrite Hb.
    solve_Permutation.
  - (* for j := range jobs, the channel is closed and drained *)
    specialize (Hg (mkWorker (id w) W_Done)).
    specialize (Ha (mkWorker (id w) W_Done)).
    unfold received_by at 2 4 in Hg. unfold announced_by at 2 4 in Ha.
    rewrite Hpc in Hg, Ha. simpl in Hg, Ha.
    rewrite ?app_nil_r in Hg. rewrite ?app_nil_r in Ha.
    ann_fields; try assumption; [now rewrite Hg|now rewrite Ha|apply Hids'].
  - (* fmt.Println("Worker", id, "processing job", j) *)
    specialize (Hg (mkWorker (id w) (W_Send j))).
    specialize (Ha (mkWorker (id w) (W_Send j))).
    unfold received_by at 2 4 in Hg. unfold announced_by at 2 4 in Ha.
    rewrite Hpc in Hg, Ha. simpl in Hg, Ha.
    rewrite ?app_nil_r in Hg. rewrite ?app_nil_r in Ha.
    assert (Hout : printed_results (stdout s ++ [WorkerLine (id w) j]) =
                   printed_results (stdout s)).
    { rewrite printed_results_app. simpl. apply app_nil_r. }
    ann_fields.
    + rewrite announced_app. simpl.
      etransitivity; [|exact Hjobs]. rewrite <- Hg. solve_Permutation.
    + rewrite announced_app, Hout, Ha, !fmap_app. simpl.
      rewrite <- Hres. solve_Permutation.
    + apply Hids'.
    + apply Forall_app. split; [exact Hlines|]. now repeat constructor.
    + apply order_snoc; [exact Hord|discriminate].
  - (* results <- j * 2 *)
    specialize (Hg (mkWorker (id w) W_Range)).
    specialize (Ha (mkWorker (id w) W_Range)).
    unfold received_by at 2 4 in Hg. unfold announced_by at 2 4 in Ha.
    rewrite Hpc in Hg, Ha. simpl in Hg, Ha.
    rewrite ?app_nil_r in Hg. rewrite ?app_nil_r in Ha.
    apply send_ok_inv in Hsend as (Hopen & Hroom & Heq). subst results'.
    ann_fields; try assumption; [now rewrite Hg| |apply Hids'].
    etransitivity; [|exact Hres]. rewrite <- Ha.
    rewrite fmap_app. simpl. fold (double j). solve_Permutation.
Qed.

Lemma Announced_step g s s' :
  Inv s /\ Announced s -> step g s = Step s' -> Inv s' /\ Announced s'.
Proof.
  intros [Hinv Hann] Hstep. split; [now apply (pool_Inv_step g s)|].
  destruct g; [now apply (Announced_step_main s)|
               now apply (Announced_step_worker i s)].
Qed.

End Program.

(** On the jobs of a pool this small, [j * 2] does not wrap around. *)
Lemma double_small njobs :
  njobs <= 13 -> double <$> seqZ 1 njobs = (fun j => j * 2) <$> seqZ 1 njobs.
Proof.
  intros Hn. apply list_fmap_ext. intros i j Hj.
  apply lookup_seqZ in Hj as [-> Hi].
  unfold double, GoInt.mul. apply GoInt.wrap_in_range.
  unfold GoInt.in_range, GoInt.min_int, GoInt.max_int. lia.
Qed.

(** C1: the worker pool, with three workers and two channels of capacity
    5, for any number of jobs up to 13 (5 in channels.md, 10 in the
    specification).  Whatever the schedule: the program does not fault;
    when [main] has returned it has printed exactly one result [j * 2] for
    each job [j] of 1..njobs, in some order, and no job is left in the
    input channel, with a worker or in the output channel (every result
    was produced before the last receive of [main] returned); until then
    some goroutine can move; no schedule is longer than [6 * njobs + 10]
    steps; and every run can be carried on until [main] returns. *)
Theorem worker_pool_results (njobs : Z) (sched : list goroutine) :
  njobs <= 13 ->
  run (step njobs) sched init <> Crash /\
  forall s, run (step njobs) sched init = Step s ->
    (main s = M_Done ->
       printed_results (stdout s) ≡ₚ (fun j => j * 2) <$> seqZ 1 njobs /\
       length (printed_results (stdout s)) = Z.to_nat njobs /\
       buf (jobs s) = [] /\ Pool.gather held_by (workers s) = [] /\
       buf (results s) = []) /\
    (main s <> M_Done -> can_move (step njobs) s) /\
    (length sched <= 6 * Z.to_nat njobs + 10)%nat /\
    (exists rest s', run (step njobs) (sched ++ rest) init = Step s' /\
                     main s' = M_Done).
Proof.
  intros Hn. split.
  - apply (run_no_crash _ (Inv njobs)).
    + apply pool_Inv_step, Hn.
    + intros g s. apply pool_step_no_crash.
    + apply pool_Inv_init.
  - intros s Hrun.
    assert (Hinv : Inv njobs s).
    { eapply run_invariant; [apply pool_Inv_step, Hn|apply pool_Inv_init|exact Hrun]. }
    split; [|split; [|split]].
    + intros Hdone.
      pose proof (length_jobs _ _ Hinv) as Hlen.
      pose proof (inv_jobs _ _ Hinv) as Hjobs.
      pose proof (inv_main _ _ Hinv) as Hmain.
      unfold main_ok in Hmain. unfold todo, in_hand in Hlen, Hjobs.
      rewrite Hdone in *. simpl in Hlen, Hjobs.
      assert (Hgot : length (printed_results (stdout s)) = Z.to_nat njobs)
        by lia.
      destruct (buf (jobs s)); [|simpl in Hlen; lia].
      destruct (Pool.gather held_by (workers s)); [|simpl in Hlen; lia].
      destruct (buf (results s)); [|simpl in Hlen; lia].
      simpl in Hjobs. rewrite double_small in Hjobs by exact Hn. auto.
    + intros Hm. now apply pool_progress.
    + pose proof (run_bounded _ (Inv njobs) (pool_Inv_step njobs Hn)
                    (measure njobs) sched _ _ (pool_measure_step njobs Hn)
                    (pool_Inv_init _) Hrun) as Hb.
      assert (Hinit : measure njobs init = (6 * Z.to_nat njobs + 10)%nat).
      { unfold measure, todo. simpl. rewrite length_seqZ. lia. }
      lia.
    + destruct (run_completes _ (Inv njobs) (pool_Inv_step njobs Hn)
                  (measure njobs) (fun s => main s = M_Done))
        with (s := s) as (rest & s' & Hrest & Hdone).
      * intros s0. destruct (main s0); (now left) || (right; discriminate).
      * apply pool_measure_step, Hn.
      * intros s0. apply pool_progress, Hn.
      * exact Hinv.
      * exists rest, s'. rewrite run_app, Hrun. auto.
Qed.

(** What a run keeps, announcements included. *)
Lemma run_Announced (njobs : Z) (sched : list goroutine) (s : state) :
  njobs <= 13 ->
  run (step njobs) sched init = Step s ->
  Inv njobs s /\ Announced njobs s.
Proof.
  intros Hn Hrun.
  apply (run_invariant (step njobs)
           (fun s => Inv njobs s /\ Announced njobs s) (fun g s s' =>
              Announced_step njobs Hn g s s') sched init s);
    [|exact Hrun].
  split; [apply pool_Inv_init|apply Announced_init].
Qed.

Lemma received_none (ws : list worker) :
  Pool.gather held_by ws = [] -> Pool.gather received_by ws = [].
Proof.
  induction ws as [|w ws IH]; [reflexivity|].
  rewrite !Pool.gather_cons. intros Hnil.
  apply app_eq_nil in Hnil as [Hw Hws]. rewrite (IH Hws), app_nil_r.
  unfold held_by in Hw. unfold received_by. now destruct (pc w).
Qed.

(** X7: in the worker pool, whatever the schedule, no job is announced
    twice ("Worker id processing job j") and only jobs of 1..njobs are; the
    worker named is one of the three that [main] starts; and when [main]
    has returned every job has been announced, once. *)
Theorem every_job_announced_once (njobs : Z) (sched : list goroutine) :
  njobs <= 13 ->
  forall s, run (step njobs) sched init = Step s ->
    NoDup (announced (stdout s)) /\
    announced (stdout s) ⊆+ seqZ 1 njobs /\
    Forall line_ok (stdout s) /\
    (main s = M_Done -> announced (stdout s) ≡ₚ seqZ 1 njobs).
Proof.
  intros Hn s Hrun.
  destruct (run_Announced njobs sched s Hn Hrun) as [Hinv Hann].
  pose proof (ann_jobs _ _ Hann) as Hjobs.
  assert (Hsub : announced (stdout s) ⊆+ seqZ 1 njobs).
  { rewrite <- Hjobs. rewrite !app_assoc. now apply submseteq_inserts_l. }
  split; [|split; [exact Hsub|split; [apply (ann_lines _ _ Hann)|]]].
  - pose proof (NoDup_seqZ 1 njobs) as Hnd. rewrite <- Hjobs in Hnd.
    apply NoDup_app in Hnd as (_ & _ & Hnd).
    apply NoDup_app in Hnd as (_ & _ & Hnd).
    now apply NoDup_app in Hnd as (_ & _ & Hnd).
  - intros Hdone.
    pose proof (length_jobs _ _ Hinv) as Hlen.
    pose proof (inv_main _ _ Hinv) as Hmain.
    unfold main_ok in Hmain. unfold todo, in_hand in Hlen, Hjobs.
    rewrite Hdone in *. simpl in Hlen, Hjobs.
    destruct (buf (jobs s)); [|simpl in Hlen; lia].
    destruct (Pool.gather held_by (workers s)) eqn:Hheld;
      [|simpl in Hlen; lia].
    now rewrite (received_none _ Hheld) in Hjobs.
Qed.

(** X8: in the worker pool, whatever the schedule, a result that [main]
    prints is [j * 2] for a job [j] that a worker has announced on an
    earlier line. *)
Theorem result_after_announcement (njobs : Z) (sched : list goroutine) :
  njobs <= 13 ->
  forall s, run (step njobs) sched init = Step s ->
  forall out v later,
    stdout s = out ++ ResultLine v :: later ->
    exists j, v = j * 2 /\ j ∈ announced out /\ 1 <= j <= njobs.
Proof.
  intros Hn s Hrun out v later Hout.
  destruct (run_Announced njobs sched s Hn Hrun) as [Hinv Hann].
  pose proof (ann_order _ _ Hann out v later Hout) as Hv.
  apply list_elem_of_fmap in Hv as (j & -> & Hj).
  assert (Hrange : 1 <= j <= njobs).
  { pose proof (ann_jobs _ _ Hann) as Hjobs.
    assert (Hin : j ∈ seqZ 1 njobs).
    { rewrite <- Hjobs, Hout, announced_app, !elem_of_app. auto. }
    apply elem_of_seqZ in Hin. lia. }
  exists j. split; [|auto].
  unfold double, GoInt.mul. apply GoInt.wrap_in_range.
  unfold GoInt.in_range, GoInt.min_int, GoInt.max_int. lia.
Qed.

(** With 14 jobs or more, the steps of [main] up to [jobs <- 14] are
    those of the pool with 14 jobs. *)
Lemma step_feeding (njobs : Z) (g : goroutine) (s : state) :
  14 <= njobs -> feeding s = true -> step njobs g s = step 14 g s.
Proof.
  intros Hn Hfeed. destruct g as [|i]; [|reflexivity].
  simpl. unfold step_main. unfold feeding in Hfeed.
  destruct (main s) as [w|j| |r|r v|]; try discriminate; [reflexivity|].
  apply Z.leb_le in Hfeed.
  destruct (Z.leb_spec j njobs); [|lia].
  destruct (Z.leb_spec j 14); [reflexivity|lia].
Qed.

Lemma run_feeding_run (njobs : Z) (sched : list goroutine) : forall s s',
  14 <= njobs ->
  run_feeding 14 sched s = Some s' -> run (step njobs) sched s = Step s'.
Proof.
  induction sched as [|g sched IH]; intros s s' Hn; simpl.
  - now intros [= <-].
  - destruct (feeding s) eqn:Hfeed; [|discriminate].
    rewrite (step_feeding njobs g s Hn Hfeed).
    destruct (step 14 g s) as [s1| |]; try discriminate.
    now apply IH.
Qed.

(** X9: the pool holds 13 jobs at most (five in each channel and one with
    each worker).  With 14 jobs or more the program can deadlock: there is
    a schedule after which [main] waits at [jobs <- 14] and no goroutine
    can move. *)
Theorem too_many_jobs_deadlock (njobs : Z) :
  14 <= njobs ->
  exists s, run (step njobs) stuck_schedule init = Step s /\
            main s = M_Feed 14 /\
            Forall (fun w => exists j, pc w = W_Send j) (workers s) /\
            ~ can_move (step njobs) s.
Proof.
  intros Hn. eexists. split.
  { apply run_feeding_run; [exact Hn|]. vm_compute. reflexivity. }
  split; [reflexivity|]. split.
  { repeat constructor; eexists; reflexivity. }
  intros (g & s' & Hstep).
  rewrite step_feeding in Hstep by (exact Hn || reflexivity).
  destruct g as [|i].
  - vm_compute in Hstep. discriminate.
  - destruct i as [|[|[|i]]]; vm_compute in Hstep; discriminate.
Qed.

Example worker_pool_run :
  run (step 5)
    [Main; Main; Main; Main;
     Main; Main; Main; Main; Main; Main; Main;
     Worker 0; Worker 1; Worker 2; Worker 0; Worker 0; Worker 0; Worker 2;
     Worker 2; Worker 1; Worker 1; Worker 1; Worker 0; Worker 0; Worker 1;
     Worker 1; Worker 2;
     Main; Main; Main; Main; Main; Main; Main; Main; Main; Main; Main]
    init
  = Step (mkState (mkChan 5%nat [] true) (mkChan 5%nat [] false) M_Done
            [mkWorker 1 W_Range; mkWorker 2 W_Range; mkWorker 3 W_Done]
            [WorkerLine 1 1; WorkerLine 3 3; WorkerLine 2 2; WorkerLine 1 4;
             WorkerLine 2 5; ResultLine 2; ResultLine 6; ResultLine 4;
             ResultLine 8; ResultLine 10]).
Proof. vm_compute. reflexivity. Qed.

(** The bound on the number of jobs is the best one: with 14 jobs the
    schedule above ends with the two channels full, every worker at
    [results <- j * 2] and [main] at [jobs <- 14]; nobody can move. *)
Example worker_pool_stuck :
  exists s, run (step 14) stuck_schedule init = Step s /\
            main s = M_Feed 14 /\ ~ can_move (step 14) s.
Proof.
  eexists. split; [vm_compute; reflexivity|]. split; [reflexivity|].
  intros (g & s' & Hstep). destruct g as [|i].
  - vm_compute in Hstep. discriminate.
  - destruct i as [|[|[|i]]]; vm_compute in Hstep; discriminate.
Qed.

Lemma worker_pool_results_witness :
  5 <= 13 /\
  run (step 5) (replicate 11 Main) init <> Crash /\
  forall s, run (step 5) (replicate 11 Main) init = Step s ->
    exists rest s', run (step 5) (replicate 11 Main ++ rest) init = Step s' /\
                    main s' = M_Done.
Proof.
  assert (H5 : 5 <= 13) by lia.
  split; [exact H5|].
  destruct (worker_pool_results 5 (replicate 11 Main) H5) as [Hsafe Hrun].
  split; [exact Hsafe|].
  intros s Hs. apply (Hrun s Hs).
Defined.

Lemma every_job_announced_once_witness :
  5 <= 13 /\
  forall s, run (step 5) (replicate 11 Main ++ [Worker 0; Worker 0]) init
            = Step s ->
    NoDup (announced (stdout s)) /\
    announced (stdout s) ⊆+ seqZ 1 5 /\
    Forall line_ok (stdout s) /\
    (main s = M_Done -> announced (stdout s) ≡ₚ seqZ 1 5).
Proof.
  assert (H5 : 5 <= 13) by lia.
  split; [exact H5|].
  exact (every_job_announced_once 5 _ H5).
Defined.

Lemma result_after_announcement_witness :
  5 <= 13 /\
  forall s, run (step 5)
              (replicate 11 Main ++ [Worker 0; Worker 0; Worker 0; Main; Main])
              init = Step s ->
  forall out v later,
    stdout s = out ++ ResultLine v :: later ->
    exists j, v = j * 2 /\ j ∈ announced out /\ 1 <= j <= 5.
Proof.
  assert (H5 : 5 <= 13) by lia.
  split; [exact H5|].
  exact (result_after_announcement 5 _ H5).
Defined.

Lemma too_many_jobs_deadlock_witness :
  14 <= 14 /\
  exists s, run (step 14) stuck_schedule init = Step s /\
            main s = M_Feed 14 /\
            Forall (fun w => exists j, pc w = W_Send j) (workers s) /\
            ~ can_move (step 14) s.
Proof.
  assert (H14 : 14 <= 14) by lia.
  split; [exact H14|].
  exact (too_many_jobs_deadlock 14 H14).
Defined.

End WorkerPool.

(** ** [sync.Mutex] and [sync.WaitGroup] *)

Module Mutex.

(** Modelled from the spec: [sync.Mutex] is missing from the sources.
    Section 3 and 4.3: a mutex is unlocked or locked, with one holder at
    most; [lock] blocks while it is locked; unlocking an unlocked mutex, or
    one that another goroutine holds, is a fault.  Goroutines are named by
    their position in the pool. *)
Definition mutex : Type := option nat.

Definition unlocked : mutex := None.

Inductive lock_result : Type :=
| LockOk (m : mutex)
| LockBlocked.

Inductive unlock_result : Type :=
| UnlockOk (m : mutex)
| UnlockFault.

(** Modelled from the spec: [lock()] of section 4.3 blocks while the mutex
    is locked. *)
Definition lock (g : nat) (m : mutex) : lock_result :=
  match m with
  | None => LockOk (Some g)
  | Some _ => LockBlocked
  end.

(** Modelled from the spec: [unlock()] of section 4.3; a fault on an
    unlocked mutex or from a goroutine that does not hold it. *)
Definition unlock (g : nat) (m : mutex) : unlock_result :=
  match m with
  | Some holder => if (holder =? g)%nat then UnlockOk None else UnlockFault
  | None => UnlockFault
  end.

End Mutex.

Module WaitGroup.

(** Modelled from the spec: [sync.WaitGroup] is missing from the sources.
    Section 3 and 4.4: a signed counter, 0 at first; [add(n)] adds [n], and
    a counter that would go below 0 is a fault; [done()] is [add(-1)];
    [wait()] blocks until the counter is 0 and returns at once if it is. *)
Definition waitgroup : Type := Z.

Definition new : waitgroup := 0.

Inductive add_result : Type :=
| AddOk (wg : waitgroup)
| AddFault.

Inductive wait_result : Type :=
| WaitReturns
| WaitBlocked.

(** Modelled from the spec: [add(n)] of section 4.4. *)
Definition add (delta : Z) (wg : waitgroup) : add_result :=
  if wg + delta <? 0 then AddFault else AddOk (wg + delta).

(** Modelled from the spec: [done()] is [add(-1)]. *)
Definition done (wg : waitgroup) : add_result := add (-1) wg.

(** Modelled from the spec: [wait()] of section 4.4 returns when the
    counter is 0 and blocks otherwise. *)
Definition wait (wg : waitgroup) : wait_result :=
  if wg =? 0 then WaitReturns else WaitBlocked.

(** [k] calls of [done()], one after the other. *)
Fixpoint dones (k : nat) (wg : waitgroup) : add_result :=
  match k with
  | O => AddOk wg
  | S k => match done wg with
           | AddOk wg' => dones k wg'
           | AddFault => AddFault
           end
  end.

Lemma wait_returns wg : wait wg = WaitReturns <-> wg = 0.
Proof.
  unfold wait. destruct (Z.eqb_spec wg 0); split; auto; try discriminate.
  intros Hwg. contradiction.
Qed.

Lemma wait_blocked wg : wait wg = WaitBlocked <-> wg <> 0.
Proof.
  unfold wait. destruct (Z.eqb_spec wg 0); split; auto; try discriminate.
  intros Hne. contradiction.
Qed.

Lemma add_ok delta wg : 0 <= wg + delta -> add delta wg = AddOk (wg + delta).
Proof. intros Hd. unfold add. destruct (Z.ltb_spec (wg + delta) 0); [lia|auto]. Qed.

Lemma done_ok wg : 0 < wg -> done wg = AddOk (wg - 1).
Proof. intros Hwg. unfold done. rewrite add_ok by lia. f_equal. Qed.

Lemma dones_ok k : forall wg,
  Z.of_nat k <= wg -> dones k wg = AddOk (wg - Z.of_nat k).
Proof.
  induction k as [|k IH]; intros wg Hk; simpl dones.
  - f_equal. lia.
  - rewrite done_ok by lia. rewrite IH by lia. f_equal. lia.
Qed.

(** After [add(N)] on a new wait group and [k] calls of [done()], [wait()]
    returns exactly when [k] is [N]. *)
Lemma wait_after_dones (N k : nat) :
  (k <= N)%nat ->
  add (Z.of_nat N) new = AddOk (Z.of_nat N) /\
  dones k (Z.of_nat N) = AddOk (Z.of_nat N - Z.of_nat k) /\
  (wait (Z.of_nat N - Z.of_nat k) = WaitReturns <-> k = N).
Proof.
  intros Hk. split; [|split].
  - unfold new. rewrite add_ok by lia. f_equal.
  - apply dones_ok. lia.
  - rewrite wait_returns. lia.
Qed.

End WaitGroup.

(** ** mutex.go: a counter behind a mutex *)

Module MutexCounter.
Import Sched.

(** <<
    type post struct {
        views int
        mu sync.Mutex
    }

    func (p *post) incView(wg *sync.WaitGroup) {
        defer func(){
            wg.Done()
            p.mu.Unlock()
        }()
        p.mu.Lock() //before the modification
        p.views++
    }

    func main() {
        var wg sync.WaitGroup
        myPost := post{views: 0}

        for i:=0;i<100;i++{
            wg.Add(1)
            go myPost.incView(&wg)
        }

        wg.Wait()
        fmt.Println(myPost.views)
    }
>> *)

(** A goroutine that runs [incView]: at [p.mu.Lock()]; at [p.views++],
    which reads the field and then writes it; in the deferred function, at
    [wg.Done()] and at [p.mu.Unlock()]; returned. *)
Inductive inc_pc : Type :=
| I_Lock
| I_Load
| I_Store (tmp : Z)
| I_Done
| I_Unlock
| I_Returned.

(** [main]: at the loop test and [wg.Add(1)], at the [go] statement, at
    [wg.Wait()], at [fmt.Println], returned. *)
Inductive main_pc : Type :=
| M_Loop (i : Z)
| M_Go (i : Z)
| M_Wait
| M_Println
| M_Exit.

Record state : Type := mkState {
  views : Z;
  mu : Mutex.mutex;
  wg : WaitGroup.waitgroup;
  main : main_pc;
  routines : list inc_pc;
  stdout : list Z
}.

Inductive goroutine : Type := Main | IncView (g : nat).

Definition init : state :=
  mkState 0 Mutex.unlocked WaitGroup.new (M_Loop 0) [] [].

(** The schedule that lets [main] start every goroutine, then runs them
    one after the other, then lets [main] finish. *)
Definition one_by_one (k : nat) : list goroutine :=
  concat (replicate k [Main; Main]) ++ [Main] ++
  concat ((fun g => replicate 5 (IncView g)) <$> seq 0 k) ++ [Main; Main].

(** A schedule of [m] goroutines in which the last one has called
    [wg.Done()] and not yet [p.mu.Unlock()] when [main] prints. *)
Definition done_first (m : nat) : list goroutine :=
  (concat ((fun _ => [Main; Main]) <$> seq 0 m) ++ [Main]) ++
  concat ((fun g => replicate 5 (IncView g)) <$> seq 0 (m - 1)) ++
  replicate 4 (IncView (m - 1)) ++ [Main; Main].

Section Program.
(** The number of goroutines, 100 in mutex.go. *)
Variable n : Z.

Definition step_main (s : state) : step_result state :=
  match main s with
  | M_Loop i =>
      if i <? n
      then match WaitGroup.add 1 (wg s) with
           | WaitGroup.AddOk wg' =>
               Step (mkState (views s) (mu s) wg' (M_Go i) (routines s)
                       (stdout s))
           | WaitGroup.AddFault => Crash
           end
      else Step (mkState (views s) (mu s) (wg s) M_Wait (routines s)
                   (stdout s))
  | M_Go i =>
      Step (mkState (views s) (mu s) (wg s) (M_Loop (GoInt.incr i))
              (routines s ++ [I_Lock]) (stdout s))
  | M_Wait =>
      match WaitGroup.wait (wg s) with
      | WaitGroup.WaitReturns =>
          Step (mkState (views s) (mu s) (wg s) M_Println (routines s)
                  (stdout s))
      | WaitGroup.WaitBlocked => Block
      end
  | M_Println =>
      Step (mkState (views s) (mu s) (wg s) M_Exit (routines s)
              (stdout s ++ [views s]))
  | M_Exit => Block
  end.

Definition step_inc (g : nat) (s : state) : step_result state :=
  match routines s !! g with
  | None => Block
  | Some I_Lock =>
      match Mutex.lock g (mu s) with
      | Mutex.LockOk mu' =>
          Step (mkState (views s) mu' (wg s) (main s)
                  (<[g := I_Load]> (routines s)) (stdout s))
      | Mutex.LockBlocked => Block
      end
  | Some I_Load =>
      Step (mkState (views s) (mu s) (wg s) (main s)
              (<[g := I_Store (views s)]> (routines s)) (stdout s))
  | Some (I_Store tmp) =>
      Step (mkState (GoInt.incr tmp) (mu s) (wg s) (main s)
              (<[g := I_Done]> (routines s)) (stdout s))
  | Some I_Done =>
      match WaitGroup.done (wg s) with
      | WaitGroup.AddOk wg' =>
          Step (mkState (views s) (mu s) wg' (main s)
                  (<[g := I_Unlock]> (routines s)) (stdout s))
      | WaitGroup.AddFault => Crash
      end
  | Some I_Unlock =>
      match Mutex.unlock g (mu s) with
      | Mutex.UnlockOk mu' =>
          Step (mkState (views s) mu' (wg s) (main s)
                  (<[g := I_Returned]> (routines s)) (stdout s))
      | Mutex.UnlockFault => Crash
      end
  | Some I_Returned => Block
  end.

Definition step (t : goroutine) (s : state) : step_result state :=
  match t with
  | Main => step_main s
  | IncView g => step_inc g s
  end.

(** *** The invariant *)

(** The goroutine is between [p.mu.Lock()] and [p.mu.Unlock()]. *)
Definition holding (pc : inc_pc) : bool :=
  match pc with
  | I_Load | I_Store _ | I_Done | I_Unlock => true
  | I_Lock | I_Returned => false
  end.

(** The goroutine has written [p.views]. *)
Definition stored (pc : inc_pc) : nat :=
  match pc with
  | I_Done | I_Unlock | I_Returned => 1
  | _ => 0
  end.

(** The goroutine has called [wg.Done()]. *)
Definition finished (pc : inc_pc) : nat :=
  match pc with
  | I_Unlock | I_Returned => 1
  | _ => 0
  end.

(** The calls of [wg.Add(1)] made so far. *)
Definition registered (m : main_pc) : Z :=
  match m with
  | M_Loop i => i
  | M_Go i => i + 1
  | _ => n
  end.

Definition main_ok (s : state) : Prop :=
  let len := Z.of_nat (length (routines s)) in
  match main s with
  | M_Loop i => 0 <= i <= n /\ len = i /\ stdout s = []
  | M_Go i => 0 <= i < n /\ len = i /\ stdout s = []
  | M_Wait => len = n /\ stdout s = []
  | M_Println =>
      len = n /\ Forall (fun pc => finished pc = 1%nat) (routines s) /\
      stdout s = []
  | M_Exit =>
      len = n /\ Forall (fun pc => finished pc = 1%nat) (routines s) /\
      stdout s = [n]
  end.

Record Inv (s : state) : Prop := mkInv {
  (** the mutex is held by a goroutine that is in the critical section,
      and a goroutine in the critical section holds it *)
  inv_holder : forall g, mu s = Some g ->
    exists pc, routines s !! g = Some pc /\ holding pc = true;
  inv_holds : forall g pc,
    routines s !! g = Some pc -> holding pc = true -> mu s = Some g;
  (** what a goroutine has read is still the value of the field when it
      writes *)
  inv_tmp : forall g tmp, routines s !! g = Some (I_Store tmp) -> tmp = views s;
  inv_views : views s = Z.of_nat (Pool.total stored (routines s));
  inv_wg : wg s = registered (main s) - Z.of_nat (Pool.total finished (routines s));
  inv_main : main_ok s
}.

(** *** The steps left *)

Definition inc_steps (pc : inc_pc) : nat :=
  match pc with
  | I_Lock => 5
  | I_Load => 4
  | I_Store _ => 3
  | I_Done => 2
  | I_Unlock => 1
  | I_Returned => 0
  end.

Definition main_steps (m : main_pc) : nat :=
  match m with
  | M_Loop i => 7 * Z.to_nat (n - i) + 3
  | M_Go i => 7 * Z.to_nat (n - i) + 2
  | M_Wait => 2
  | M_Println => 1
  | M_Exit => 0
  end.

Definition measure (s : state) : nat :=
  main_steps (main s) + Pool.total inc_steps (routines s).

(** A goroutine that can move. *)
Definition ready (m : Mutex.mutex) (pc : inc_pc) : bool :=
  match pc with
  | I_Lock => match m with None => true | Some _ => false end
  | I_Returned => false
  | _ => true
  end.

(** *** What a step can be *)

Lemma mutex_step_main_inv s s' :
  step_main s = Step s' ->
  (exists i, main s = M_Loop i /\ i < n /\ 0 <= wg s + 1 /\
     s' = mkState (views s) (mu s) (wg s + 1) (M_Go i) (routines s) (stdout s)) \/
  (exists i, main s = M_Loop i /\ n <= i /\
     s' = mkState (views s) (mu s) (wg s) M_Wait (routines s) (stdout s)) \/
  (exists i, main s = M_Go i /\
     s' = mkState (views s) (mu s) (wg s) (M_Loop (GoInt.incr i))
            (routines s ++ [I_Lock]) (stdout s)) \/
  (main s = M_Wait /\ wg s = 0 /\
     s' = mkState (views s) (mu s) (wg s) M_Println (routines s) (stdout s)) \/
  (main s = M_Println /\
     s' = mkState (views s) (mu s) (wg s) M_Exit (routines s)
            (stdout s ++ [views s])).
Proof.
  unfold step_main. intros Hstep.
  destruct (main s) as [i|i| | |]; try discriminate.
  - destruct (Z.ltb_spec i n).
    + unfold WaitGroup.add in Hstep.
      destruct (Z.ltb_spec (wg s + 1) 0); [discriminate|].
      injection Hstep as <-. left. eauto 6.
    + injection Hstep as <-. right; left. eauto.
  - injection Hstep as <-. do 2 right; left. eauto.
  - destruct (WaitGroup.wait (wg s)) eqn:Hw; [|discriminate].
    apply WaitGroup.wait_returns in Hw.
    injection Hstep as <-. do 3 right; left. auto.
  - injection Hstep as <-. do 4 right. auto.
Qed.

Lemma mutex_step_inc_inv g s s' :
  step_inc g s = Step s' ->
  exists pc, routines s !! g = Some pc /\
  ((pc = I_Lock /\ mu s = None /\
      s' = mkState (views s) (Some g) (wg s) (main s)
             (<[g := I_Load]> (routines s)) (stdout s)) \/
   (pc = I_Load /\
      s' = mkState (views s) (mu s) (wg s) (main s)
             (<[g := I_Store (views s)]> (routines s)) (stdout s)) \/
   (exists tmp, pc = I_Store tmp /\
      s' = mkState (GoInt.incr tmp) (mu s) (wg s) (main s)
             (<[g := I_Done]> (routines s)) (stdout s)) \/
   (pc = I_Done /\ 0 < wg s /\
      s' = mkState (views s) (mu s) (wg s - 1) (main s)
             (<[g := I_Unlock]> (routines s)) (stdout s)) \/
   (pc = I_Unlock /\ mu s = Some g /\
      s' = mkState (views s) None (wg s) (main s)
             (<[g := I_Returned]> (routines s)) (stdout s))).
Proof.
  unfold step_inc. intros Hstep.
  destruct (routines s !! g) as [pc|]; [|discriminate].
  exists pc. split; [reflexivity|].
  destruct pc as [| |tmp| | |]; try discriminate.
  - unfold Mutex.lock in Hstep.
    destruct (mu s) eqn:Hmu; [discriminate|].
    injection Hstep as <-. left. auto.
  - injection Hstep as <-. right; left. auto.
  - injection Hstep as <-. do 2 right; left. eauto.
  - unfold WaitGroup.done, WaitGroup.add in Hstep.
    destruct (Z.ltb_spec (wg s + -1) 0); [discriminate|].
    injection Hstep as <-. do 3 right; left.
    split; [reflexivity|]. split; [lia|reflexivity].
  - unfold Mutex.unlock in Hstep.
    destruct (mu s) as [h|] eqn:Hmu; [|discriminate].
    destruct (Nat.eqb_spec h g) as [->|]; [|discriminate].
    injection Hstep as <-. do 4 right. auto.
Qed.

(** *** The invariant is kept *)

Hypothesis n_range : 0 <= n <= GoInt.max_int.

Lemma mutex_Inv_init : Inv init.
Proof.
  split; simpl.
  - discriminate.
  - intros g pc Hl. discriminate.
  - intros g tmp Hl. discriminate.
  - reflexivity.
  - reflexivity.
  - unfold main_ok. simpl. repeat split; lia.
Qed.

Lemma mutex_main_ok_insert s s' g pc pc' :
  main s' = main s -> stdout s' = stdout s ->
  routines s' = <[g := pc']> (routines s) ->
  routines s !! g = Some pc ->
  (finished pc = 1%nat -> finished pc' = 1%nat) ->
  main_ok s -> main_ok s'.
Proof.
  unfold main_ok. intros -> -> -> Hl Hfin. rewrite length_insert.
  assert (Hall : Forall (fun pc => finished pc = 1%nat) (routines s) ->
                 Forall (fun pc => finished pc = 1%nat)
                        (<[g := pc']> (routines s))).
  { intros Hall. apply Forall_insert; [exact Hall|].
    apply Hfin. exact (Forall_lookup_1 _ _ _ _ Hall Hl). }
  destruct (main s); tauto.
Qed.

(** A goroutine that stays in the critical section keeps the mutex. *)
Lemma holder_insert (m : Mutex.mutex) (rs : list inc_pc) g pc pc' :
  rs !! g = Some pc -> holding pc = true -> holding pc' = true ->
  (forall g0, m = Some g0 -> exists pc0, rs !! g0 = Some pc0 /\ holding pc0 = true) ->
  (forall g0 pc0, rs !! g0 = Some pc0 -> holding pc0 = true -> m = Some g0) ->
  (forall g0, m = Some g0 ->
     exists pc0, <[g := pc']> rs !! g0 = Some pc0 /\ holding pc0 = true) /\
  (forall g0 pc0, <[g := pc']> rs !! g0 = Some pc0 -> holding pc0 = true ->
     m = Some g0).
Proof.
  intros Hl Hpc Hpc' Hholder Hholds.
  pose proof (lookup_lt_Some _ _ _ Hl) as Hlt.
  split.
  - intros g0 Hm. destruct (decide (g0 = g)) as [->|Hne].
    + exists pc'. rewrite list_lookup_insert_eq by exact Hlt. auto.
    + rewrite list_lookup_insert_ne by auto. auto.
  - intros g0 pc0 Hl0 Hh. destruct (decide (g0 = g)) as [->|Hne].
    + eauto.
    + rewrite list_lookup_insert_ne in Hl0 by auto. eauto.
Qed.

Lemma mutex_Inv_step_main s s' : Inv s -> step_main s = Step s' -> Inv s'.
Proof.
  intros [Hholder Hholds Htmp Hviews Hwg Hmain] Hstep.
  unfold main_ok in Hmain.
  apply mutex_step_main_inv in Hstep
    as [(i & Hm & Hlt & Hadd & ->)|[(i & Hm & Hle & ->)|
       [(i & Hm & ->)|[(Hm & Hzero & ->)|(Hm & ->)]]]];
    rewrite Hm in *; simpl in *.
  - (* wg.Add(1) *)
    split; simpl; auto.
    + lia.
    + unfold main_ok. simpl. tauto.
  - (* the loop is over *)
    split; simpl; auto.
    + lia.
    + unfold main_ok. simpl. split; [lia|tauto].
  - (* go myPost.incView(&wg) *)
    destruct Hmain as (Hi & Hlen & Hout).
    rewrite GoInt.incr_small by (unfold GoInt.min_int; lia).
    split; simpl.
    + intros g Hg. destruct (Hholder g Hg) as (pc & Hl & Hh).
      exists pc. split; [|exact Hh]. now apply lookup_app_l_Some.
    + intros g pc Hl Hh.
      apply lookup_app_Some in Hl as [Hl|[_ Hl]]; [eauto|].
      apply list_lookup_singleton_Some in Hl as [_ <-]. discriminate.
    + intros g tmp Hl.
      apply lookup_app_Some in Hl as [Hl|[_ Hl]]; [eauto|].
      apply list_lookup_singleton_Some in Hl as [_ ?]. discriminate.
    + rewrite Pool.total_app. unfold Pool.total at 2. simpl. lia.
    + rewrite Pool.total_app. unfold Pool.total at 2. simpl. lia.
    + unfold main_ok. simpl. rewrite length_app. simpl.
      repeat split; try lia. exact Hout.
  - (* wg.Wait() returns *)
    destruct Hmain as (Hlen & Hout).
    split; simpl; auto.
    unfold main_ok. simpl. repeat split; auto.
    apply Pool.total_full; [intros []; simpl; lia|]. lia.
  - (* fmt.Println(myPost.views) *)
    destruct Hmain as (Hlen & Hall & Hout).
    split; simpl; auto.
    unfold main_ok. simpl. repeat split; auto.
    rewrite Hout. simpl. f_equal.
    rewrite Hviews, (Pool.total_Forall _ _ 1%nat); [lia|].
    eapply Forall_impl; [exact Hall|]. now intros [].
Qed.

Lemma mutex_finished_le pc : (finished pc <= 1)%nat.
Proof. destruct pc; simpl; lia. Qed.

Lemma mutex_stored_le pc : (stored pc <= 1)%nat.
Proof. destruct pc; simpl; lia. Qed.

(** The calls of [wg.Add(1)] are never behind the goroutines started. *)
Lemma mutex_registered_length s :
  main_ok s -> Z.of_nat (length (routines s)) <= registered (main s).
Proof. unfold main_ok. destruct (main s); simpl; lia. Qed.

Lemma mutex_Inv_step_inc g s s' : Inv s -> step_inc g s = Step s' -> Inv s'.
Proof.
  intros [Hholder Hholds Htmp Hviews Hwg Hmain] Hstep.
  apply mutex_step_inc_inv in Hstep as (pc & Hl & Hstep).
  pose proof (lookup_lt_Some _ _ _ Hl) as Hlt.
  pose proof (fun pc' => Pool.total_insert stored (routines s) g pc pc' Hl)
    as Hst.
  pose proof (fun pc' => Pool.total_insert finished (routines s) g pc pc' Hl)
    as Hfin.
  destruct Hstep
    as [(-> & Hmu & ->)|[(-> & ->)|[(tmp & -> & ->)|
       [(-> & Hpos & ->)|(-> & Hmu & ->)]]]].
  - (* p.mu.Lock() *)
    specialize (Hst I_Load). specialize (Hfin I_Load). simpl in Hst, Hfin.
    split; simpl.
    + intros g0 [= <-]. exists I_Load.
      rewrite list_lookup_insert_eq by exact Hlt. auto.
    + intros g0 pc0 Hl0 Hh. destruct (decide (g0 = g)) as [->|Hne]; [auto|].
      rewrite list_lookup_insert_ne in Hl0 by auto.
      specialize (Hholds _ _ Hl0 Hh). congruence.
    + intros g0 tmp Hl0.
      apply list_lookup_insert_Some in Hl0 as [(_ & ? & _)|[_ Hl0]];
        [discriminate|eauto].
    + lia.
    + lia.
    + apply (mutex_main_ok_insert s _ g I_Lock I_Load);
        [reflexivity|reflexivity|reflexivity|exact Hl|simpl; auto|exact Hmain].
  - (* p.views++, the read *)
    specialize (Hst (I_Store (views s))).
    specialize (Hfin (I_Store (views s))). simpl in Hst, Hfin.
    destruct (holder_insert (mu s) (routines s) g I_Load (I_Store (views s))
                Hl eq_refl eq_refl Hholder Hholds) as [Hholder' Hholds'].
    split; simpl; auto.
    + intros g0 tmp Hl0.
      apply list_lookup_insert_Some in Hl0 as [(_ & [= <-] & _)|[_ Hl0]];
        [reflexivity|eauto].
    + lia.
    + lia.
    + apply (mutex_main_ok_insert s _ g I_Load (I_Store (views s)));
        [reflexivity|reflexivity|reflexivity|exact Hl|simpl; auto|exact Hmain].
  - (* p.views++, the write *)
    specialize (Hst I_Done). specialize (Hfin I_Done). simpl in Hst, Hfin.
    destruct (holder_insert (mu s) (routines s) g (I_Store tmp) I_Done
                Hl eq_refl eq_refl Hholder Hholds) as [Hholder' Hholds'].
    pose proof (Htmp _ _ Hl) as ->.
    pose proof (Pool.total_lt stored _ _ _ mutex_stored_le Hl eq_refl) as Hroom.
    pose proof (mutex_registered_length _ Hmain) as Hreg.
    assert (Hn : Z.of_nat (length (routines s)) <= n).
    { unfold main_ok in Hmain. destruct (main s); lia. }
    rewrite GoInt.incr_small by (unfold GoInt.min_int; lia).
    split; simpl; auto.
    + intros g0 tmp0 Hl0.
      apply list_lookup_insert_Some in Hl0 as [(_ & ? & _)|[Hne Hl0]];
        [discriminate|].
      pose proof (Hholds _ _ Hl0 eq_refl) as H0.
      pose proof (Hholds _ _ Hl eq_refl) as H1. congruence.
    + lia.
    + lia.
    + apply (mutex_main_ok_insert s _ g (I_Store (views s)) I_Done);
        [reflexivity|reflexivity|reflexivity|exact Hl|simpl; auto|exact Hmain].
  - (* wg.Done() *)
    specialize (Hst I_Unlock). specialize (Hfin I_Unlock). simpl in Hst, Hfin.
    destruct (holder_insert (mu s) (routines s) g I_Done I_Unlock
                Hl eq_refl eq_refl Hholder Hholds) as [Hholder' Hholds'].
    split; simpl; auto.
    + intros g0 tmp Hl0.
      apply list_lookup_insert_Some in Hl0 as [(_ & ? & _)|[_ Hl0]];
        [discriminate|eauto].
    + lia.
    + lia.
    + apply (mutex_main_ok_insert s _ g I_Done I_Unlock);
        [reflexivity|reflexivity|reflexivity|exact Hl|simpl; auto|exact Hmain].
  - (* p.mu.Unlock() *)
    specialize (Hst I_Returned). specialize (Hfin I_Returned).
    simpl in Hst, Hfin.
    split; simpl.
    + discriminate.
    + intros g0 pc0 Hl0 Hh. exfalso.
      apply list_lookup_insert_Some in Hl0 as [(_ & <- & _)|[Hne Hl0]];
        [discriminate|].
      specialize (Hholds _ _ Hl0 Hh). congruence.
    + intros g0 tmp Hl0.
      apply list_lookup_insert_Some in Hl0 as [(_ & ? & _)|[_ Hl0]];
        [discriminate|eauto].
    + lia.
    + lia.
    + apply (mutex_main_ok_insert s _ g I_Unlock I_Returned);
        [reflexivity|reflexivity|reflexivity|exact Hl|simpl; auto|exact Hmain].
Qed.

Lemma mutex_Inv_step t s s' : Inv s -> step t s = Step s' -> Inv s'.
Proof.
  destruct t; [apply mutex_Inv_step_main|apply mutex_Inv_step_inc].
Qed.

(** The counter of the wait group is never negative, and it is positive
    while a goroutine that has been started has not called [wg.Done()]. *)
Lemma mutex_wg_positive s g pc :
  Inv s -> routines s !! g = Some pc -> finished pc = 0%nat -> 0 < wg s.
Proof.
  intros Hinv Hl Hpc.
  pose proof (Pool.total_lt finished _ _ _ mutex_finished_le Hl Hpc).
  pose proof (mutex_registered_length _ (inv_main _ Hinv)).
  rewrite (inv_wg _ Hinv). lia.
Qed.

Lemma mutex_wg_nonneg s : Inv s -> 0 <= wg s.
Proof.
  intros Hinv.
  pose proof (Pool.total_le finished (routines s) mutex_finished_le).
  pose proof (mutex_registered_length _ (inv_main _ Hinv)).
  rewrite (inv_wg _ Hinv). lia.
Qed.

Lemma mutex_step_no_crash t s : Inv s -> step t s <> Crash.
Proof.
  intros Hinv. destruct t as [|g]; simpl.
  - unfold step_main. destruct (main s); try discriminate.
    + destruct (_ <? _); [|discriminate].
      rewrite WaitGroup.add_ok; [discriminate|].
      pose proof (mutex_wg_nonneg _ Hinv). lia.
    + now destruct (WaitGroup.wait _).
  - unfold step_inc.
    destruct (routines s !! g) as [pc|] eqn:Hl; [|discriminate].
    destruct pc; try discriminate.
    + now destruct (Mutex.lock _ _).
    + rewrite WaitGroup.done_ok; [discriminate|].
      now apply (mutex_wg_positive s g I_Done).
    + rewrite (inv_holds _ Hinv _ _ Hl eq_refl). simpl.
      now rewrite Nat.eqb_refl.
Qed.

Lemma mutex_measure_step t s s' :
  Inv s -> step t s = Step s' -> (measure s' < measure s)%nat.
Proof.
  intros Hinv Hstep. pose proof (inv_main _ Hinv) as Hmain.
  unfold main_ok in Hmain. unfold measure.
  destruct t as [|g]; simpl in Hstep.
  - apply mutex_step_main_inv in Hstep
      as [(i & Hm & Hlt & Hadd & ->)|[(i & Hm & Hle & ->)|
         [(i & Hm & ->)|[(Hm & Hzero & ->)|(Hm & ->)]]]];
      rewrite Hm in *; simpl.
    + lia.
    + lia.
    + rewrite GoInt.incr_small by (unfold GoInt.min_int; lia).
      rewrite Pool.total_app. unfold Pool.total at 2. simpl. lia.
    + lia.
    + lia.
  - apply mutex_step_inc_inv in Hstep as (pc & Hl & Hstep).
    pose proof (fun pc' => Pool.total_insert inc_steps (routines s) g pc pc' Hl)
      as Ht.
    destruct Hstep
      as [(-> & Hmu & ->)|[(-> & ->)|[(tmp & -> & ->)|
         [(-> & Hpos & ->)|(-> & Hmu & ->)]]]]; simpl.
    + specialize (Ht I_Load). simpl in Ht. lia.
    + specialize (Ht (I_Store (views s))). simpl in Ht. lia.
    + specialize (Ht I_Done). simpl in Ht. lia.
    + specialize (Ht I_Unlock). simpl in Ht. lia.
    + specialize (Ht I_Returned). simpl in Ht. lia.
Qed.

Lemma ready_moves s g pc :
  Inv s -> routines s !! g = Some pc -> ready (mu s) pc = true ->
  exists s', step_inc g s = Step s'.
Proof.
  intros Hinv Hl Hr.
  destruct (step_inc g s) as [s'| |] eqn:Hstep; [eauto| |].
  - exfalso. unfold step_inc in Hstep. rewrite Hl in Hstep.
    destruct pc; try discriminate.
    + simpl in Hr. destruct (mu s); discriminate.
    + now destruct (WaitGroup.done _).
    + now destruct (Mutex.unlock _ _).
  - exfalso. now apply (mutex_step_no_crash (IncView g) s).
Qed.

(** Until [main] returns, some goroutine can move. *)
Lemma mutex_progress s : Inv s -> main s <> M_Exit -> can_move step s.
Proof.
  intros Hinv Hm.
  destruct (step Main s) as [s1| |] eqn:HM.
  { exists Main, s1. exact HM. }
  2: { now apply mutex_step_no_crash in HM. }
  destruct (Pool.find_or_none (ready (mu s)) (routines s))
    as [(g & pc & Hl & Hr)|Hnone].
  { destruct (ready_moves _ _ _ Hinv Hl Hr) as [s1 Hs1].
    exists (IncView g), s1. exact Hs1. }
  exfalso.
  (* nobody holds the mutex, for its holder could move *)
  assert (Hmu : mu s = None).
  { destruct (mu s) as [h|] eqn:Hmu; [|reflexivity].
    destruct (inv_holder _ Hinv h Hmu) as (pc & Hl & Hh).
    rewrite Forall_lookup in Hnone. specialize (Hnone _ _ Hl).
    destruct pc; discriminate. }
  (* so every goroutine has returned *)
  assert (Hall : Forall (fun pc => finished pc = 1%nat) (routines s)).
  { eapply Forall_impl; [exact Hnone|]. rewrite Hmu.
    intros []; simpl; congruence. }
  pose proof (inv_wg _ Hinv) as Hwg. pose proof (inv_main _ Hinv) as Hmain.
  rewrite (Pool.total_Forall _ _ 1%nat Hall) in Hwg.
  unfold main_ok in Hmain.
  simpl in HM. unfold step_main in HM.
  destruct (main s) as [i|i| | |]; try discriminate; try congruence.
  - destruct (_ <? _); [|discriminate].
    now destruct (WaitGroup.add _ _).
  - destruct (WaitGroup.wait (wg s)) eqn:Hwait; [discriminate|].
    apply WaitGroup.wait_blocked in Hwait. simpl in Hwg. lia.
Qed.

(** *** The deferred function: [wg.Done()] comes before [p.mu.Unlock()] *)

Lemma mutex_spawned (m : nat) :
  Z.of_nat m = n ->
  run step (concat ((fun _ => [Main; Main]) <$> seq 0 m) ++ [Main]) init
  = Step (mkState 0 None n M_Wait (replicate m I_Lock) []).
Proof.
  intros Hm.
  destruct (run_rounds step
              (fun j s => s = mkState 0 None (Z.of_nat j) (M_Loop (Z.of_nat j))
                                (replicate j I_Lock) [])
              (fun _ => [Main; Main]) m) with (s := init)
    as (s1 & Hrun & ->); [|reflexivity|].
  - intros j s Hj ->. eexists. split; [|reflexivity].
    simpl. unfold step_main. simpl.
    destruct (Z.ltb_spec (Z.of_nat j) n); [|lia].
    rewrite WaitGroup.add_ok by lia. simpl.
    rewrite GoInt.incr_small
      by (unfold GoInt.min_int, GoInt.max_int in *; lia).
    rewrite <- replicate_S_end.
    replace (Z.of_nat (S j)) with (Z.of_nat j + 1) by lia. reflexivity.
  - rewrite run_app, Hrun. simpl. unfold step_main. simpl.
    destruct (Z.ltb_spec (Z.of_nat m) n); [lia|]. now rewrite Hm.
Qed.

(** What a goroutine that finds the mutex free does in four steps: it
    locks, reads, writes and calls [wg.Done()]. *)
Lemma mutex_four_steps (j m : nat) (rest : list inc_pc) :
  Z.of_nat m = n -> (j < m)%nat ->
  run step (replicate 4 (IncView j))
    (mkState (Z.of_nat j) None (Z.of_nat m - Z.of_nat j) M_Wait
       (replicate j I_Returned ++ I_Lock :: rest) [])
  = Step (mkState (Z.of_nat j + 1) (Some j) (Z.of_nat m - Z.of_nat j - 1)
            M_Wait (replicate j I_Returned ++ I_Unlock :: rest) []).
Proof.
  intros Hm Hj. simpl. unfold step_inc. simpl.
  rewrite Pool.segments_lookup, Pool.segments_insert. simpl.
  rewrite Pool.segments_lookup, Pool.segments_insert. simpl.
  rewrite Pool.segments_lookup, Pool.segments_insert. simpl.
  rewrite Pool.segments_lookup, Pool.segments_insert.
  rewrite WaitGroup.done_ok by lia.
  rewrite GoInt.incr_small
    by (unfold GoInt.min_int, GoInt.max_int in *; lia).
  reflexivity.
Qed.

(** The first [k] goroutines run one after the other. *)
Lemma mutex_in_turn (k m : nat) :
  Z.of_nat m = n -> (k <= m)%nat ->
  run step (concat ((fun g => replicate 5 (IncView g)) <$> seq 0 k))
    (mkState 0 None n M_Wait (replicate m I_Lock) [])
  = Step (mkState (Z.of_nat k) None (n - Z.of_nat k) M_Wait
            (replicate k I_Returned ++ replicate (m - k) I_Lock) []).
Proof.
  intros Hm Hk.
  destruct (run_rounds step
              (fun j s => s = mkState (Z.of_nat j) None (Z.of_nat m - Z.of_nat j)
                                M_Wait
                                (replicate j I_Returned ++
                                 replicate (m - j) I_Lock) [])
              (fun g => replicate 5 (IncView g)) k)
    with (s := mkState 0 None n M_Wait (replicate m I_Lock) [])
    as (s1 & Hrun & ->).
  - intros j s Hj ->. eexists. split; [|reflexivity].
    rewrite (Pool.segments_start j m) by lia.
    change (replicate 5 (IncView j))
      with (replicate 4 (IncView j) ++ [IncView j]).
    rewrite run_app, (mutex_four_steps j m _ Hm) by lia.
    simpl. unfold step_inc. simpl.
    rewrite Pool.segments_lookup, Pool.segments_insert, Pool.segments_end.
    simpl. rewrite Nat.eqb_refl.
    do 2 f_equal; lia.
  - simpl. rewrite Nat.sub_0_r, Z.sub_0_r. now rewrite Hm.
  - rewrite Hrun. now rewrite Hm.
Qed.

End Program.

(** At most one goroutine is between [p.mu.Lock()] and [p.mu.Unlock()]. *)
Lemma mutual_exclusion n s g1 g2 pc1 pc2 :
  Inv n s ->
  routines s !! g1 = Some pc1 -> holding pc1 = true ->
  routines s !! g2 = Some pc2 -> holding pc2 = true ->
  g1 = g2.
Proof.
  intros Hinv Hl1 Hh1 Hl2 Hh2.
  pose proof (inv_holds _ _ Hinv _ _ Hl1 Hh1) as H1.
  pose proof (inv_holds _ _ Hinv _ _ Hl2 Hh2) as H2.
  congruence.
Qed.

(** C4: [n] goroutines (100 in mutex.go), each adding 1 to [p.views]
    between [p.mu.Lock()] and [p.mu.Unlock()].  Whatever the schedule, the
    program does not fault; when [main] has returned, the counter is [n]
    and [n] is what was printed; no two goroutines are between
    [p.mu.Lock()] and [p.mu.Unlock()] at once; until then some goroutine can move; no
    schedule is longer than [7 * n + 3] steps; and every run can be
    carried on until [main] returns. *)
Theorem mutex_counter_exact (n : Z) (sched : list goroutine) :
  0 <= n <= GoInt.max_int ->
  run (step n) sched init <> Crash /\
  forall s, run (step n) sched init = Step s ->
    (main s = M_Exit -> views s = n /\ stdout s = [n]) /\
    (forall g1 g2 pc1 pc2,
       routines s !! g1 = Some pc1 -> holding pc1 = true ->
       routines s !! g2 = Some pc2 -> holding pc2 = true -> g1 = g2) /\
    (main s <> M_Exit -> can_move (step n) s) /\
    (length sched <= 7 * Z.to_nat n + 3)%nat /\
    (exists rest s', run (step n) (sched ++ rest) init = Step s' /\
                     main s' = M_Exit).
Proof.
  intros Hn. split.
  - apply (run_no_crash _ (Inv n)).
    + apply mutex_Inv_step, Hn.
    + intros t s. apply mutex_step_no_crash, Hn.
    + apply mutex_Inv_init, Hn.
  - intros s Hrun.
    assert (Hinv : Inv n s).
    { eapply run_invariant; [apply mutex_Inv_step, Hn|apply mutex_Inv_init, Hn|exact Hrun]. }
    split; [|split; [|split; [|split]]].
    + intros Hexit.
      pose proof (inv_main _ _ Hinv) as Hmain. unfold main_ok in Hmain.
      rewrite Hexit in Hmain. destruct Hmain as (Hlen & Hall & Hout).
      split; [|exact Hout].
      rewrite (inv_views _ _ Hinv), (Pool.total_Forall _ _ 1%nat); [lia|].
      eapply Forall_impl; [exact Hall|]. now intros [].
    + intros g1 g2 pc1 pc2. apply (mutual_exclusion n s g1 g2 pc1 pc2 Hinv).
    + intros Hm. now apply mutex_progress.
    + pose proof (run_bounded _ (Inv n) (mutex_Inv_step n Hn) (measure n) sched
                    _ _ (mutex_measure_step n Hn) (mutex_Inv_init n Hn) Hrun) as Hb.
      assert (Hinit : measure n init = (7 * Z.to_nat n + 3)%nat).
      { unfold measure. simpl. rewrite Z.sub_0_r. unfold Pool.total. simpl. lia. }
      lia.
    + destruct (run_completes _ (Inv n) (mutex_Inv_step n Hn) (measure n)
                  (fun s => main s = M_Exit))
        with (s := s) as (rest & s' & Hrest & Hexit).
      * intros s0. destruct (main s0); (now left) || (right; discriminate).
      * apply mutex_measure_step, Hn.
      * intros s0. apply mutex_progress, Hn.
      * exact Hinv.
      * exists rest, s'. rewrite run_app, Hrun. auto.
Qed.

Example mutex_go_run :
  run (step 100) (one_by_one 100) init
  = Step (mkState 100 None 0 M_Exit (replicate 100 I_Returned) [100]).
Proof. vm_compute. reflexivity. Qed.

Lemma mutex_counter_exact_witness :
  0 <= 100 <= GoInt.max_int /\
  run (step 100) (one_by_one 100) init <> Crash /\
  forall s, run (step 100) (one_by_one 100) init = Step s ->
    main s = M_Exit -> views s = 100 /\ stdout s = [100].
Proof.
  assert (H100 : 0 <= 100 <= GoInt.max_int) by (unfold GoInt.max_int; lia).
  split; [exact H100|].
  destruct (mutex_counter_exact 100 (one_by_one 100) H100) as [Hsafe Hrun].
  split; [exact Hsafe|].
  intros s Hs. apply (Hrun s Hs).
Defined.

(** X18: in mutex.go the deferred function calls [wg.Done()] before
    [p.mu.Unlock()].  With one goroutine or more there is a run in which
    [main] prints the counter, which is [n], and returns while the last
    goroutine still holds the mutex and has not reached
    [p.mu.Unlock()]. *)
Theorem exit_before_unlock (n : Z) :
  1 <= n <= GoInt.max_int ->
  run (step n) (done_first (Z.to_nat n)) init
  = Step (mkState n (Some (Z.to_nat n - 1)%nat) 0 M_Exit
            (replicate (Z.to_nat n - 1) I_Returned ++ [I_Unlock]) [n]).
Proof.
  intros Hn.
  assert (Hn0 : 0 <= n <= GoInt.max_int) by lia.
  set (m := Z.to_nat n).
  assert (Hm : Z.of_nat m = n) by lia.
  unfold done_first.
  rewrite run_app, (mutex_spawned n Hn0 m Hm).
  rewrite run_app, (mutex_in_turn n Hn0 (m - 1) m Hm) by lia.
  replace (m - (m - 1))%nat with 1%nat by lia.
  change (replicate 1 I_Lock) with [I_Lock].
  replace (n - Z.of_nat (m - 1)) with (Z.of_nat m - Z.of_nat (m - 1)) by lia.
  rewrite run_app.
  rewrite (mutex_four_steps n Hn0 (m - 1) m [] Hm) by lia.
  simpl. unfold step_main. simpl.
  replace (Z.of_nat m - Z.of_nat (m - 1) - 1) with 0 by lia. simpl.
  replace (Z.of_nat (m - 1) + 1) with n by lia. reflexivity.
Qed.

(** The hundred goroutines of mutex.go. *)
Lemma exit_before_unlock_witness :
  1 <= 100 <= GoInt.max_int /\
  run (step 100) (done_first (Z.to_nat 100)) init
  = Step (mkState 100 (Some (Z.to_nat 100 - 1)%nat) 0 M_Exit
            (replicate (Z.to_nat 100 - 1) I_Returned ++ [I_Unlock]) [100]).
Proof.
  assert (H : 1 <= 100 <= GoInt.max_int) by (unfold GoInt.max_int; lia).
  split; [exact H|].
  exact (exit_before_unlock 100 H).
Defined.

End MutexCounter.

(** ** The counter without the mutex *)

Module RacyCounter.
Import Sched.

(** The example of the mutex notes that leaves the lock out:
<<
    var counter int

    func increment() {
        counter++
    }

    func main() {
        for i := 0; i < 1000; i++ {
            go increment()
        }

        // Wait manually (bad practice)
        fmt.Scanln()
        fmt.Println("Final Counter:", counter)
    }
>> *)

(** A goroutine that runs [increment]: [counter++] reads the variable and
    then writes it. *)
Inductive inc_pc : Type :=
| I_Load
| I_Store (tmp : Z)
| I_Returned.

(** [main]: at the loop test and the [go] statement, at [fmt.Scanln()],
    at [fmt.Println], returned. *)
Inductive main_pc : Type :=
| M_Loop (i : Z)
| M_Scanln
| M_Println
| M_Exit.

Record state : Type := mkState {
  counter : Z;
  main : main_pc;
  routines : list inc_pc;
  (** the numbers printed after "Final Counter:" *)
  stdout : list Z
}.

Inductive goroutine : Type := Main | Increment (g : nat).

Definition init : state := mkState 0 (M_Loop 0) [] [].

(** Every goroutine reads the counter before any of them writes it. *)
Definition all_read_first (m : nat) : list goroutine :=
  concat ((fun _ => [Main]) <$> seq 0 m) ++ [Main] ++
  concat ((fun g => [Increment g]) <$> seq 0 m) ++
  concat ((fun g => [Increment g]) <$> seq 0 m) ++ [Main; Main].

(** The goroutines run one after the other. *)
Definition one_by_one (m : nat) : list goroutine :=
  concat ((fun _ => [Main]) <$> seq 0 m) ++ [Main] ++
  concat ((fun g => [Increment g; Increment g]) <$> seq 0 m) ++ [Main; Main].

Section Program.
(** The number of goroutines, 1000 in the notes. *)
Variable n : Z.

(** [fmt.Scanln()] returns when a line is entered, which is for the user
    to decide: [main] may pass it at any time. *)
Definition step_main (s : state) : step_result state :=
  match main s with
  | M_Loop i =>
      if i <? n
      then Step (mkState (counter s) (M_Loop (GoInt.incr i))
                   (routines s ++ [I_Load]) (stdout s))
      else Step (mkState (counter s) M_Scanln (routines s) (stdout s))
  | M_Scanln => Step (mkState (counter s) M_Println (routines s) (stdout s))
  | M_Println =>
      Step (mkState (counter s) M_Exit (routines s) (stdout s ++ [counter s]))
  | M_Exit => Block
  end.

(** When [main] has returned the program is over: no goroutine moves. *)
Definition step_increment (g : nat) (s : state) : step_result state :=
  match main s with
  | M_Exit => Block
  | _ =>
      match routines s !! g with
      | None => Block
      | Some I_Load =>
          Step (mkState (counter s) (main s)
                  (<[g := I_Store (counter s)]> (routines s)) (stdout s))
      | Some (I_Store tmp) =>
          Step (mkState (GoInt.incr tmp) (main s)
                  (<[g := I_Returned]> (routines s)) (stdout s))
      | Some I_Returned => Block
      end
  end.

Definition step (t : goroutine) (s : state) : step_result state :=
  match t with
  | Main => step_main s
  | Increment g => step_increment g s
  end.

(** *** The invariant *)

(** The goroutine has written the counter. *)
Definition stored (pc : inc_pc) : nat :=
  match pc with
  | I_Returned => 1
  | _ => 0
  end.

(** What the goroutine has read is not above the number of writes. *)
Definition tmp_ok (writes : Z) (pc : inc_pc) : Prop :=
  match pc with
  | I_Store tmp => 0 <= tmp <= writes
  | _ => True
  end.

Definition main_ok (s : state) : Prop :=
  let len := Z.of_nat (length (routines s)) in
  match main s with
  | M_Loop i => 0 <= i <= n /\ len = i /\ stdout s = []
  | M_Scanln | M_Println => len = n /\ stdout s = []
  | M_Exit => len = n /\ stdout s = [counter s]
  end.

Record Inv (s : state) : Prop := mkInv {
  inv_tmp :
    Forall (tmp_ok (Z.of_nat (Pool.total stored (routines s)))) (routines s);
  (** the counter is not above the number of writes, and not 0 after a
      write *)
  inv_counter : 0 <= counter s <= Z.of_nat (Pool.total stored (routines s));
  inv_written : (0 < Pool.total stored (routines s))%nat -> 1 <= counter s;
  inv_main : main_ok s
}.

(** *** The steps left *)

Definition inc_steps (pc : inc_pc) : nat :=
  match pc with
  | I_Load => 2
  | I_Store _ => 1
  | I_Returned => 0
  end.

Definition main_steps (m : main_pc) : nat :=
  match m with
  | M_Loop i => 3 * Z.to_nat (n - i) + 3
  | M_Scanln => 2
  | M_Println => 1
  | M_Exit => 0
  end.

Definition measure (s : state) : nat :=
  main_steps (main s) + Pool.total inc_steps (routines s).

(** *** What a step can be *)

Lemma racy_step_main_inv s s' :
  step_main s = Step s' ->
  (exists i, main s = M_Loop i /\ i < n /\
     s' = mkState (counter s) (M_Loop (GoInt.incr i))
            (routines s ++ [I_Load]) (stdout s)) \/
  (exists i, main s = M_Loop i /\ n <= i /\
     s' = mkState (counter s) M_Scanln (routines s) (stdout s)) \/
  (main s = M_Scanln /\
     s' = mkState (counter s) M_Println (routines s) (stdout s)) \/
  (main s = M_Println /\
     s' = mkState (counter s) M_Exit (routines s) (stdout s ++ [counter s])).
Proof.
  unfold step_main. intros Hstep.
  destruct (main s) as [i| | |]; try discriminate.
  - destruct (Z.ltb_spec i n); injection Hstep as <-.
    + left. eauto.
    + right; left. eauto.
  - injection Hstep as <-. do 2 right; left. auto.
  - injection Hstep as <-. do 3 right. auto.
Qed.

Lemma racy_step_increment_inv g s s' :
  step_increment g s = Step s' ->
  main s <> M_Exit /\
  exists pc, routines s !! g = Some pc /\
  ((pc = I_Load /\
      s' = mkState (counter s) (main s)
             (<[g := I_Store (counter s)]> (routines s)) (stdout s)) \/
   (exists tmp, pc = I_Store tmp /\
      s' = mkState (GoInt.incr tmp) (main s)
             (<[g := I_Returned]> (routines s)) (stdout s))).
Proof.
  unfold step_increment. intros Hstep.
  assert (Hm : main s <> M_Exit) by (intros Hm; now rewrite Hm in Hstep).
  split; [exact Hm|].
  assert (Hs : match routines s !! g with
               | None => Block
               | Some I_Load =>
                   Step (mkState (counter s) (main s)
                           (<[g := I_Store (counter s)]> (routines s)) (stdout s))
               | Some (I_Store tmp) =>
                   Step (mkState (GoInt.incr tmp) (main s)
                           (<[g := I_Returned]> (routines s)) (stdout s))
               | Some I_Returned => Block
               end = Step s') by (now destruct (main s)).
  clear Hstep.
  destruct (routines s !! g) as [[|tmp|]|]; try discriminate;
    injection Hs as <-; eauto 6.
Qed.

(** *** The invariant is kept *)

Hypothesis n_range : 0 <= n <= GoInt.max_int.

Lemma racy_Inv_init : Inv init.
Proof.
  split; simpl.
  - constructor.
  - unfold Pool.total. simpl. lia.
  - unfold Pool.total. simpl. lia.
  - unfold main_ok. simpl. repeat split; lia.
Qed.

Lemma racy_stored_le pc : (stored pc <= 1)%nat.
Proof. destruct pc; simpl; lia. Qed.

Lemma tmp_ok_mono a b pc : a <= b -> tmp_ok a pc -> tmp_ok b pc.
Proof. destruct pc; simpl; auto. lia. Qed.

Lemma racy_Inv_step_main s s' : Inv s -> step_main s = Step s' -> Inv s'.
Proof.
  intros [Htmp Hc Hw Hmain] Hstep. unfold main_ok in Hmain.
  destruct s as [c m rs out]; simpl in *.
  apply racy_step_main_inv in Hstep
    as [(i & Hm & Hlt & ->)|[(i & Hm & Hle & ->)|[(Hm & ->)|(Hm & ->)]]];
    simpl in *; subst m; simpl in *.
  - destruct Hmain as (Hi & Hlen & Hout).
    assert (Ht : Pool.total stored (rs ++ [I_Load]) = Pool.total stored rs).
    { rewrite Pool.total_app. unfold Pool.total at 2. simpl. lia. }
    split; unfold main_ok; simpl; rewrite ?Ht; try assumption.
    + apply Forall_app. split; [exact Htmp|]. now repeat constructor.
    + rewrite GoInt.incr_small by (unfold GoInt.min_int, GoInt.max_int in *; lia).
      rewrite length_app. simpl. repeat split; try lia. exact Hout.
  - split; unfold main_ok; simpl; try assumption.
    destruct Hmain as (Hi & Hlen & Hout). split; [lia|exact Hout].
  - split; unfold main_ok; simpl; assumption.
  - split; unfold main_ok; simpl; try assumption.
    destruct Hmain as [Hlen Hout]. rewrite Hout. auto.
Qed.

Lemma racy_Inv_step_increment g s s' :
  Inv s -> step_increment g s = Step s' -> Inv s'.
Proof.
  intros [Htmp Hc Hw Hmain] Hstep.
  apply racy_step_increment_inv in Hstep as (Hne & pc & Hl & Hstep).
  pose proof (fun pc' => Pool.total_insert stored (routines s) g pc pc' Hl)
    as Ht.
  assert (Hmain' : forall c' pc',
            main_ok (mkState c' (main s) (<[g := pc']> (routines s))
                       (stdout s))).
  { intros c' pc'. unfold main_ok in *. simpl. rewrite length_insert.
    destruct (main s); try assumption. congruence. }
  destruct Hstep as [(-> & ->)|(tmp & -> & ->)].
  - (* the read *)
    specialize (Ht (I_Store (counter s))). simpl in Ht.
    assert (Heq : Pool.total stored (<[g := I_Store (counter s)]> (routines s))
                  = Pool.total stored (routines s)) by lia.
    split; simpl; rewrite ?Heq; try assumption; [|apply Hmain'].
    apply Forall_insert; [exact Htmp|]. simpl. lia.
  - (* the write *)
    specialize (Ht I_Returned). simpl in Ht.
    assert (Heq : Pool.total stored (<[g := I_Returned]> (routines s))
                  = S (Pool.total stored (routines s))) by lia.
    assert (Hok : 0 <= tmp <= Z.of_nat (Pool.total stored (routines s))).
    { rewrite Forall_lookup in Htmp. exact (Htmp g _ Hl). }
    assert (Hlen : (Pool.total stored (<[g := I_Returned]> (routines s))
                    <= length (routines s))%nat).
    { rewrite <- (length_insert (routines s) g I_Returned).
      apply Pool.total_le, racy_stored_le. }
    assert (Hn : Z.of_nat (length (routines s)) <= n).
    { unfold main_ok in Hmain. destruct (main s); lia. }
    assert (Hincr : GoInt.incr tmp = tmp + 1).
    { apply GoInt.incr_small. unfold GoInt.min_int, GoInt.max_int in *. lia. }
    split; simpl; rewrite ?Heq, ?Hincr; try lia; [|apply Hmain'].
    apply Forall_insert; [|exact I].
    eapply Forall_impl; [exact Htmp|].
    intros pc'. apply tmp_ok_mono. lia.
Qed.

Lemma racy_Inv_step t s s' : Inv s -> step t s = Step s' -> Inv s'.
Proof.
  destruct t; [apply racy_Inv_step_main|apply racy_Inv_step_increment].
Qed.

Lemma racy_step_no_crash t s : step t s <> Crash.
Proof.
  destruct t as [|g]; simpl.
  - unfold step_main. destruct (main s); try discriminate.
    now destruct (_ <? _).
  - unfold step_increment.
    destruct (main s); try discriminate;
      now destruct (routines s !! g) as [[| |]|].
Qed.

Lemma racy_measure_step t s s' :
  Inv s -> step t s = Step s' -> (measure s' < measure s)%nat.
Proof.
  intros [_ _ _ Hmain] Hstep. unfold main_ok in Hmain. unfold measure.
  destruct t as [|g]; simpl in Hstep.
  - destruct s as [c m rs out]; simpl in *.
    apply racy_step_main_inv in Hstep
      as [(i & Hm & Hlt & ->)|[(i & Hm & Hle & ->)|[(Hm & ->)|(Hm & ->)]]];
      simpl in *; subst m; simpl in *; try lia.
    rewrite GoInt.incr_small by (unfold GoInt.min_int, GoInt.max_int in *; lia).
    rewrite Pool.total_app. unfold Pool.total at 2. simpl. lia.
  - apply racy_step_increment_inv in Hstep as (Hne & pc & Hl & Hstep).
    pose proof (fun pc' => Pool.total_insert inc_steps (routines s) g pc pc' Hl)
      as Ht.
    destruct Hstep as [(-> & ->)|(tmp & -> & ->)]; simpl.
    + specialize (Ht (I_Store (counter s))). simpl in Ht. lia.
    + specialize (Ht I_Returned). simpl in Ht. lia.
Qed.

(** *** Two schedules *)

(** [main] starts the goroutines. *)
Lemma racy_spawned (m : nat) :
  Z.of_nat m = n ->
  run step (concat ((fun _ => [Main]) <$> seq 0 m) ++ [Main]) init
  = Step (mkState 0 M_Scanln (replicate m I_Load) []).
Proof.
  intros Hm.
  destruct (run_rounds step
              (fun j s => s = mkState 0 (M_Loop (Z.of_nat j))
                                (replicate j I_Load) [])
              (fun _ => [Main]) m) with (s := init)
    as (s1 & Hrun & ->); [|reflexivity|].
  - intros j s Hj ->. eexists. split; [|reflexivity].
    simpl. unfold step_main. simpl.
    destruct (Z.ltb_spec (Z.of_nat j) n); [|lia].
    rewrite GoInt.incr_small by (unfold GoInt.min_int, GoInt.max_int in *; lia).
    rewrite <- replicate_S_end. do 3 f_equal. lia.
  - rewrite run_app, Hrun. simpl. unfold step_main. simpl.
    destruct (Z.ltb_spec (Z.of_nat m) n); [lia|reflexivity].
Qed.

(** Every goroutine reads 0; then every goroutine writes 1. *)
Lemma racy_all_read (m : nat) :
  exists s',
    run step (concat ((fun g => [Increment g]) <$> seq 0 m))
      (mkState 0 M_Scanln (replicate m I_Load) []) = Step s' /\
    s' = mkState 0 M_Scanln (replicate m (I_Store 0)) [].
Proof.
  destruct (run_rounds step
              (fun j s => s = mkState 0 M_Scanln
                                (replicate j (I_Store 0) ++
                                 replicate (m - j) I_Load) [])
              (fun g => [Increment g]) m)
    with (s := mkState 0 M_Scanln (replicate m I_Load) [])
    as (s1 & Hrun & ->).
  - intros j s Hj ->. eexists. split; [|reflexivity].
    rewrite (Pool.segments_start j m) by exact Hj.
    simpl. unfold step_increment. simpl.
    rewrite Pool.segments_lookup, Pool.segments_insert, Pool.segments_end.
    reflexivity.
  - simpl. now rewrite Nat.sub_0_r.
  - exists (mkState 0 M_Scanln (replicate m (I_Store 0)) []).
    split; [|reflexivity].
    rewrite Hrun, Nat.sub_diag. simpl. now rewrite app_nil_r.
Qed.

Lemma racy_all_write (m : nat) :
  (0 < m)%nat ->
  run step (concat ((fun g => [Increment g]) <$> seq 0 m))
    (mkState 0 M_Scanln (replicate m (I_Store 0)) [])
  = Step (mkState 1 M_Scanln (replicate m I_Returned) []).
Proof.
  intros Hm.
  destruct (run_rounds step
              (fun j s => s = mkState (if j is O then 0 else 1) M_Scanln
                                (replicate j I_Returned ++
                                 replicate (m - j) (I_Store 0)) [])
              (fun g => [Increment g]) m)
    with (s := mkState 0 M_Scanln (replicate m (I_Store 0)) [])
    as (s1 & Hrun & ->).
  - intros j s Hj ->. eexists. split; [|reflexivity].
    rewrite (Pool.segments_start j m) by exact Hj.
    simpl. unfold step_increment. simpl.
    rewrite Pool.segments_lookup, Pool.segments_insert, Pool.segments_end.
    reflexivity.
  - simpl. now rewrite Nat.sub_0_r.
  - rewrite Hrun, Nat.sub_diag. simpl. rewrite app_nil_r.
    now destruct m; [lia|].
Qed.

(** The goroutines run one after the other: each reads what the one
    before it has written. *)
Lemma racy_in_turn (m : nat) :
  Z.of_nat m = n ->
  run step (concat ((fun g => [Increment g; Increment g]) <$> seq 0 m))
    (mkState 0 M_Scanln (replicate m I_Load) [])
  = Step (mkState n M_Scanln (replicate m I_Returned) []).
Proof.
  intros Hm.
  destruct (run_rounds step
              (fun j s => s = mkState (Z.of_nat j) M_Scanln
                                (replicate j I_Returned ++
                                 replicate (m - j) I_Load) [])
              (fun g => [Increment g; Increment g]) m)
    with (s := mkState 0 M_Scanln (replicate m I_Load) [])
    as (s1 & Hrun & ->).
  - intros j s Hj ->. eexists. split; [|reflexivity].
    rewrite (Pool.segments_start j m) by exact Hj.
    simpl. unfold step_increment. simpl.
    rewrite Pool.segments_lookup, Pool.segments_insert. simpl.
    rewrite Pool.segments_lookup, Pool.segments_insert, Pool.segments_end.
    rewrite GoInt.incr_small by (unfold GoInt.min_int, GoInt.max_int in *; lia).
    do 2 f_equal. lia.
  - simpl. now rewrite Nat.sub_0_r.
  - rewrite Hrun, Nat.sub_diag. simpl. rewrite app_nil_r. now rewrite Hm.
Qed.

End Program.

(** X11: the counter of the notes that leave the mutex out, with [n]
    goroutines (1000 there).  Whatever the schedule, the program does not
    fault, the counter is never above the number of goroutines that have
    written it, which is [n] at most, and never below 1 once one has;
    what [main] prints is the counter at that time; and no run is longer
    than [3 * n + 3] steps. *)
Theorem racy_counter_bounds (n : Z) (sched : list goroutine) :
  0 <= n <= GoInt.max_int ->
  run (step n) sched init <> Crash /\
  forall s, run (step n) sched init = Step s ->
    0 <= counter s <= Z.of_nat (Pool.total stored (routines s)) /\
    Z.of_nat (Pool.total stored (routines s))
      <= Z.of_nat (length (routines s)) <= n /\
    ((0 < Pool.total stored (routines s))%nat -> 1 <= counter s) /\
    (main s = M_Exit -> stdout s = [counter s]) /\
    (length sched <= 3 * Z.to_nat n + 3)%nat.
Proof.
  intros Hn. split.
  - apply (run_no_crash _ (fun _ => True)).
    + intros t s s' _ _. exact I.
    + intros t s _. apply racy_step_no_crash, Hn.
    + exact I.
  - intros s Hrun.
    assert (Hinv : Inv n s).
    { eapply run_invariant;
        [apply racy_Inv_step, Hn|apply racy_Inv_init, Hn|exact Hrun]. }
    pose proof (Pool.total_le stored (routines s) racy_stored_le) as Hle.
    pose proof (inv_main _ _ Hinv) as Hmain. unfold main_ok in Hmain.
    split; [apply (inv_counter _ _ Hinv)|].
    split; [destruct (main s); lia|].
    split; [apply (inv_written _ _ Hinv)|].
    split; [intros Hexit; rewrite Hexit in Hmain; tauto|].
    pose proof (run_bounded _ (Inv n) (racy_Inv_step n Hn) (measure n) sched
                  _ _ (racy_measure_step n Hn) (racy_Inv_init n Hn) Hrun) as Hb.
    assert (Hinit : measure n init = (3 * Z.to_nat n + 3)%nat).
    { unfold measure. simpl. rewrite Z.sub_0_r. unfold Pool.total. simpl. lia. }
    lia.
Qed.

(** X12: without the mutex the result depends on the schedule.  With [n]
    goroutines, [n] at least 1, there is a run in which every goroutine
    returns and [main] prints 1 (every goroutine reads the counter before
    any writes it: all the increments but one are lost), and a run in which
    every goroutine returns and [main] prints [n]. *)
Theorem racy_counter_lost_updates (n : Z) :
  1 <= n <= GoInt.max_int ->
  run (step n) (all_read_first (Z.to_nat n)) init
    = Step (mkState 1 M_Exit (replicate (Z.to_nat n) I_Returned) [1]) /\
  run (step n) (one_by_one (Z.to_nat n)) init
    = Step (mkState n M_Exit (replicate (Z.to_nat n) I_Returned) [n]).
Proof.
  intros Hn.
  assert (Hm : Z.of_nat (Z.to_nat n) = n) by lia.
  assert (Hn0 : 0 <= n <= GoInt.max_int) by lia.
  split.
  - unfold all_read_first.
    rewrite app_assoc, run_app, (racy_spawned n Hn0 _ Hm).
    destruct (racy_all_read n (Z.to_nat n)) as (s1 & Hread & ->).
    rewrite run_app, Hread.
    rewrite run_app, (racy_all_write n) by lia.
    reflexivity.
  - unfold one_by_one.
    rewrite app_assoc, run_app, (racy_spawned n Hn0 _ Hm).
    rewrite run_app, (racy_in_turn n Hn0 _ Hm).
    reflexivity.
Qed.

(** The thousand goroutines of the notes. *)
Lemma racy_counter_bounds_witness :
  0 <= 1000 <= GoInt.max_int /\
  run (step 1000) (all_read_first 1000) init <> Crash /\
  forall s, run (step 1000) (all_read_first 1000) init = Step s ->
    0 <= counter s <= Z.of_nat (Pool.total stored (routines s)) /\
    Z.of_nat (Pool.total stored (routines s))
      <= Z.of_nat (length (routines s)) <= 1000 /\
    ((0 < Pool.total stored (routines s))%nat -> 1 <= counter s) /\
    (main s = M_Exit -> stdout s = [counter s]) /\
    (length (all_read_first 1000) <= 3 * Z.to_nat 1000 + 3)%nat.
Proof.
  assert (H : 0 <= 1000 <= GoInt.max_int) by (unfold GoInt.max_int; lia).
  split; [exact H|].
  exact (racy_counter_bounds 1000 (all_read_first 1000) H).
Defined.

Lemma racy_counter_lost_updates_witness :
  1 <= 1000 <= GoInt.max_int /\
  run (step 1000) (all_read_first (Z.to_nat 1000)) init
    = Step (mkState 1 M_Exit (replicate (Z.to_nat 1000) I_Returned) [1]) /\
  run (step 1000) (one_by_one (Z.to_nat 1000)) init
    = Step (mkState 1000 M_Exit (replicate (Z.to_nat 1000) I_Returned) [1000]).
Proof.
  assert (H : 1 <= 1000 <= GoInt.max_int) by (unfold GoInt.max_int; lia).
  split; [exact H|].
  exact (racy_counter_lost_updates 1000 H).
Defined.

End RacyCounter.

(** ** goRoutines.go: eleven tasks and a wait group *)

Module GoRoutines.
Import Sched.

(** <<
    func task(id int, w *sync.WaitGroup) {
        defer w.Done()
        fmt.Println("Doing Task:",id)
    }

    func main(){
        var wg sync.WaitGroup
        for i:=0;i<=10;i++{
            wg.Add(1)
            go task(i,&wg)
        }

        wg.Wait()
    }
>> *)

(** A goroutine that runs [task]: at [fmt.Println], at the deferred
    [w.Done()], returned. *)
Inductive task_pc : Type :=
| T_Println
| T_Done
| T_Returned.

Record task : Type := mkTask { id : Z; pc : task_pc }.

(** [main]: at the loop test and [wg.Add(1)], at the [go] statement, at
    [wg.Wait()], returned. *)
Inductive main_pc : Type :=
| M_Loop (i : Z)
| M_Go (i : Z)
| M_Wait
| M_Exit.

Record state : Type := mkState {
  wg : WaitGroup.waitgroup;
  main : main_pc;
  tasks : list task;
  (** the ids printed after "Doing Task:" *)
  stdout : list Z
}.

Inductive goroutine : Type := Main | Task (g : nat).

Definition init : state := mkState WaitGroup.new (M_Loop 0) [] [].

(** A schedule in which the tasks run while [main] is still in its loop. *)
Definition eager (k : nat) : list goroutine :=
  concat ((fun g => [Main; Main; Task g; Task g]) <$> seq 0 k) ++ [Main; Main].

(** A schedule in which [main] starts every task, the tasks print in the
    order of a list, and then call [w.Done()]. *)
Definition in_order (l : list nat) : list goroutine :=
  (concat ((fun _ => [Main; Main]) <$> seq 0 (length l)) ++ [Main]) ++
  (Task <$> l) ++
  concat ((fun g => [Task g]) <$> seq 0 (length l)) ++ [Main].

(** The tasks 0..m-1, task [g] at the statement [pc_of g]. *)
Definition table (m : nat) (pc_of : nat -> task_pc) : list task :=
  (fun g => mkTask (Z.of_nat g) (pc_of g)) <$> seq 0 m.

(** Where a task is when the tasks of [p] have printed. *)
Definition printed (p : list nat) (g : nat) : task_pc :=
  if bool_decide (g ∈ p) then T_Done else T_Println.

(** Where a task is when the first [j] tasks have called [w.Done()]. *)
Definition returned (j g : nat) : task_pc :=
  if (g <? j)%nat then T_Returned else T_Done.

Section Program.
(** The bound of the loop, 10 in goRoutines.go: the tasks are 0..last. *)
Variable last : Z.

Definition step_main (s : state) : step_result state :=
  match main s with
  | M_Loop i =>
      if i <=? last
      then match WaitGroup.add 1 (wg s) with
           | WaitGroup.AddOk wg' =>
               Step (mkState wg' (M_Go i) (tasks s) (stdout s))
           | WaitGroup.AddFault => Crash
           end
      else Step (mkState (wg s) M_Wait (tasks s) (stdout s))
  | M_Go i =>
      Step (mkState (wg s) (M_Loop (GoInt.incr i))
              (tasks s ++ [mkTask i T_Println]) (stdout s))
  | M_Wait =>
      match WaitGroup.wait (wg s) with
      | WaitGroup.WaitReturns =>
          Step (mkState (wg s) M_Exit (tasks s) (stdout s))
      | WaitGroup.WaitBlocked => Block
      end
  | M_Exit => Block
  end.

Definition step_task (g : nat) (s : state) : step_result state :=
  match tasks s !! g with
  | None => Block
  | Some t =>
      match pc t with
      | T_Println =>
          Step (mkState (wg s) (main s)
                  (<[g := mkTask (id t) T_Done]> (tasks s))
                  (stdout s ++ [id t]))
      | T_Done =>
          match WaitGroup.done (wg s) with
          | WaitGroup.AddOk wg' =>
              Step (mkState wg' (main s)
                      (<[g := mkTask (id t) T_Returned]> (tasks s))
                      (stdout s))
          | WaitGroup.AddFault => Crash
          end
      | T_Returned => Block
      end
  end.

Definition step (t : goroutine) (s : state) : step_result state :=
  match t with
  | Main => step_main s
  | Task g => step_task g s
  end.

(** *** The invariant *)

(** The task has called [w.Done()]. *)
Definition finished (t : task) : nat :=
  match pc t with
  | T_Returned => 1
  | _ => 0
  end.

(** What the task has printed. *)
Definition printed_by (t : task) : list Z :=
  match pc t with
  | T_Println => []
  | _ => [id t]
  end.

(** The calls of [wg.Add(1)] made so far. *)
Definition registered (m : main_pc) : Z :=
  match m with
  | M_Loop i => i
  | M_Go i => i + 1
  | _ => last + 1
  end.

Definition main_ok (s : state) : Prop :=
  let len := Z.of_nat (length (tasks s)) in
  match main s with
  | M_Loop i => 0 <= i <= last + 1 /\ len = i
  | M_Go i => 0 <= i <= last /\ len = i
  | M_Wait => len = last + 1
  | M_Exit => len = last + 1 /\ Forall (fun t => finished t = 1%nat) (tasks s)
  end.

Record Inv (s : state) : Prop := mkInv {
  (** the counter is the number of calls of [Add(1)] less the number of
      calls of [Done()] *)
  inv_wg : wg s = registered (main s) - Z.of_nat (Pool.total finished (tasks s));
  inv_main : main_ok s;
  inv_ids : id <$> tasks s = seqZ 0 (Z.of_nat (length (tasks s)));
  inv_out : stdout s ≡ₚ Pool.gather printed_by (tasks s)
}.

(** *** The steps left *)

Definition task_steps (t : task) : nat :=
  match pc t with
  | T_Println => 2
  | T_Done => 1
  | T_Returned => 0
  end.

Definition main_steps (m : main_pc) : nat :=
  match m with
  | M_Loop i => 4 * Z.to_nat (last + 1 - i) + 2
  | M_Go i => 4 * Z.to_nat (last + 1 - i) + 1
  | M_Wait => 1
  | M_Exit => 0
  end.

Definition measure (s : state) : nat :=
  main_steps (main s) + Pool.total task_steps (tasks s).

(** A task that can move. *)
Definition ready (t : task) : bool :=
  match pc t with
  | T_Returned => false
  | _ => true
  end.

(** *** What a step can be *)

Lemma tasks_step_main_inv s s' :
  step_main s = Step s' ->
  (exists i, main s = M_Loop i /\ i <= last /\ 0 <= wg s + 1 /\
     s' = mkState (wg s + 1) (M_Go i) (tasks s) (stdout s)) \/
  (exists i, main s = M_Loop i /\ last < i /\
     s' = mkState (wg s) M_Wait (tasks s) (stdout s)) \/
  (exists i, main s = M_Go i /\
     s' = mkState (wg s) (M_Loop (GoInt.incr i))
            (tasks s ++ [mkTask i T_Println]) (stdout s)) \/
  (main s = M_Wait /\ wg s = 0 /\
     s' = mkState (wg s) M_Exit (tasks s) (stdout s)).
Proof.
  unfold step_main. intros Hstep.
  destruct (main s) as [i|i| |]; try discriminate.
  - destruct (Z.leb_spec i last).
    + unfold WaitGroup.add in Hstep.
      destruct (Z.ltb_spec (wg s + 1) 0); [discriminate|].
      injection Hstep as <-. left. eauto 6.
    + injection Hstep as <-. right; left. eauto.
  - injection Hstep as <-. do 2 right; left. eauto.
  - destruct (WaitGroup.wait (wg s)) eqn:Hw; [|discriminate].
    apply WaitGroup.wait_returns in Hw.
    injection Hstep as <-. do 3 right. auto.
Qed.

Lemma tasks_step_task_inv g s s' :
  step_task g s = Step s' ->
  exists t, tasks s !! g = Some t /\
  ((pc t = T_Println /\
      s' = mkState (wg s) (main s) (<[g := mkTask (id t) T_Done]> (tasks s))
             (stdout s ++ [id t])) \/
   (pc t = T_Done /\ 0 < wg s /\
      s' = mkState (wg s - 1) (main s)
             (<[g := mkTask (id t) T_Returned]> (tasks s)) (stdout s))).
Proof.
  unfold step_task. intros Hstep.
  destruct (tasks s !! g) as [t|]; [|discriminate].
  exists t. split; [reflexivity|].
  destruct (pc t); try discriminate.
  - injection Hstep as <-. left. auto.
  - unfold WaitGroup.done, WaitGroup.add in Hstep.
    destruct (Z.ltb_spec (wg s + -1) 0); [discriminate|].
    injection Hstep as <-. right.
    split; [reflexivity|]. split; [lia|reflexivity].
Qed.

(** *** The invariant is kept *)

Hypothesis last_range : -1 <= last < GoInt.max_int.

Lemma tasks_Inv_init : Inv init.
Proof.
  split; simpl; try reflexivity.
  unfold main_ok. simpl. lia.
Qed.

Lemma tasks_finished_le t : (finished t <= 1)%nat.
Proof. unfold finished. destruct (pc t); lia. Qed.

Lemma tasks_registered_length s :
  main_ok s -> Z.of_nat (length (tasks s)) <= registered (main s).
Proof. unfold main_ok. destruct (main s); simpl; lia. Qed.

Lemma tasks_main_ok_insert s s' g t t' :
  main s' = main s ->
  tasks s' = <[g := t']> (tasks s) ->
  tasks s !! g = Some t ->
  (finished t = 1%nat -> finished t' = 1%nat) ->
  main_ok s -> main_ok s'.
Proof.
  unfold main_ok. intros -> -> Hl Hfin. rewrite length_insert.
  destruct (main s); try tauto.
  intros [Hlen Hall]. split; [exact Hlen|].
  apply Forall_insert; [exact Hall|].
  apply Hfin. exact (Forall_lookup_1 _ _ _ _ Hall Hl).
Qed.

Lemma tasks_Inv_step_main s s' : Inv s -> step_main s = Step s' -> Inv s'.
Proof.
  intros [Hwg Hmain Hids Hout] Hstep. unfold main_ok in Hmain.
  apply tasks_step_main_inv in Hstep
    as [(i & Hm & Hle & Hadd & ->)|[(i & Hm & Hlt & ->)|
       [(i & Hm & ->)|(Hm & Hzero & ->)]]];
    rewrite Hm in *; simpl in *.
  - (* wg.Add(1) *)
    split; simpl; auto; [lia|]. unfold main_ok. simpl. lia.
  - (* the loop is over *)
    split; simpl; auto; [lia|]. unfold main_ok. simpl. lia.
  - (* go task(i, &wg) *)
    destruct Hmain as [Hi Hlen].
    rewrite GoInt.incr_small by (unfold GoInt.min_int; lia).
    split; simpl.
    + rewrite Pool.total_app. unfold Pool.total at 2. simpl. lia.
    + unfold main_ok. simpl. rewrite length_app. simpl. lia.
    + rewrite fmap_app, Hids, length_app. simpl.
      replace (Z.of_nat (length (tasks s) + 1)) with
        (Z.of_nat (length (tasks s)) + 1) by lia.
      rewrite seqZ_app by lia. simpl. now rewrite Hlen.
    + rewrite Pool.gather_app. unfold Pool.gather at 2. simpl.
      now rewrite app_nil_r.
  - (* wg.Wait() returns *)
    split; simpl; auto.
    unfold main_ok. simpl. split; [exact Hmain|].
    apply Pool.total_full; [apply tasks_finished_le|]. lia.
Qed.

Lemma tasks_Inv_step_task g s s' : Inv s -> step_task g s = Step s' -> Inv s'.
Proof.
  intros [Hwg Hmain Hids Hout] Hstep.
  apply tasks_step_task_inv in Hstep as (t & Hl & Hstep).
  pose proof (fun t' => Pool.total_insert finished (tasks s) g t t' Hl) as Hfin.
  pose proof (fun t' => Pool.gather_insert printed_by (tasks s) g t t' Hl) as Hg.
  assert (Hid : forall p, id <$> <[g := mkTask (id t) p]> (tasks s) =
                          id <$> tasks s).
  { intros p. rewrite list_fmap_insert. simpl.
    apply list_insert_id. rewrite list_lookup_fmap, Hl. reflexivity. }
  unfold finished at 2 4 in Hfin. unfold printed_by at 2 4 in Hg.
  destruct Hstep as [(Hpc & ->)|(Hpc & Hpos & ->)];
    rewrite Hpc in Hfin, Hg.
  - (* fmt.Println("Doing Task:", id) *)
    specialize (Hfin (mkTask (id t) T_Done)).
    specialize (Hg (mkTask (id t) T_Done)). simpl in Hfin, Hg.
    rewrite app_nil_r in Hg.
    split; simpl.
    + lia.
    + apply (tasks_main_ok_insert s _ g t (mkTask (id t) T_Done));
        [reflexivity|reflexivity|exact Hl| |exact Hmain].
      unfold finished. rewrite Hpc. discriminate.
    + now rewrite Hid, length_insert.
    + now rewrite Hg, Hout.
  - (* w.Done() *)
    specialize (Hfin (mkTask (id t) T_Returned)).
    specialize (Hg (mkTask (id t) T_Returned)). simpl in Hfin, Hg.
    apply Permutation_app_inv_r in Hg.
    split; simpl.
    + lia.
    + apply (tasks_main_ok_insert s _ g t (mkTask (id t) T_Returned));
        [reflexivity|reflexivity|exact Hl| |exact Hmain].
      reflexivity.
    + now rewrite Hid, length_insert.
    + now rewrite Hg.
Qed.

Lemma tasks_Inv_step t s s' : Inv s -> step t s = Step s' -> Inv s'.
Proof.
  destruct t; [apply tasks_Inv_step_main|apply tasks_Inv_step_task].
Qed.

(** The counter is never negative, and it is positive while a task that
    has been started has not called [w.Done()]. *)
Lemma tasks_wg_nonneg s : Inv s -> 0 <= wg s.
Proof.
  intros Hinv.
  pose proof (Pool.total_le finished (tasks s) tasks_finished_le).
  pose proof (tasks_registered_length _ (inv_main _ Hinv)).
  rewrite (inv_wg _ Hinv). lia.
Qed.

Lemma tasks_wg_positive s g t :
  Inv s -> tasks s !! g = Some t -> finished t = 0%nat -> 0 < wg s.
Proof.
  intros Hinv Hl Ht.
  pose proof (Pool.total_lt finished _ _ _ tasks_finished_le Hl Ht).
  pose proof (tasks_registered_length _ (inv_main _ Hinv)).
  rewrite (inv_wg _ Hinv). lia.
Qed.

Lemma tasks_step_no_crash t s : Inv s -> step t s <> Crash.
Proof.
  intros Hinv. destruct t as [|g]; simpl.
  - unfold step_main. destruct (main s); try discriminate.
    + destruct (_ <=? _); [|discriminate].
      rewrite WaitGroup.add_ok; [discriminate|].
      pose proof (tasks_wg_nonneg _ Hinv). lia.
    + now destruct (WaitGroup.wait _).
  - unfold step_task.
    destruct (tasks s !! g) as [t|] eqn:Hl; [|discriminate].
    destruct (pc t) eqn:Hpc; try discriminate.
    rewrite WaitGroup.done_ok; [discriminate|].
    apply (tasks_wg_positive s g t Hinv Hl). unfold finished. now rewrite Hpc.
Qed.

Lemma tasks_measure_step t s s' :
  Inv s -> step t s = Step s' -> (measure s' < measure s)%nat.
Proof.
  intros Hinv Hstep. pose proof (inv_main _ Hinv) as Hmain.
  unfold main_ok in Hmain. unfold measure.
  destruct t as [|g]; simpl in Hstep.
  - apply tasks_step_main_inv in Hstep
      as [(i & Hm & Hle & Hadd & ->)|[(i & Hm & Hlt & ->)|
         [(i & Hm & ->)|(Hm & Hzero & ->)]]];
      rewrite Hm in *; simpl.
    + lia.
    + lia.
    + rewrite GoInt.incr_small by (unfold GoInt.min_int; lia).
      rewrite Pool.total_app. unfold Pool.total at 2. simpl. lia.
    + lia.
  - apply tasks_step_task_inv in Hstep as (t & Hl & Hstep).
    pose proof (fun t' => Pool.total_insert task_steps (tasks s) g t t' Hl)
      as Ht.
    unfold task_steps at 2 4 in Ht.
    destruct Hstep as [(Hpc & ->)|(Hpc & Hpos & ->)]; rewrite Hpc in Ht; simpl.
    + specialize (Ht (mkTask (id t) T_Done)). simpl in Ht. lia.
    + specialize (Ht (mkTask (id t) T_Returned)). simpl in Ht. lia.
Qed.

(** Until [main] returns, some goroutine can move. *)
Lemma tasks_progress s : Inv s -> main s <> M_Exit -> can_move step s.
Proof.
  intros Hinv Hm.
  destruct (step Main s) as [s1| |] eqn:HM.
  { exists Main, s1. exact HM. }
  2: { now apply tasks_step_no_crash in HM. }
  destruct (Pool.find_or_none ready (tasks s)) as [(g & t & Hl & Hr)|Hnone].
  { destruct (step (Task g) s) as [s1| |] eqn:HT.
    - exists (Task g), s1. exact HT.
    - exfalso. simpl in HT. unfold step_task in HT. rewrite Hl in HT.
      unfold ready in Hr. destruct (pc t); try discriminate.
      now destruct (WaitGroup.done _).
    - now apply tasks_step_no_crash in HT. }
  exfalso.
  assert (Hall : Forall (fun t => finished t = 1%nat) (tasks s)).
  { eapply Forall_impl; [exact Hnone|].
    intros t. unfold ready, finished. now destruct (pc t). }
  pose proof (inv_wg _ Hinv) as Hwg. pose proof (inv_main _ Hinv) as Hmain.
  rewrite (Pool.total_Forall _ _ 1%nat Hall) in Hwg.
  unfold main_ok in Hmain.
  simpl in HM. unfold step_main in HM.
  destruct (main s) as [i|i| |]; try discriminate; try congruence.
  - destruct (_ <=? _); [|discriminate].
    now destruct (WaitGroup.add _ _).
  - destruct (WaitGroup.wait (wg s)) eqn:Hwait; [discriminate|].
    apply WaitGroup.wait_blocked in Hwait. simpl in Hwg. lia.
Qed.

(** *** Any order of the lines *)

Lemma table_lookup m pc_of g :
  (g < m)%nat -> table m pc_of !! g = Some (mkTask (Z.of_nat g) (pc_of g)).
Proof.
  intros Hg. unfold table. rewrite list_lookup_fmap, lookup_seq_lt by exact Hg.
  reflexivity.
Qed.

Lemma table_ext m pc_of pc_of' :
  (forall g, (g < m)%nat -> pc_of g = pc_of' g) -> table m pc_of = table m pc_of'.
Proof.
  intros Hext. unfold table. apply list_fmap_ext. intros i g Hl.
  apply lookup_seq in Hl as [-> Hi]. now rewrite Hext.
Qed.

Lemma table_insert m pc_of g pc' :
  (g < m)%nat ->
  <[g := mkTask (Z.of_nat g) pc']> (table m pc_of)
  = table m (fun h => if decide (h = g) then pc' else pc_of h).
Proof.
  intros Hg. apply list_eq. intros i.
  destruct (decide (i = g)) as [->|Hne].
  - rewrite list_lookup_insert_eq by (unfold table; now rewrite length_fmap, length_seq).
    rewrite table_lookup by exact Hg. now rewrite decide_True.
  - rewrite list_lookup_insert_ne by congruence.
    unfold table. rewrite !list_lookup_fmap.
    destruct (seq 0 m !! i) as [h|] eqn:Hl; [|reflexivity].
    apply lookup_seq in Hl as [-> Hi]. simpl. now rewrite decide_False.
Qed.

Lemma table_snoc m pc_of :
  table (S m) pc_of = table m pc_of ++ [mkTask (Z.of_nat m) (pc_of m)].
Proof. unfold table. now rewrite seq_S, fmap_app. Qed.

(** [main] starts the tasks. *)
Lemma tasks_spawned (m : nat) :
  Z.of_nat m = last + 1 ->
  run step (concat ((fun _ => [Main; Main]) <$> seq 0 m) ++ [Main]) init
  = Step (mkState (Z.of_nat m) M_Wait (table m (printed [])) []).
Proof.
  intros Hm.
  destruct (run_rounds step
              (fun j s => s = mkState (Z.of_nat j) (M_Loop (Z.of_nat j))
                                (table j (printed [])) [])
              (fun _ => [Main; Main]) m) with (s := init)
    as (s1 & Hrun & ->); [|reflexivity|].
  - intros j s Hj ->. eexists. split; [|reflexivity].
    simpl. unfold step_main. simpl.
    destruct (Z.leb_spec (Z.of_nat j) last); [|lia].
    rewrite WaitGroup.add_ok by lia. simpl.
    rewrite GoInt.incr_small
      by (unfold GoInt.min_int, GoInt.max_int in *; lia).
    rewrite table_snoc. unfold printed at 3. simpl.
    replace (Z.of_nat (S j)) with (Z.of_nat j + 1) by lia. reflexivity.
  - rewrite run_app, Hrun. simpl. unfold step_main. simpl.
    destruct (Z.leb_spec (Z.of_nat m) last); [lia|reflexivity].
Qed.

(** The tasks print in the order of the list. *)
Lemma tasks_print (m : nat) (w : Z) : forall rest p,
  NoDup (p ++ rest) -> Forall (fun g => (g < m)%nat) rest ->
  run step (Task <$> rest)
    (mkState w M_Wait (table m (printed p)) (Z.of_nat <$> p))
  = Step (mkState w M_Wait (table m (printed (p ++ rest)))
            (Z.of_nat <$> (p ++ rest))).
Proof.
  induction rest as [|g rest IH]; intros p Hnd Hlt.
  - now rewrite app_nil_r.
  - apply Forall_cons in Hlt as [Hg Hlt].
    assert (Hnew : g ∉ p).
    { apply NoDup_app in Hnd as (_ & Hnd & _). intros Hin.
      apply (Hnd g Hin). left. }
    simpl. unfold step_task. simpl.
    rewrite table_lookup by exact Hg. unfold printed at 1.
    rewrite bool_decide_false by exact Hnew. simpl.
    rewrite table_insert by exact Hg.
    rewrite (table_ext m _ (printed (p ++ [g]))).
    + replace ((Z.of_nat <$> p) ++ [Z.of_nat g])
        with (Z.of_nat <$> (p ++ [g])) by now rewrite fmap_app.
      rewrite IH; [|now rewrite <- app_assoc|exact Hlt].
      now rewrite <- app_assoc.
    + intros h _. unfold printed.
      destruct (decide (h = g)) as [->|Hne].
      * rewrite bool_decide_true; [reflexivity|].
        apply elem_of_app. right. left.
      * destruct (bool_decide_reflect (h ∈ p)) as [Hin|Hnin].
        -- rewrite bool_decide_true; [reflexivity|].
           apply elem_of_app. now left.
        -- rewrite bool_decide_false; [reflexivity|].
           rewrite elem_of_app. intros [Hin|Hin]; [contradiction|].
           apply list_elem_of_singleton in Hin. contradiction.
Qed.

(** The tasks call [w.Done()], one after the other. *)
Lemma tasks_done (m : nat) (out : list Z) :
  run step (concat ((fun g => [Task g]) <$> seq 0 m))
    (mkState (Z.of_nat m) M_Wait (table m (returned 0)) out)
  = Step (mkState 0 M_Wait (table m (returned m)) out).
Proof.
  destruct (run_rounds step
              (fun j s => s = mkState (Z.of_nat m - Z.of_nat j) M_Wait
                                (table m (returned j)) out)
              (fun g => [Task g]) m)
    with (s := mkState (Z.of_nat m) M_Wait (table m (returned 0)) out)
    as (s1 & Hrun & ->).
  - intros j s Hj ->. eexists. split; [|reflexivity].
    simpl. unfold step_task. simpl.
    rewrite table_lookup by exact Hj. unfold returned at 1.
    destruct (Nat.ltb_spec j j); [lia|]. simpl.
    rewrite WaitGroup.done_ok by lia.
    rewrite table_insert by exact Hj.
    rewrite (table_ext m _ (returned (S j))).
    + do 2 f_equal. lia.
    + intros h _. unfold returned.
      destruct (decide (h = j)) as [->|Hne].
      * destruct (Nat.ltb_spec j (S j)); [reflexivity|lia].
      * destruct (Nat.ltb_spec h j), (Nat.ltb_spec h (S j));
          (reflexivity || lia).
  - f_equal. f_equal. lia.
  - rewrite Hrun. do 2 f_equal. lia.
Qed.

End Program.

(** C5: [wg.Wait()] does not return while the counter is above 0 and
    returns at once when it is 0; after [N] completions are registered it
    returns only after the [N]-th [Done()]; in goRoutines.go, with one [wg.Add(1)]
    before each of the [last + 1] tasks (11 there), whatever the schedule,
    the program does not fault, the counter is the number of tasks
    registered less the number of calls of [w.Done()], and [main] is past
    [wg.Wait()] only when every task has called [w.Done()] (and so has
    printed its line); until then some goroutine can move, no schedule is
    longer than [4 * (last + 1) + 2] steps, and every run can be carried
    on until [main] returns. *)
Theorem wait_after_all_done (last : Z) (sched : list goroutine) :
  -1 <= last < GoInt.max_int ->
  (forall wg, 0 < wg -> WaitGroup.wait wg = WaitGroup.WaitBlocked) /\
  WaitGroup.wait 0 = WaitGroup.WaitReturns /\
  (forall N k : nat, (k <= N)%nat ->
     WaitGroup.dones k (Z.of_nat N) = WaitGroup.AddOk (Z.of_nat (N - k)) /\
     (WaitGroup.wait (Z.of_nat (N - k)) = WaitGroup.WaitReturns <-> k = N)) /\
  run (step last) sched init <> Crash /\
  forall s, run (step last) sched init = Step s ->
    (main s = M_Wait ->
       (0 < wg s -> step last Main s = Block) /\
       (wg s = 0 ->
        step last Main s = Step (mkState 0 M_Exit (tasks s) (stdout s)))) /\
    wg s = registered last (main s) - Z.of_nat (Pool.total finished (tasks s)) /\
    (main s = M_Exit ->
       Z.of_nat (length (tasks s)) = last + 1 /\
       Forall (fun t => pc t = T_Returned) (tasks s) /\
       Pool.total finished (tasks s) = length (tasks s) /\
       stdout s ≡ₚ seqZ 0 (last + 1)) /\
    (main s <> M_Exit -> can_move (step last) s) /\
    (length sched <= 4 * Z.to_nat (last + 1) + 2)%nat /\
    (exists rest s', run (step last) (sched ++ rest) init = Step s' /\
                     main s' = M_Exit).
Proof.
  intros Hlast. split; [|split; [|split; [|split]]].
  - intros c Hc. apply WaitGroup.wait_blocked. lia.
  - reflexivity.
  - intros N k Hk.
    destruct (WaitGroup.wait_after_dones N k Hk) as (_ & Hd & Hw).
    replace (Z.of_nat (N - k)) with (Z.of_nat N - Z.of_nat k) by lia.
    auto.
  - apply (run_no_crash _ (Inv last)).
    + apply tasks_Inv_step, Hlast.
    + intros t s. apply tasks_step_no_crash, Hlast.
    + apply tasks_Inv_init, Hlast.
  - intros s Hrun.
    assert (Hinv : Inv last s).
    { eapply run_invariant;
        [apply tasks_Inv_step, Hlast|apply tasks_Inv_init, Hlast|exact Hrun]. }
    split; [|split; [|split; [|split; [|split]]]].
    + intros Hwait. simpl. unfold step_main. rewrite Hwait. split.
      * intros Hpos. unfold WaitGroup.wait.
        destruct (Z.eqb_spec (wg s) 0); [lia|reflexivity].
      * intros Hzero. rewrite Hzero. reflexivity.
    + apply (inv_wg _ _ Hinv).
    + intros Hexit.
      pose proof (inv_main _ _ Hinv) as Hmain. unfold main_ok in Hmain.
      rewrite Hexit in Hmain. destruct Hmain as [Hlen Hall].
      assert (Hret : Forall (fun t => pc t = T_Returned) (tasks s)).
      { eapply Forall_impl; [exact Hall|].
        intros t. unfold finished. now destruct (pc t). }
      repeat split; [exact Hlen|exact Hret| |].
      * rewrite (Pool.total_Forall _ _ 1%nat Hall). lia.
      * rewrite (inv_out _ _ Hinv), <- Hlen, <- (inv_ids _ _ Hinv).
        clear -Hret. induction Hret as [|t l Ht _ IH]; [reflexivity|].
        rewrite Pool.gather_cons, fmap_cons. unfold printed_by at 1.
        rewrite Ht. simpl. now rewrite IH.
    + intros Hm. now apply tasks_progress.
    + pose proof (run_bounded _ (Inv last) (tasks_Inv_step last Hlast)
                    (measure last) sched _ _ (tasks_measure_step last Hlast)
                    (tasks_Inv_init last Hlast) Hrun) as Hb.
      assert (Hinit : measure last init = (4 * Z.to_nat (last + 1) + 2)%nat).
      { unfold measure. simpl. rewrite Z.sub_0_r. unfold Pool.total. simpl. lia. }
      lia.
    + destruct (run_completes _ (Inv last) (tasks_Inv_step last Hlast)
                  (measure last) (fun s => main s = M_Exit))
        with (s := s) as (rest & s' & Hrest & Hexit).
      * intros s0. destruct (main s0); (now left) || (right; discriminate).
      * apply tasks_measure_step, Hlast.
      * intros s0. apply tasks_progress, Hlast.
      * exact Hinv.
      * exists rest, s'. rewrite run_app, Hrun. auto.
Qed.

Example go_routines_run :
  run (step 10) (eager 11) init
  = Step (mkState 0 M_Exit
            ((fun i => mkTask i T_Returned) <$> seqZ 0 11) (seqZ 0 11)).
Proof. vm_compute. reflexivity. Qed.

(** With ten tasks that have not called [w.Done()] yet, [main] cannot pass
    [wg.Wait()]: a schedule that asks it to is not a run. *)
Example go_routines_blocked :
  run (step 10)
    (concat (replicate 11 [Main; Main]) ++ [Main; Task 10; Task 10; Main]) init
  = Block.
Proof. vm_compute. reflexivity. Qed.

Lemma wait_after_all_done_witness :
  -1 <= 10 < GoInt.max_int /\
  run (step 10) (eager 11) init <> Crash /\
  forall s, run (step 10) (eager 11) init = Step s ->
    main s = M_Exit ->
    Z.of_nat (length (tasks s)) = 10 + 1 /\
    Forall (fun t => pc t = T_Returned) (tasks s) /\
    Pool.total finished (tasks s) = length (tasks s) /\
    stdout s ≡ₚ seqZ 0 (10 + 1).
Proof.
  assert (H10 : -1 <= 10 < GoInt.max_int) by (unfold GoInt.max_int; lia).
  split; [exact H10|].
  destruct (wait_after_all_done 10 (eager 11) H10)
    as (_ & _ & _ & Hsafe & Hrun).
  split; [exact Hsafe|].
  intros s Hs. apply (Hrun s Hs).
Defined.

(** X13: the lines of goRoutines.go can come out in any order.  For every
    arrangement of the tasks 0..last there is a run in which [main] returns
    and the lines printed are in that order. *)
Theorem any_order_of_lines (last : Z) (l : list nat) :
  -1 <= last < GoInt.max_int ->
  l ≡ₚ seq 0 (Z.to_nat (last + 1)) ->
  run (step last) (in_order l) init
  = Step (mkState 0 M_Exit (table (length l) (returned (length l)))
            (Z.of_nat <$> l)).
Proof.
  intros Hlast Hperm.
  assert (Hlen : length l = Z.to_nat (last + 1)).
  { rewrite Hperm. apply length_seq. }
  assert (Hm : Z.of_nat (length l) = last + 1) by lia.
  unfold in_order.
  rewrite run_app, (tasks_spawned last Hlast _ Hm).
  change (@nil Z) with (Z.of_nat <$> @nil nat).
  rewrite run_app, (tasks_print last (length l) _ l []); simpl.
  - rewrite (table_ext (length l) (printed l) (returned 0)).
    + rewrite run_app, tasks_done. simpl. reflexivity.
    + intros g Hg. unfold printed, returned. simpl.
      rewrite bool_decide_true; [reflexivity|].
      rewrite Hperm. apply elem_of_seq. lia.
  - rewrite Hperm. apply NoDup_seq.
  - rewrite Forall_forall. intros g Hg. rewrite Hperm in Hg.
    apply elem_of_seq in Hg. lia.
Qed.

(** The order of the run recorded in goRoutines.go. *)
Lemma any_order_of_lines_witness :
  -1 <= 10 < GoInt.max_int /\
  [1; 10; 6; 7; 8; 9; 3; 5; 2; 0; 4]%nat ≡ₚ seq 0 (Z.to_nat (10 + 1)) /\
  run (step 10) (in_order [1; 10; 6; 7; 8; 9; 3; 5; 2; 0; 4]%nat) init
  = Step (mkState 0 M_Exit (table 11 (returned 11))
            (Z.of_nat <$> [1; 10; 6; 7; 8; 9; 3; 5; 2; 0; 4]%nat)).
Proof.
  assert (H10 : -1 <= 10 < GoInt.max_int) by (unfold GoInt.max_int; lia).
  assert (Hperm : [1; 10; 6; 7; 8; 9; 3; 5; 2; 0; 4]%nat
                  ≡ₚ seq 0 (Z.to_nat (10 + 1))).
  { apply NoDup_Permutation.
    - apply NoDup_ListNoDup. repeat constructor; simpl; intuition lia.
    - apply NoDup_seq.
    - intros x. rewrite elem_of_seq. simpl.
      rewrite !elem_of_cons, elem_of_nil. lia. }
  split; [exact H10|]. split; [exact Hperm|].
  exact (any_order_of_lines 10 _ H10 Hperm).
Defined.

End GoRoutines.
(** * Signs of sums and differences of binary64 numbers

    Go's [float64] is the binary64 format, which [PrimFloat] is.  Its
    operations are specified by Stdlib's [SpecFloat]; the facts here say
    when a sum and a difference are not below zero. *)

Module Float64.

(** The numbers that are not below zero: the zeros, the positive numbers
    and plus infinity. *)
Definition nonneg_sf (x : spec_float) : Prop :=
  match x with
  | S754_zero _ | S754_infinity false | S754_finite false _ _ => True
  | _ => False
  end.

(** The positive numbers that are not infinite. *)
Definition pos_finite_sf (x : spec_float) : Prop :=
  match x with
  | S754_finite false _ _ => True
  | _ => False
  end.

Lemma Prim2SF_zero : Prim2SF 0 = S754_zero false.
Proof. reflexivity. Qed.

Lemma Prim2SF_infinity : Prim2SF infinity = S754_infinity false.
Proof. reflexivity. Qed.

Lemma SFleb_zero x : SFleb (S754_zero false) x = true <-> nonneg_sf x.
Proof.
  destruct x as [s|s| |s m e]; try destruct s; simpl; intuition discriminate.
Qed.

Lemma pos_finite_shape x :
  SFleb x (S754_zero false) = false ->
  SFltb x (S754_infinity false) = true ->
  pos_finite_sf x.
Proof.
  destruct x as [s|s| |s m e]; try destruct s; simpl; intuition discriminate.
Qed.

(** *** Rounding keeps the sign *)

Lemma shr_1_nonneg mrs : 0 <= shr_m mrs -> 0 <= shr_m (shr_1 mrs).
Proof.
  destruct mrs as [m r s]. simpl.
  destruct m as [|[p|p|]|p]; simpl; lia.
Qed.

Lemma iter_shr_1_nonneg p : forall mrs,
  0 <= shr_m mrs -> 0 <= shr_m (SpecFloat.iter_pos shr_1 p mrs).
Proof.
  induction p as [p IH|p IH|]; intros mrs Hm; simpl.
  - apply IH, IH, shr_1_nonneg, Hm.
  - apply IH, IH, Hm.
  - apply shr_1_nonneg, Hm.
Qed.

Lemma shr_nonneg mrs e n : 0 <= shr_m mrs -> 0 <= shr_m (fst (shr mrs e n)).
Proof.
  intros Hm. unfold shr. destruct n; simpl; auto.
  apply iter_shr_1_nonneg, Hm.
Qed.

Lemma shr_fexp_nonneg m e l :
  0 <= m -> 0 <= shr_m (fst (shr_fexp prec emax m e l)).
Proof.
  intros Hm. unfold shr_fexp. apply shr_nonneg.
  destruct l as [|[| |]]; exact Hm.
Qed.

Lemma round_nearest_even_nonneg m l : 0 <= m -> 0 <= round_nearest_even m l.
Proof.
  intros Hm. unfold round_nearest_even.
  destruct l as [|[| |]]; try destruct (Z.even m); lia.
Qed.

Lemma binary_round_aux_nonneg m e l :
  0 <= m -> nonneg_sf (binary_round_aux prec emax false m e l).
Proof.
  intros Hm. unfold binary_round_aux.
  pose proof (shr_fexp_nonneg m e l Hm) as H1.
  destruct (shr_fexp prec emax m e l) as [mrs' e']. simpl in H1.
  pose proof (shr_fexp_nonneg _ e' loc_Exact
                (round_nearest_even_nonneg _ (loc_of_shr_record mrs') H1)) as H2.
  destruct (shr_fexp prec emax _ e' loc_Exact) as [mrs'' e'']. simpl in H2.
  destruct (shr_m mrs'') as [|p|p]; simpl; [exact I| |lia].
  destruct (_ <=? _); exact I.
Qed.

Lemma binary_normalize_nonneg m e :
  0 <= m -> nonneg_sf (binary_normalize prec emax m e false).
Proof.
  intros Hm. destruct m as [|p|p]; simpl; [exact I| |lia].
  unfold binary_round.
  destruct (shl_align p e _) as [mz ez].
  apply binary_round_aux_nonneg. lia.
Qed.

(** *** Sums *)

Lemma SFadd_nonneg x y :
  nonneg_sf x -> pos_finite_sf y -> nonneg_sf (SF64add x y).
Proof.
  destruct x as [sx|[|]| |[|] mx ex]; try contradiction;
    destruct y as [sy|sy| |[|] my ey]; try contradiction; intros _ _;
    try exact I.
  unfold SF64add, SFadd. apply binary_normalize_nonneg. simpl. lia.
Qed.

(** *** Differences *)

Lemma digits2_pos_bounds m :
  2 ^ (Z.pos (digits2_pos m) - 1) <= Z.pos m < 2 ^ Z.pos (digits2_pos m).
Proof.
  induction m as [m IH|m IH|]; simpl digits2_pos.
  - rewrite Pos2Z.inj_succ.
    replace (Z.succ (Z.pos (digits2_pos m)) - 1)
      with (Z.succ (Z.pos (digits2_pos m) - 1)) by lia.
    rewrite !Z.pow_succ_r by lia. lia.
  - rewrite Pos2Z.inj_succ.
    replace (Z.succ (Z.pos (digits2_pos m)) - 1)
      with (Z.succ (Z.pos (digits2_pos m) - 1)) by lia.
    rewrite !Z.pow_succ_r by lia. lia.
  - simpl. lia.
Qed.

Lemma shift_pos_double d m : 2 * Z.pos m <= Z.pos (shift_pos d m).
Proof.
  rewrite shift_pos_correct, Zpower_pos_nat.
  destruct (Pos2Nat.is_succ d) as [n ->].
  rewrite Zpower_nat_succ_r.
  pose proof (Zpower_nat_Z 2 n) as Hp.
  assert (0 < Zpower_nat 2 n) by (rewrite Hp; apply Z.pow_pos_nonneg; lia).
  nia.
Qed.

(** A number of the format holds its mantissa with all the digits its
    exponent allows (Stdlib's [bounded]). *)
Lemma canonical_cases m e :
  bounded prec emax m e = true ->
  (Z.pos (digits2_pos m) = prec /\ SpecFloat.emin prec emax <= e) \/
  (Z.pos (digits2_pos m) <= prec /\ e = SpecFloat.emin prec emax).
Proof.
  unfold bounded, canonical_mantissa, fexp.
  intros H. apply andb_prop in H as [H _]. apply Z.eqb_eq in H.
  unfold SpecFloat.emin in *. lia.
Qed.

Lemma finite_not_below mx ex my ey :
  bounded prec emax mx ex = true ->
  bounded prec emax my ey = true ->
  SFltb (S754_finite false mx ex) (S754_finite false my ey) = false ->
  let ez := Z.min ex ey in
  Z.pos (fst (shl_align my ey ez)) <= Z.pos (fst (shl_align mx ex ez)).
Proof.
  intros Hx Hy Hlt ez. subst ez.
  unfold SFltb, SFcompare in Hlt.
  destruct (Z.compare_spec ex ey) as [->|Hlt'|Hgt]; [|discriminate|].
  - rewrite Z.min_id. unfold shl_align. rewrite Z.sub_diag. simpl.
    destruct (Pos.compare_spec mx my) as [->|?|?];
      [lia| |lia].
    rewrite Pos.compare_cont_spec in Hlt.
    destruct (Pos.compare_spec mx my); simpl in Hlt; try discriminate; lia.
  - rewrite Z.min_r by lia. unfold shl_align. rewrite Z.sub_diag. cbn [fst].
    destruct (ey - ex) as [|d|d] eqn:Hd; [lia|lia|]. cbn [fst].
    apply canonical_cases in Hx as [[Hx _]|[_ Hx]],
          Hy as [[Hy Hy']|[Hy Hy']]; try lia.
    + pose proof (digits2_pos_bounds mx) as Bx.
      pose proof (digits2_pos_bounds my) as By.
      pose proof (shift_pos_double d mx).
      rewrite Hx in Bx. rewrite Hy in By.
      change (2 ^ (prec - 1)) with 4503599627370496 in *.
      change (2 ^ prec) with 9007199254740992 in *.
      change (Pos.iter xO mx d) with (shift_pos d mx). lia.
    + pose proof (digits2_pos_bounds mx) as Bx.
      pose proof (digits2_pos_bounds my) as By.
      pose proof (shift_pos_double d mx).
      rewrite Hx in Bx.
      assert (2 ^ Z.pos (digits2_pos my) <= 2 ^ prec)
        by (apply Z.pow_le_mono_r; lia).
      change (2 ^ (prec - 1)) with 4503599627370496 in *.
      change (2 ^ prec) with 9007199254740992 in *.
      change (Pos.iter xO mx d) with (shift_pos d mx). lia.
Qed.

Lemma SFsub_nonneg x y :
  SpecFloat.valid_binary prec emax x = true ->
  SpecFloat.valid_binary prec emax y = true ->
  nonneg_sf x -> pos_finite_sf y -> SFltb x y = false ->
  nonneg_sf (SF64sub x y).
Proof.
  destruct x as [sx|[|]| |[|] mx ex]; try contradiction;
    destruct y as [sy|sy| |[|] my ey]; try contradiction;
    intros Hx Hy _ _ Hlt; try exact I; try discriminate.
  unfold SF64sub, SFsub. apply binary_normalize_nonneg.
  pose proof (finite_not_below mx ex my ey Hx Hy Hlt) as H.
  simpl in *. lia.
Qed.

(** *** The same on the machine numbers *)

Lemma add_keeps_nonneg (x y : float) :
  PrimFloat.leb 0 x = true ->
  PrimFloat.leb y 0 = false ->
  PrimFloat.ltb y infinity = true ->
  PrimFloat.leb 0 (PrimFloat.add x y) = true.
Proof.
  rewrite !leb_spec, ltb_spec, add_spec, Prim2SF_zero, Prim2SF_infinity.
  intros Hx Hy Hy'. apply SFleb_zero. apply SFleb_zero in Hx.
  apply SFadd_nonneg; [exact Hx|]. apply pos_finite_shape; assumption.
Qed.

Lemma sub_keeps_nonneg (x y : float) :
  PrimFloat.leb 0 x = true ->
  PrimFloat.leb y 0 = false ->
  PrimFloat.ltb y infinity = true ->
  PrimFloat.ltb x y = false ->
  PrimFloat.leb 0 (PrimFloat.sub x y) = true.
Proof.
  rewrite !leb_spec, !ltb_spec, sub_spec, Prim2SF_zero, Prim2SF_infinity.
  intros Hx Hy Hy' Hlt. apply SFleb_zero. apply SFleb_zero in Hx.
  apply SFsub_nonneg; try apply Prim2SF_valid; try assumption.
  apply pos_finite_shape; assumption.
Qed.

End Float64.


(** ** GoBank *)

Module GoBank.

(** *** The world of a command-line program *)

(** An [error] value: [nil] or an error with its message. *)
Definition error : Type := option string.
Definition nil_error : error := None.
(** [errors.New] *)
Definition errors_New (msg : string) : error := Some msg.

(** What one call of [fmt.Scan] finds on standard input: an integer, a
    floating-point number, or nothing it can read (the variable is left as
    it was). *)
Inductive scanned : Type :=
| ScanInt (z : Z)
| ScanFloat (f : float)
| ScanFail.

(** An operand of [fmt.Println] or [fmt.Print]. *)
Inductive arg : Type :=
| Str (s : string)
| Num (f : float)
| Int (z : Z).

Inductive output : Type :=
| Println (args : list arg)
| Print (args : list arg).

Record world : Type := mkWorld {
  files : gmap string string;
  stdin : list scanned;
  stdout : list output
}.

(** A command: a function of the world, with its result. *)
Definition IO (A : Type) : Type := world -> A * world.

#[export] Instance IO_ret : MRet IO := fun A a w => (a, w).
#[export] Instance IO_bind : MBind IO :=
  fun A B k m w => let '(a, w') := m w in k a w'.

Definition fmt_Println (args : list arg) : IO unit :=
  fun w => (tt, mkWorld (files w) (stdin w) (stdout w ++ [Println args])).

Definition fmt_Print (args : list arg) : IO unit :=
  fun w => (tt, mkWorld (files w) (stdin w) (stdout w ++ [Print args])).

(** [fmt.Scan(&x)] for an [int] variable that holds [x]. *)
Definition fmt_Scan_int (x : Z) : IO Z :=
  fun w =>
    match stdin w with
    | [] => (x, w)
    | ScanInt z :: rest => (z, mkWorld (files w) rest (stdout w))
    | _ :: rest => (x, mkWorld (files w) rest (stdout w))
    end.

(** [fmt.Scan(&x)] for a [float64] variable that holds [x]. *)
Definition fmt_Scan_float (x : float) : IO float :=
  fun w =>
    match stdin w with
    | [] => (x, w)
    | ScanFloat f :: rest => (f, mkWorld (files w) rest (stdout w))
    | _ :: rest => (x, mkWorld (files w) rest (stdout w))
    end.

(** [os.ReadFile]: the contents of the file, or an error; a name that the
    map does not hold stands for a file that cannot be read. *)
Definition os_ReadFile (name : string) : IO (string * error) :=
  fun w =>
    match files w !! name with
    | Some data => ((data, nil_error), w)
    | None => ((EmptyString, errors_New "open: no such file or directory"), w)
    end.

(** What the file system makes of one [os.WriteFile(name, data, perm)]:
    the file holds the data; or the call fails with an error, and the file
    is as it was (it could not be opened for writing: a read-only file, a
    missing directory) or holds what was written of the data before the
    failure (opening the file truncates it). *)
Inductive written : Type :=
| WriteOk
| WriteRefused (msg : string)
| WriteBroken (msg : string) (part : string).

Definition newline : string := String (Ascii.ascii_of_nat 10) EmptyString.

Definition accountBalanceFile : string := "balance.txt".

(** A world to try the programs in: balance.txt holds 1000.00; the
    functions of Go's library are stood in for by functions that know the
    few values of the examples; the file system is one where every write
    succeeds, or one where balance.txt is read-only. *)
Definition parse_example (s : string) : float * error :=
  if String.eqb s "1000.00" then (1000%float, nil_error)
  else if String.eqb s "750.00" then (750%float, nil_error)
  else (0%float, errors_New "strconv.ParseFloat: invalid syntax").

Definition format_example (x : float) : string :=
  if PrimFloat.eqb x 750 then "750.00"
  else if PrimFloat.eqb x 1250 then "1250.00"
  else "1000.00".

Definition world_example (input : list scanned) : world :=
  mkWorld {[ accountBalanceFile := "1000.00" ]} input [].

Definition disk_example (name data : string) : written := WriteOk.

Definition disk_readonly (name data : string) : written :=
  if String.eqb name accountBalanceFile
  then WriteRefused "open balance.txt: permission denied"
  else WriteOk.

Section Programs.
(** Two functions of Go's library that the programs call:
    [strconv.ParseFloat(s, 64)] and [fmt.Sprintf("%.2f", x)]. *)
Variable strconv_ParseFloat : string -> float * error.
Variable fmt_Sprintf_2f : float -> string.
(** The file system under the program: what a write of some data to a file
    comes to. *)
Variable disk : string -> string -> written.

(** [os.WriteFile]: when the write succeeds the file holds the data and
    the error is nil; when it fails the error is returned, and the file is
    as it was or holds what was written before the failure.  ([perm] is
    for a file that the call creates.) *)
Definition os_WriteFile (name data : string) (perm : Z) : IO error :=
  fun w =>
    match disk name data with
    | WriteOk =>
        (nil_error, mkWorld (<[name := data]> (files w)) (stdin w) (stdout w))
    | WriteRefused msg => (errors_New msg, w)
    | WriteBroken msg part =>
        (errors_New msg,
         mkWorld (<[name := part]> (files w)) (stdin w) (stdout w))
    end.

(** *** The file-backed program *)

(** <<
    func readBalanceFromFile() (float64, error){
        data, err := os.ReadFile(accountBalanceFile)
        if err != nil{
            return 1000.00, errors.New("file doesn't exist ⚠️")
        }
        balanceStr:= string(data)
        balance,err := strconv.ParseFloat(balanceStr,64)
        if err != nil{
            return 1000.00, errors.New("failed to parse stored balance ⚠️")
        }
        return balance,nil
    }
>> *)
Definition readBalanceFromFile : IO (float * error) :=
  r ← os_ReadFile accountBalanceFile;
  let '(data, err) := r in
  match err with
  | Some _ => mret (1000%float, errors_New "file doesn't exist ⚠️")
  | None =>
      let balanceStr := data in
      let '(balance, err) := strconv_ParseFloat balanceStr in
      match err with
      | Some _ =>
          mret (1000%float, errors_New "failed to parse stored balance ⚠️")
      | None => mret (balance, nil_error)
      end
  end.

(** How one turn of the menu loop ends: with [continue] or at the end of
    the [switch] (the loop goes on with the balance), or with [return]. *)
Inductive flow : Type :=
| Continue (accBalance : float)
| Return.

Definition menu_lines (accBalance : float) : IO unit :=
  fmt_Println [Str (newline ++ "Your amount is: $"); Num accBalance];;
  fmt_Println [Str "What do you want to do?"];;
  fmt_Println [Str "1️⃣. Check balance"];;
  fmt_Println [Str "2️⃣. Deposit"];;
  fmt_Println [Str "3️⃣. Withdraw"];;
  fmt_Println [Str "🔘.OTHER - Exit"].

(** The [switch] of the loop. *)
Definition switch (choice : Z) (accBalance : float) : IO flow :=
  if choice =? 1 then
    fmt_Println [Str "Your balance is: $"; Num accBalance];;
    mret (Continue accBalance)
  else if choice =? 2 then
    fmt_Print [Str "💰 How much do you wanna deposit?: +$"];;
    depositAmt ← fmt_Scan_float 0%float;
    if PrimFloat.leb depositAmt 0
    then fmt_Println [Str "INVALID AMOUNT!.. AMOUNT must not be -ve"];;
         mret (Continue accBalance)
    else
      let accBalance := PrimFloat.add accBalance depositAmt in
      let formattedBalance := fmt_Sprintf_2f accBalance in
      fmt_Println [Str "Deposited ✅.. Your updated account-balance: $";
                   Str formattedBalance];;
      (* the permissions are 0644; the error is not looked at *)
      _ ← os_WriteFile "balance.txt" formattedBalance 420;
      mret (Continue accBalance)
  else if choice =? 3 then
    fmt_Print [Str "💰 How much do you wanna withdraw?: -$"];;
    withdrawAmt ← fmt_Scan_float 0%float;
    if PrimFloat.leb withdrawAmt 0
    then fmt_Println [Str "INVALID AMOUNT!.. AMOUNT must not be -ve"];;
         mret (Continue accBalance)
    else if PrimFloat.ltb accBalance withdrawAmt
    then fmt_Println [Str "Insufficient Balance :("];;
         mret (Continue accBalance)
    else
      let accBalance := PrimFloat.sub accBalance withdrawAmt in
      let formattedBalance := fmt_Sprintf_2f accBalance in
      fmt_Println [Str "Amount withdrawn ✅.. Your updated account-balance: $";
                   Str formattedBalance];;
      mret (Continue accBalance)
  else
    fmt_Println [Str "Exiting.. Thanks for choosing GoBank"];;
    mret Return.

(** One turn of the [for] loop of [main]: the menu, the choice and the
    [switch]. *)
Definition turn (accBalance : float) : IO flow :=
  menu_lines accBalance;;
  fmt_Print [Str "Your choice: "];;
  choice ← fmt_Scan_int 0;
  switch choice accBalance.

(** The [for] loop, for a number of turns: the balance it returns with, or
    nothing if the turns run out first. *)
Fixpoint turns (fuel : nat) (accBalance : float) : IO (option float) :=
  match fuel with
  | O => mret None
  | S fuel =>
      r ← turn accBalance;
      match r with
      | Continue accBalance => turns fuel accBalance
      | Return => mret (Some accBalance)
      end
  end.

(** How [main] ends. *)
Inductive exit : Type :=
| Returned (accBalance : float)
| Panicked (msg : string)
| Running.

(** <<
    func main(){
        var accBalance, err = readBalanceFromFile()
        if err !=nil{
            fmt.Println("ERROR:",err)
            fmt.Println("----------------------")
            panic("Exiting the process.. 🔴")
        }
        fmt.Println("WELCOME to GoBank 🏦!")
        for{ ... }
    }
>>
    Every turn takes an entry of standard input, and a turn that finds
    none returns: one turn more than there are entries is enough. *)
Definition main : IO exit :=
  r ← readBalanceFromFile;
  let '(accBalance, err) := r in
  match err with
  | Some msg =>
      fmt_Println [Str "ERROR:"; Str msg];;
      fmt_Println [Str "----------------------"];;
      mret (Panicked "Exiting the process.. 🔴")
  | None =>
      fmt_Println [Str "WELCOME to GoBank 🏦!"];;
      (fun w =>
         match turns (S (length (stdin w))) accBalance w with
         | (Some accBalance, w') => (Returned accBalance, w')
         | (None, w') => (Running, w')
         end) : IO exit
  end.

(** *** The first program: one choice, no file *)

(** <<
    func main(){
        var accBalance = 1000.0
        ...
        fmt.Scan(&choice)
        if choice == 1{
            fmt.Println("Your balance is: $",accBalance)
        } else if choice == 2 {
            ...
            if depositAmt <=0{
                fmt.Println("INVALID AMOUNT!.. AMOUNT must not be -ve")
                return //exits the program
            }
            accBalance+=float64(depositAmt)
            ...
        }else if choice == 3{
            ...
            if withdrawAmt>accBalance{
                fmt.Println("Insufficient Balance :(")
                return
            }
            accBalance-=float64(withdrawAmt)
            ...
        }else{
            fmt.Println("Good Day!")
        }
        fmt.Println("You chose: ",choice)
    }
>>
    The result is the balance when [main] returns. *)
Definition main_first : IO float :=
  let accBalance := 1000%float in
  fmt_Println [Str "WELCOME to GoBank 🏦!"];;
  fmt_Println [Str "Your initial-amount is: $"; Num accBalance];;
  fmt_Println [Str "What do you want to do?"];;
  fmt_Println [Str "1️⃣. Check balance"];;
  fmt_Println [Str "2️⃣. Deposit"];;
  fmt_Println [Str "3️⃣. Withdraw"];;
  fmt_Println [Str "4️⃣. Exit"];;
  fmt_Print [Str "Your choice: "];;
  choice ← fmt_Scan_int 0;
  if choice =? 1 then
    fmt_Println [Str "Your balance is: $"; Num accBalance];;
    fmt_Println [Str "You chose: "; Int choice];;
    mret accBalance
  else if choice =? 2 then
    fmt_Print [Str "💰 How much do you wanna deposit?: +$"];;
    depositAmt ← fmt_Scan_float 0%float;
    if PrimFloat.leb depositAmt 0
    then fmt_Println [Str "INVALID AMOUNT!.. AMOUNT must not be -ve"];;
         mret accBalance
    else
      let accBalance := PrimFloat.add accBalance depositAmt in
      let formattedBalance := fmt_Sprintf_2f accBalance in
      fmt_Println [Str "Deposited ✅.. Your updated account-balance: $";
                   Str formattedBalance];;
      fmt_Println [Str "You chose: "; Int choice];;
      mret accBalance
  else if choice =? 3 then
    fmt_Print [Str "💰 How much do you wanna withdraw?: -$"];;
    withdrawAmt ← fmt_Scan_float 0%float;
    if PrimFloat.leb withdrawAmt 0
    then fmt_Println [Str "INVALID AMOUNT!.. AMOUNT must not be -ve"];;
         mret accBalance
    else if PrimFloat.ltb accBalance withdrawAmt
    then fmt_Println [Str "Insufficient Balance :("];;
         mret accBalance
    else
      let accBalance := PrimFloat.sub accBalance withdrawAmt in
      let formattedBalance := fmt_Sprintf_2f accBalance in
      fmt_Println [Str "Amount withdrawn ✅.. Your updated account-balance: $";
                   Str formattedBalance];;
      fmt_Println [Str "You chose: "; Int choice];;
      mret accBalance
  else
    fmt_Println [Str "Good Day!"];;
    fmt_Println [Str "You chose: "; Int choice];;
    mret accBalance.

(** *** The loop program without the file *)

(** <<
    func main(){
        var accBalance = 1000.0
        fmt.Println("WELCOME to GoBank 🏦!")
        for{
            ... the menu and the choice of the file-backed program ...
            switch choice{
            case 1:
                fmt.Println("Your balance is: $",accBalance)
            case 2:
                ... the deposit of the file-backed program,
                    without os.WriteFile ...
            case 3:
                ... the withdrawal of the file-backed program ...
            default:
                fmt.Println("Good Day! Thanks for choosing GoBank")
                return
            }
        }
    }
>> *)
Definition switch_memory (choice : Z) (accBalance : float) : IO flow :=
  if choice =? 1 then
    fmt_Println [Str "Your balance is: $"; Num accBalance];;
    mret (Continue accBalance)
  else if choice =? 2 then
    fmt_Print [Str "💰 How much do you wanna deposit?: +$"];;
    depositAmt ← fmt_Scan_float 0%float;
    if PrimFloat.leb depositAmt 0
    then fmt_Println [Str "INVALID AMOUNT!.. AMOUNT must not be -ve"];;
         mret (Continue accBalance)
    else
      let accBalance := PrimFloat.add accBalance depositAmt in
      let formattedBalance := fmt_Sprintf_2f accBalance in
      fmt_Println [Str "Deposited ✅.. Your updated account-balance: $";
                   Str formattedBalance];;
      mret (Continue accBalance)
  else if choice =? 3 then
    fmt_Print [Str "💰 How much do you wanna withdraw?: -$"];;
    withdrawAmt ← fmt_Scan_float 0%float;
    if PrimFloat.leb withdrawAmt 0
    then fmt_Println [Str "INVALID AMOUNT!.. AMOUNT must not be -ve"];;
         mret (Continue accBalance)
    else if PrimFloat.ltb accBalance withdrawAmt
    then fmt_Println [Str "Insufficient Balance :("];;
         mret (Continue accBalance)
    else
      let accBalance := PrimFloat.sub accBalance withdrawAmt in
      let formattedBalance := fmt_Sprintf_2f accBalance in
      fmt_Println [Str "Amount withdrawn ✅.. Your updated account-balance: $";
                   Str formattedBalance];;
      mret (Continue accBalance)
  else
    fmt_Println [Str "Good Day! Thanks for choosing GoBank"];;
    mret Return.

Definition turn_memory (accBalance : float) : IO flow :=
  menu_lines accBalance;;
  fmt_Print [Str "Your choice: "];;
  choice ← fmt_Scan_int 0;
  switch_memory choice accBalance.

Fixpoint turns_memory (fuel : nat) (accBalance : float) : IO (option float) :=
  match fuel with
  | O => mret None
  | S fuel =>
      r ← turn_memory accBalance;
      match r with
      | Continue accBalance => turns_memory fuel accBalance
      | Return => mret (Some accBalance)
      end
  end.

Definition main_memory : IO exit :=
  let accBalance := 1000%float in
  fmt_Println [Str "WELCOME to GoBank 🏦!"];;
  (fun w =>
     match turns_memory (S (length (stdin w))) accBalance w with
     | (Some accBalance, w') => (Returned accBalance, w')
     | (None, w') => (Running, w')
     end) : IO exit.

(** *** The balance and NaN *)

(** The balance is not below zero. *)
Definition nonneg (accBalance : float) : bool := PrimFloat.leb 0 accBalance.

(** An entry of standard input whose amount, if it is one, is a number
    below plus infinity: not NaN and not +Inf. *)
Definition finite_amount (x : scanned) : bool :=
  match x with
  | ScanFloat f => PrimFloat.ltb f infinity
  | _ => true
  end.

(** *** Reading the balance *)

Ltac io_unfold :=
  unfold mbind, mret, IO_bind, IO_ret, fmt_Println, fmt_Print, fmt_Scan_int,
    fmt_Scan_float, os_ReadFile, os_WriteFile in *.

(** The tests of a branch and the outcome of its write, case by case. *)
Ltac io_cases :=
  repeat match goal with
         | |- context [if ?b then _ else _] => destruct b
         | |- context [match disk ?name ?data with _ => _ end] =>
             destruct (disk name data)
         end.

Lemma readBalanceFromFile_cases (w : world) :
  (files w !! accountBalanceFile = None /\
   readBalanceFromFile w =
     ((1000%float, errors_New "file doesn't exist ⚠️"), w)) \/
  (exists data balance msg,
     files w !! accountBalanceFile = Some data /\
     strconv_ParseFloat data = (balance, Some msg) /\
     readBalanceFromFile w =
       ((1000%float, errors_New "failed to parse stored balance ⚠️"), w)) \/
  (exists data balance,
     files w !! accountBalanceFile = Some data /\
     strconv_ParseFloat data = (balance, nil_error) /\
     readBalanceFromFile w = ((balance, nil_error), w)).
Proof.
  unfold readBalanceFromFile. io_unfold.
  destruct (files w !! accountBalanceFile) as [data|] eqn:Hf; simpl.
  - destruct (strconv_ParseFloat data) as [balance [msg|]] eqn:Hp.
    + right; left. exists data, balance, msg. auto.
    + right; right. exists data, balance. auto.
  - left. auto.
Qed.

(** One turn more than there are entries on standard input is enough for
    the loop to return. *)
Lemma switch_stdin choice accBalance w :
  (length (stdin (switch choice accBalance w).2) <= length (stdin w))%nat.
Proof.
  unfold switch. io_unfold.
  destruct (choice =? 1); [simpl; lia|].
  destruct (choice =? 2).
  { simpl. destruct (stdin w) as [|[z|f|] rest]; simpl;
      io_cases;
      simpl; lia. }
  destruct (choice =? 3).
  { simpl. destruct (stdin w) as [|[z|f|] rest]; simpl;
      io_cases;
      simpl; lia. }
  simpl. lia.
Qed.

Lemma switch_zero accBalance w : (switch 0 accBalance w).1 = Return.
Proof. reflexivity. Qed.

Lemma turn_stdin accBalance w :
  (turn accBalance w).1 = Return \/
  (length (stdin (turn accBalance w).2) < length (stdin w))%nat.
Proof.
  unfold turn, menu_lines.
  unfold mbind, IO_bind, fmt_Println, fmt_Print, fmt_Scan_int. simpl.
  destruct (stdin w) as [|x rest] eqn:Hin.
  - left. apply switch_zero.
  - right.
    destruct x as [z|f|];
      match goal with |- (length (stdin (switch ?c ?b ?w').2) < _)%nat =>
        pose proof (switch_stdin c b w') as Hle end;
      simpl in *; lia.
Qed.

Lemma turns_enough fuel : forall accBalance w,
  (length (stdin w) < fuel)%nat ->
  exists balance w', turns fuel accBalance w = (Some balance, w').
Proof.
  induction fuel as [|fuel IH]; intros accBalance w Hfuel; [lia|].
  simpl. unfold mbind, IO_bind.
  pose proof (turn_stdin accBalance w) as Hturn.
  destruct (turn accBalance w) as [[b|] w1]; simpl in Hturn.
  - destruct Hturn as [|Hlt]; [discriminate|]. apply IH. lia.
  - eauto.
Qed.

(** When the balance is read, [main] returns (the loop is left). *)
Lemma main_returns (w w1 : world) (accBalance : float) :
  readBalanceFromFile w = ((accBalance, nil_error), w1) ->
  exists balance w2, main w = (Returned balance, w2).
Proof.
  intros Hread. unfold main. unfold mbind at 1. unfold IO_bind at 1.
  rewrite Hread. unfold mbind, IO_bind, fmt_Println. cbn -[turns].
  match goal with |- context [turns ?f ?x ?w'] =>
    destruct (turns_enough f x w') as (b' & w2 & ->)
  end; [simpl; lia|]. eauto.
Qed.

(** C10: [readBalanceFromFile] returns an error exactly when the file
    cannot be read or its contents do not parse; the balance it returns
    with an error is 1000.00; without an error it is the balance parsed
    from the file; it changes nothing; and [main] panics exactly when the
    error is not nil. *)
Theorem readBalanceFromFile_error_iff (w : world) :
  let balance := (readBalanceFromFile w).1.1 in
  let err := (readBalanceFromFile w).1.2 in
  (err <> nil_error <->
     files w !! accountBalanceFile = None \/
     exists data, files w !! accountBalanceFile = Some data /\
                  (strconv_ParseFloat data).2 <> nil_error) /\
  (err <> nil_error -> balance = 1000%float) /\
  (err = nil_error ->
     exists data, files w !! accountBalanceFile = Some data /\
                  strconv_ParseFloat data = (balance, nil_error)) /\
  (readBalanceFromFile w).2 = w /\
  ((exists msg, (main w).1 = Panicked msg) <-> err <> nil_error).
Proof.
  destruct (readBalanceFromFile_cases w)
    as [(Hf & Hr)|[(data & b & msg & Hf & Hp & Hr)|(data & b & Hf & Hp & Hr)]].
  - unfold main. unfold mbind at 1. unfold IO_bind at 1. rewrite Hr. simpl.
    repeat split; auto; try discriminate.
    intros _. io_unfold. simpl. eauto.
  - unfold main. unfold mbind at 1. unfold IO_bind at 1. rewrite Hr. simpl.
    repeat split; try discriminate; auto.
    + intros _. right. exists data. rewrite Hp. split; [exact Hf|discriminate].
    + intros _. io_unfold. simpl. eauto.
  - destruct (main_returns _ _ _ Hr) as (b' & w2 & ->). rewrite Hr. simpl.
    repeat split; auto.
    + intros Herr. now destruct Herr.
    + intros [Hnone|(data' & Hf' & Hp')]; [congruence|].
      assert (data' = data) as -> by congruence.
      rewrite Hp in Hp'. now destruct Hp'.
    + intros Herr. now destruct Herr.
    + intros _. eauto.
    + intros [msg Hmain]. discriminate.
    + intros Herr. now destruct Herr.
Qed.

(** *** Deposits and withdrawals *)

(** What a deposit that passes its test does in one turn: the balance in
    memory takes the amount and the deposit is reported, whatever becomes
    of the write; the files are those that [os.WriteFile] leaves. *)
Lemma turn_deposit (accBalance amt : float) (w : world) (rest : list scanned) :
  stdin w = ScanInt 2 :: ScanFloat amt :: rest ->
  PrimFloat.leb amt 0 = false ->
  let formattedBalance := fmt_Sprintf_2f (PrimFloat.add accBalance amt) in
  (turn accBalance w).1 = Continue (PrimFloat.add accBalance amt) /\
  last (stdout (turn accBalance w).2) =
    Some (Println [Str "Deposited ✅.. Your updated account-balance: $";
                   Str formattedBalance]) /\
  files (turn accBalance w).2 =
    match disk accountBalanceFile formattedBalance with
    | WriteOk => <[accountBalanceFile := formattedBalance]> (files w)
    | WriteRefused _ => files w
    | WriteBroken _ part => <[accountBalanceFile := part]> (files w)
    end.
Proof.
  intros Hin Hpos formattedBalance. subst formattedBalance.
  unfold turn, menu_lines, switch. io_unfold. simpl.
  rewrite Hin. simpl. rewrite Hpos. simpl.
  unfold accountBalanceFile.
  destruct (disk "balance.txt" _); simpl;
    (split; [reflexivity|split; [apply last_snoc|reflexivity]]).
Qed.

(** C8: a withdrawal that passes both tests takes the amount off the
    balance in memory and leaves every file, balance.txt among them, as it
    was.  A deposit that passes its test adds the amount, reports the
    deposit and calls [os.WriteFile] with the formatted balance, without
    looking at the error: balance.txt holds the formatted balance when the
    write succeeds, is as it was when the write is refused, and holds what
    was written of it when the write breaks off. *)
Theorem withdraw_not_persisted (accBalance amt : float) :
  PrimFloat.leb amt 0 = false ->
  (forall (w : world) (rest : list scanned),
     stdin w = ScanInt 3 :: ScanFloat amt :: rest ->
     PrimFloat.ltb accBalance amt = false ->
     (turn accBalance w).1 = Continue (PrimFloat.sub accBalance amt) /\
     files (turn accBalance w).2 = files w) /\
  (forall (w : world) (rest : list scanned),
     stdin w = ScanInt 2 :: ScanFloat amt :: rest ->
     let formattedBalance := fmt_Sprintf_2f (PrimFloat.add accBalance amt) in
     (turn accBalance w).1 = Continue (PrimFloat.add accBalance amt) /\
     last (stdout (turn accBalance w).2) =
       Some (Println [Str "Deposited ✅.. Your updated account-balance: $";
                      Str formattedBalance]) /\
     files (turn accBalance w).2 =
       match disk accountBalanceFile formattedBalance with
       | WriteOk => <[accountBalanceFile := formattedBalance]> (files w)
       | WriteRefused _ => files w
       | WriteBroken _ part => <[accountBalanceFile := part]> (files w)
       end).
Proof.
  intros Hpos. split.
  - intros w rest Hin Hle. unfold turn, menu_lines, switch. io_unfold. simpl.
    rewrite Hin. simpl. rewrite Hpos, Hle. simpl. auto.
  - intros w rest Hin. exact (turn_deposit accBalance amt w rest Hin Hpos).
Qed.

(** Only the deposit writes: a turn with another choice leaves the files
    as they were. *)
Lemma turn_files (accBalance : float) (w : world) (choice : Z)
    (rest : list scanned) :
  stdin w = ScanInt choice :: rest -> choice <> 2 ->
  files (turn accBalance w).2 = files w.
Proof.
  intros Hin Hc. unfold turn, menu_lines, switch. io_unfold. simpl.
  rewrite Hin. simpl.
  destruct (Z.eqb_spec choice 1); [reflexivity|].
  destruct (Z.eqb_spec choice 2); [contradiction|].
  destruct (Z.eqb_spec choice 3); [|reflexivity].
  simpl. destruct rest as [|[z|f|] rest']; simpl;
    io_cases;
    reflexivity.
Qed.

(** C9, at the input that breaks it: the balance is 1000 and the user
    answers 2 (deposit) and NaN.  NaN is not [<= 0], so the test lets it
    through, and the balance becomes NaN, which is not [>= 0]. *)
Theorem deposit_nan_balance (out : list output) (fs : gmap string string) :
  let w := mkWorld fs [ScanInt 2; ScanFloat nan] out in
  nonneg 1000 = true /\
  exists accBalance,
    (turn 1000 w).1 = Continue accBalance /\
    PrimFloat.is_nan accBalance = true /\
    nonneg accBalance = false.
Proof.
  simpl. split; [reflexivity|].
  exists (PrimFloat.add 1000 nan).
  unfold turn, menu_lines, switch. io_unfold. simpl.
  destruct (disk _ _); repeat split; reflexivity.
Qed.

(** The same with a withdrawal: NaN is neither [<= 0] nor above the
    balance. *)
Lemma withdraw_nan_balance (out : list output) (fs : gmap string string) :
  let w := mkWorld fs [ScanInt 3; ScanFloat nan] out in
  exists accBalance,
    (turn 1000 w).1 = Continue accBalance /\
    nonneg accBalance = false.
Proof.
  simpl. exists (PrimFloat.sub 1000 nan).
  unfold turn, menu_lines, switch. io_unfold. simpl.
  repeat split; reflexivity.
Qed.

(** And in the first program, which starts from 1000. *)
Lemma main_first_nan (out : list output) (fs : gmap string string) :
  nonneg (main_first (mkWorld fs [ScanInt 2; ScanFloat nan] out)).1 = false.
Proof. reflexivity. Qed.

(** With amounts that are numbers the tests do their work: a deposit of
    250.5 and a withdrawal of 1000 from 1250.5 leave a balance that is not
    below zero, and a withdrawal of more than the balance is refused. *)
Lemma turn_examples (out : list output) (fs : gmap string string) :
  (turn 1000 (mkWorld fs [ScanInt 2; ScanFloat 250.5] out)).1
    = Continue 1250.5 /\
  (turn 1250.5 (mkWorld fs [ScanInt 3; ScanFloat 1000] out)).1
    = Continue 250.5 /\
  (turn 250.5 (mkWorld fs [ScanInt 3; ScanFloat 251] out)).1
    = Continue 250.5 /\
  (turn 250.5 (mkWorld fs [ScanInt 2; ScanFloat (-5)] out)).1
    = Continue 250.5.
Proof.
  unfold turn, menu_lines, switch. io_unfold. simpl.
  destruct (disk _ _); repeat split; reflexivity.
Qed.

(** With every amount on standard input a number below plus infinity,
    the tests do their work in general: the balance stays not below zero
    over a turn, and so over the whole loop. *)
Lemma switch_keeps_nonneg choice accBalance w accBalance' :
  nonneg accBalance = true ->
  Forall (fun x => finite_amount x = true) (stdin w) ->
  (switch choice accBalance w).1 = Continue accBalance' ->
  nonneg accBalance' = true /\
  Forall (fun x => finite_amount x = true) (stdin (switch choice accBalance w).2).
Proof.
  intros Hb Hin. unfold switch. io_unfold.
  destruct (choice =? 1).
  { simpl. intros [= <-]. auto. }
  destruct (choice =? 2).
  { simpl. destruct Hin as [|x rest Hx Hrest]; simpl.
    - intros [= <-]. auto.
    - destruct x as [z|f|]; simpl; try (intros [= <-]; auto).
      destruct (PrimFloat.leb f 0) eqn:Hf; simpl; [intros [= <-]; auto|].
      destruct (disk _ _); simpl; intros [= <-]; (split; [|exact Hrest]);
        apply Float64.add_keeps_nonneg; assumption. }
  destruct (choice =? 3).
  { simpl. destruct Hin as [|x rest Hx Hrest]; simpl.
    - intros [= <-]. auto.
    - destruct x as [z|f|]; simpl; try (intros [= <-]; auto).
      destruct (PrimFloat.leb f 0) eqn:Hf; simpl; [intros [= <-]; auto|].
      destruct (PrimFloat.ltb accBalance f) eqn:Hlt; simpl;
        intros [= <-]; [auto|].
      split; [|exact Hrest].
      apply Float64.sub_keeps_nonneg; assumption. }
  simpl. discriminate.
Qed.

Lemma turn_keeps_nonneg accBalance w accBalance' :
  nonneg accBalance = true ->
  Forall (fun x => finite_amount x = true) (stdin w) ->
  (turn accBalance w).1 = Continue accBalance' ->
  nonneg accBalance' = true /\
  Forall (fun x => finite_amount x = true) (stdin (turn accBalance w).2).
Proof.
  intros Hb Hin. unfold turn, menu_lines.
  unfold mbind, IO_bind, fmt_Println, fmt_Print, fmt_Scan_int. simpl.
  destruct Hin as [|x rest Hx Hrest].
  - apply switch_keeps_nonneg; [exact Hb|]. simpl. constructor.
  - destruct x as [z|f|]; apply switch_keeps_nonneg; assumption.
Qed.

Lemma turns_keep_nonneg fuel : forall accBalance w accBalance',
  nonneg accBalance = true ->
  Forall (fun x => finite_amount x = true) (stdin w) ->
  (turns fuel accBalance w).1 = Some accBalance' ->
  nonneg accBalance' = true.
Proof.
  induction fuel as [|fuel IH]; intros accBalance w accBalance' Hb Hin;
    [discriminate|].
  simpl. unfold mbind, IO_bind.
  pose proof (turn_keeps_nonneg accBalance w) as Hturn.
  destruct (turn accBalance w) as [[b|] w1]; simpl in Hturn.
  - destruct (Hturn b Hb Hin eq_refl) as [Hb1 Hin1]. apply IH; assumption.
  - simpl. intros [= <-]. exact Hb.
Qed.

(** *** The whole session *)

Lemma readBalanceFromFile_ok (w : world) (data : string) (accBalance : float) :
  files w !! accountBalanceFile = Some data ->
  strconv_ParseFloat data = (accBalance, nil_error) ->
  readBalanceFromFile w = ((accBalance, nil_error), w).
Proof.
  intros Hf Hp. unfold readBalanceFromFile. io_unfold. rewrite Hf. simpl.
  now rewrite Hp.
Qed.

(** What [main] does once the balance is read. *)
Lemma main_loop (w : world) (data : string) (accBalance : float) :
  files w !! accountBalanceFile = Some data ->
  strconv_ParseFloat data = (accBalance, nil_error) ->
  exists w1,
    stdin w1 = stdin w /\ files w1 = files w /\
    main w =
      match turns (S (length (stdin w1))) accBalance w1 with
      | (Some accBalance, w') => (Returned accBalance, w')
      | (None, w') => (Running, w')
      end.
Proof.
  intros Hf Hp.
  exists (mkWorld (files w) (stdin w)
            (stdout w ++ [Println [Str "WELCOME to GoBank 🏦!"]])).
  split; [reflexivity|]. split; [reflexivity|].
  unfold main. unfold mbind at 1. unfold IO_bind at 1.
  rewrite (readBalanceFromFile_ok w data accBalance Hf Hp).
  unfold mbind, IO_bind, fmt_Println. cbn -[turns]. reflexivity.
Qed.

(** X1: started from a file that holds a balance not below zero, and given
    amounts that are numbers below plus infinity, [main] returns, with a
    balance that is not below zero. *)
Theorem main_keeps_nonneg (w : world) (data : string) (accBalance : float) :
  files w !! accountBalanceFile = Some data ->
  strconv_ParseFloat data = (accBalance, nil_error) ->
  nonneg accBalance = true ->
  Forall (fun x => finite_amount x = true) (stdin w) ->
  exists balance, (main w).1 = Returned balance /\ nonneg balance = true.
Proof.
  intros Hf Hp Hb Hin.
  destruct (main_loop w data accBalance Hf Hp) as (w1 & Hin1 & _ & ->).
  destruct (turns_enough (S (length (stdin w1))) accBalance w1)
    as (b & w2 & Hturns); [lia|].
  rewrite Hturns. exists b. split; [reflexivity|].
  apply (turns_keep_nonneg (S (length (stdin w1))) accBalance w1).
  - exact Hb.
  - now rewrite Hin1.
  - now rewrite Hturns.
Qed.

(** The files other than balance.txt. *)
Lemma switch_other_files choice accBalance w :
  delete accountBalanceFile (files (switch choice accBalance w).2)
  = delete accountBalanceFile (files w).
Proof.
  unfold switch. io_unfold.
  destruct (choice =? 1); [reflexivity|].
  destruct (choice =? 2).
  { simpl. destruct (stdin w) as [|[z|f|] rest]; simpl;
      io_cases;
      simpl; try reflexivity; apply delete_insert_eq. }
  destruct (choice =? 3).
  { simpl. destruct (stdin w) as [|[z|f|] rest]; simpl;
      io_cases;
      reflexivity. }
  reflexivity.
Qed.

Lemma turn_other_files accBalance w :
  delete accountBalanceFile (files (turn accBalance w).2)
  = delete accountBalanceFile (files w).
Proof.
  unfold turn, menu_lines.
  unfold mbind, IO_bind, fmt_Println, fmt_Print, fmt_Scan_int. simpl.
  destruct (stdin w) as [|[z|f|] rest];
    now rewrite switch_other_files.
Qed.

Lemma turns_other_files fuel : forall accBalance w,
  delete accountBalanceFile (files (turns fuel accBalance w).2)
  = delete accountBalanceFile (files w).
Proof.
  induction fuel as [|fuel IH]; intros accBalance w; [reflexivity|].
  simpl. unfold mbind, IO_bind.
  pose proof (turn_other_files accBalance w) as Hturn.
  destruct (turn accBalance w) as [[b|] w1]; simpl in Hturn.
  - now rewrite IH.
  - exact Hturn.
Qed.

(** X2: whatever the files and the input, [main] leaves every file other
    than balance.txt as it was (none created, written or removed). *)
Theorem main_other_files (w : world) :
  delete accountBalanceFile (files (main w).2)
  = delete accountBalanceFile (files w).
Proof.
  destruct (readBalanceFromFile_cases w)
    as [(Hf & Hr)|[(data & b & msg & Hf & Hp & Hr)|(data & b & Hf & Hp & Hr)]].
  - unfold main. unfold mbind at 1. unfold IO_bind at 1. rewrite Hr.
    reflexivity.
  - unfold main. unfold mbind at 1. unfold IO_bind at 1. rewrite Hr.
    reflexivity.
  - destruct (main_loop w data b Hf Hp) as (w1 & _ & Hfiles & ->).
    pose proof (turns_other_files (S (length (stdin w1))) b w1) as Hturns.
    destruct (turns (S (length (stdin w1))) b w1) as [[b'|] w2];
      simpl in *; now rewrite Hturns, Hfiles.
Qed.

(** What [readBalanceFromFile] makes of the contents of balance.txt. *)
Lemma readBalanceFromFile_of_file (w : world) :
  (readBalanceFromFile w).1 =
    match files w !! accountBalanceFile with
    | None => (1000%float, errors_New "file doesn't exist ⚠️")
    | Some data =>
        match strconv_ParseFloat data with
        | (balance, None) => (balance, nil_error)
        | (_, Some _) =>
            (1000%float, errors_New "failed to parse stored balance ⚠️")
        end
    end.
Proof.
  unfold readBalanceFromFile. io_unfold.
  destruct (files w !! accountBalanceFile) as [data|]; simpl; [|reflexivity].
  destruct (strconv_ParseFloat data) as [balance [msg|]]; reflexivity.
Qed.

(** X3: a deposit and the next start of the program.  When the write of
    the deposit succeeds, balance.txt holds the formatted balance, and
    [readBalanceFromFile] gives what [strconv.ParseFloat] makes of that
    text: the balance to two decimals, not the balance in memory.  When
    the write is refused (a read-only balance.txt), the deposit has been
    reported but the files are as they were, and [readBalanceFromFile]
    gives what it gave before the deposit.  When the write breaks off,
    [readBalanceFromFile] gives what [strconv.ParseFloat] makes of the
    part that was written. *)
Theorem deposit_then_read (accBalance amt : float) (w : world)
    (rest : list scanned) :
  stdin w = ScanInt 2 :: ScanFloat amt :: rest ->
  PrimFloat.leb amt 0 = false ->
  let formattedBalance := fmt_Sprintf_2f (PrimFloat.add accBalance amt) in
  let w' := (turn accBalance w).2 in
  (disk accountBalanceFile formattedBalance = WriteOk ->
     files w' !! accountBalanceFile = Some formattedBalance /\
     (readBalanceFromFile w').1 =
       match strconv_ParseFloat formattedBalance with
       | (balance, None) => (balance, nil_error)
       | (_, Some _) =>
           (1000%float, errors_New "failed to parse stored balance ⚠️")
       end) /\
  (forall msg,
     disk accountBalanceFile formattedBalance = WriteRefused msg ->
     last (stdout w') =
       Some (Println [Str "Deposited ✅.. Your updated account-balance: $";
                      Str formattedBalance]) /\
     files w' = files w /\
     (readBalanceFromFile w').1 = (readBalanceFromFile w).1) /\
  (forall msg part,
     disk accountBalanceFile formattedBalance = WriteBroken msg part ->
     files w' !! accountBalanceFile = Some part /\
     (readBalanceFromFile w').1 =
       match strconv_ParseFloat part with
       | (balance, None) => (balance, nil_error)
       | (_, Some _) =>
           (1000%float, errors_New "failed to parse stored balance ⚠️")
       end).
Proof.
  intros Hin Hamt formattedBalance w'.
  destruct (turn_deposit accBalance amt w rest Hin Hamt)
    as (_ & Hline & Hfiles).
  fold formattedBalance in Hline, Hfiles. fold w' in Hline, Hfiles.
  split; [|split].
  - intros Hd. rewrite Hd in Hfiles.
    assert (Hfile : files w' !! accountBalanceFile = Some formattedBalance)
      by (rewrite Hfiles; apply lookup_insert_eq).
    split; [exact Hfile|].
    rewrite readBalanceFromFile_of_file, Hfile. reflexivity.
  - intros msg Hd. rewrite Hd in Hfiles.
    split; [exact Hline|]. split; [exact Hfiles|].
    now rewrite !readBalanceFromFile_of_file, Hfiles.
  - intros msg part Hd. rewrite Hd in Hfiles.
    assert (Hfile : files w' !! accountBalanceFile = Some part)
      by (rewrite Hfiles; apply lookup_insert_eq).
    split; [exact Hfile|].
    rewrite readBalanceFromFile_of_file, Hfile. reflexivity.
Qed.

(** The last line of a turn that returns. *)
Lemma switch_return_line choice accBalance w :
  (switch choice accBalance w).1 = Return ->
  stdout (switch choice accBalance w).2 =
    stdout w ++ [Println [Str "Exiting.. Thanks for choosing GoBank"]].
Proof.
  unfold switch. io_unfold.
  destruct (choice =? 1); [discriminate|].
  destruct (choice =? 2).
  { simpl. destruct (stdin w) as [|[z|f|] rest]; simpl;
      io_cases;
      discriminate. }
  destruct (choice =? 3).
  { simpl. destruct (stdin w) as [|[z|f|] rest]; simpl;
      io_cases;
      discriminate. }
  reflexivity.
Qed.

Lemma turn_return_line accBalance w :
  (turn accBalance w).1 = Return ->
  exists out,
    stdout (turn accBalance w).2 =
      out ++ [Println [Str "Exiting.. Thanks for choosing GoBank"]].
Proof.
  unfold turn, menu_lines.
  unfold mbind, IO_bind, fmt_Println, fmt_Print, fmt_Scan_int. simpl.
  destruct (stdin w) as [|[z|f|] rest]; intros Hret;
    rewrite (switch_return_line _ _ _ Hret); eauto.
Qed.

Lemma turns_return_line fuel : forall accBalance w balance,
  (turns fuel accBalance w).1 = Some balance ->
  exists out,
    stdout (turns fuel accBalance w).2 =
      out ++ [Println [Str "Exiting.. Thanks for choosing GoBank"]].
Proof.
  induction fuel as [|fuel IH]; intros accBalance w balance; [discriminate|].
  simpl. unfold mbind, IO_bind.
  pose proof (turn_return_line accBalance w) as Hturn.
  destruct (turn accBalance w) as [[b|] w1]; simpl in Hturn.
  - apply IH.
  - intros _. now apply Hturn.
Qed.

(** X4: [main] does not go round its loop for ever on an input that ends:
    when [fmt.Scan] finds nothing more, the choice is 0 and the default
    branch returns.  When [main] returns, the last line it has printed is
    the one of the default branch. *)
Theorem main_leaves_loop (w : world) :
  (main w).1 <> Running /\
  (forall balance, (main w).1 = Returned balance ->
     exists out,
       stdout (main w).2 =
         out ++ [Println [Str "Exiting.. Thanks for choosing GoBank"]]).
Proof.
  destruct (readBalanceFromFile_cases w)
    as [(Hf & Hr)|[(data & b & msg & Hf & Hp & Hr)|(data & b & Hf & Hp & Hr)]].
  - assert (Hm : (main w).1 = Panicked "Exiting the process.. 🔴").
    { unfold main. unfold mbind at 1. unfold IO_bind at 1. now rewrite Hr. }
    rewrite Hm. split; [discriminate|intros balance [=]].
  - assert (Hm : (main w).1 = Panicked "Exiting the process.. 🔴").
    { unfold main. unfold mbind at 1. unfold IO_bind at 1. now rewrite Hr. }
    rewrite Hm. split; [discriminate|intros balance [=]].
  - destruct (main_loop w data b Hf Hp) as (w1 & _ & _ & ->).
    destruct (turns_enough (S (length (stdin w1))) b w1)
      as (b' & w2 & Hturns); [lia|].
    pose proof (turns_return_line (S (length (stdin w1))) b w1 b') as Hline.
    rewrite Hturns in *. split; [discriminate|].
    intros balance _. apply Hline. reflexivity.
Qed.

(** *** The first program and the program without the file *)

(** X5: the first program, which starts from 1000 and makes one turn,
    ends with a balance that is not below zero when the amount it is given
    is a number below plus infinity, and reads two entries at most. *)
Theorem main_first_keeps_nonneg (w : world) :
  Forall (fun x => finite_amount x = true) (stdin w) ->
  nonneg (main_first w).1 = true /\
  (length (stdin w) <= length (stdin (main_first w).2) + 2)%nat.
Proof.
  intros Hin. unfold main_first. io_unfold. simpl.
  destruct Hin as [|x rest Hx Hrest]; simpl; [split; [reflexivity|lia]|].
  set (choice := match x with ScanInt z => z | _ => 0 end).
  assert (Hc : forall A (k : Z -> world -> A),
            (let (a, w') :=
               match x with
               | ScanInt z => (z, mkWorld (files w) rest (stdout w))
               | _ => (0, mkWorld (files w) rest (stdout w))
               end in k a w') = k choice (mkWorld (files w) rest (stdout w))).
  { intros A k. subst choice. now destruct x. }
  destruct (choice =? 1) eqn:H1.
  { destruct x; simpl; subst choice; simpl in H1; rewrite ?H1; simpl;
      (split; [reflexivity|lia]). }
  destruct x as [z|f|]; simpl in *; subst choice; rewrite ?H1; simpl.
  2,3: split; [reflexivity|lia].
  destruct (z =? 2).
  { simpl. destruct Hrest as [|y rest' Hy Hrest']; simpl;
      [split; [reflexivity|lia]|].
    destruct y as [z'|f'|]; simpl; try (split; [reflexivity|lia]).
    destruct (PrimFloat.leb f' 0) eqn:Hf; simpl; [split; [reflexivity|lia]|].
    split; [|lia].
    apply Float64.add_keeps_nonneg; [reflexivity|assumption..]. }
  destruct (z =? 3).
  { simpl. destruct Hrest as [|y rest' Hy Hrest']; simpl;
      [split; [reflexivity|lia]|].
    destruct y as [z'|f'|]; simpl; try (split; [reflexivity|lia]).
    destruct (PrimFloat.leb f' 0) eqn:Hf; simpl; [split; [reflexivity|lia]|].
    destruct (PrimFloat.ltb 1000 f') eqn:Hlt; simpl;
      [split; [reflexivity|lia]|].
    split; [|lia].
    apply Float64.sub_keeps_nonneg; [reflexivity|assumption..]. }
  simpl. split; [reflexivity|lia].
Qed.

(** The program without the file makes the turns of the file-backed one. *)
Lemma switch_memory_agrees choice accBalance w w' :
  stdin w = stdin w' ->
  (switch_memory choice accBalance w).1 = (switch choice accBalance w').1 /\
  stdin (switch_memory choice accBalance w).2
    = stdin (switch choice accBalance w').2 /\
  files (switch_memory choice accBalance w).2 = files w.
Proof.
  intros Hin. unfold switch_memory, switch. io_unfold.
  destruct (choice =? 1); [simpl; auto|].
  destruct (choice =? 2).
  { simpl. rewrite <- Hin. destruct (stdin w) as [|[z|f|] rest]; simpl;
      io_cases;
      simpl; auto. }
  destruct (choice =? 3).
  { simpl. rewrite <- Hin. destruct (stdin w) as [|[z|f|] rest]; simpl;
      io_cases;
      simpl; auto. }
  simpl. auto.
Qed.

Lemma turn_memory_agrees accBalance w w' :
  stdin w = stdin w' ->
  (turn_memory accBalance w).1 = (turn accBalance w').1 /\
  stdin (turn_memory accBalance w).2 = stdin (turn accBalance w').2 /\
  files (turn_memory accBalance w).2 = files w.
Proof.
  intros Hin. unfold turn_memory, turn, menu_lines.
  unfold mbind, IO_bind, fmt_Println, fmt_Print, fmt_Scan_int. simpl.
  rewrite <- Hin.
  destruct (stdin w) as [|[z|f|] rest];
    match goal with
    | |- (switch_memory ?c ?b ?w1).1 = (switch ?c ?b ?w2).1 /\ _ =>
        destruct (switch_memory_agrees c b w1 w2) as (H1 & H2 & H3);
        [simpl; congruence|auto]
    end.
Qed.

Lemma turns_memory_agree fuel : forall accBalance w w',
  stdin w = stdin w' ->
  (turns_memory fuel accBalance w).1 = (turns fuel accBalance w').1 /\
  files (turns_memory fuel accBalance w).2 = files w.
Proof.
  induction fuel as [|fuel IH]; intros accBalance w w' Hin; [simpl; auto|].
  simpl. unfold mbind, IO_bind.
  destruct (turn_memory_agrees accBalance w w' Hin) as (H1 & H2 & H3).
  destruct (turn_memory accBalance w) as [r w1].
  destruct (turn accBalance w') as [r' w1'].
  simpl in H1, H2, H3. subst r'.
  destruct r as [b|]; [|simpl; auto].
  destruct (IH b w1 w1' H2) as [H4 H5]. split; [exact H4|congruence].
Qed.

(** X6: the loop program that keeps the balance in memory, which starts
    from 1000, ends as the file-backed program does when that one reads
    1000 from balance.txt, with the same balance on the same input; and it
    changes no file. *)
Theorem main_memory_agrees (w : world) (data : string) :
  files w !! accountBalanceFile = Some data ->
  strconv_ParseFloat data = (1000%float, nil_error) ->
  (main_memory w).1 = (main w).1 /\
  files (main_memory w).2 = files w.
Proof.
  intros Hf Hp.
  destruct (main_loop w data 1000 Hf Hp) as (w1 & Hin1 & _ & ->).
  unfold main_memory. unfold mbind, IO_bind, fmt_Println. cbn -[turns_memory turns].
  rewrite Hin1.
  match goal with |- context [turns_memory ?f ?b ?w0] =>
    destruct (turns_memory_agree f b w0 w1) as [H1 H2]; [now rewrite Hin1|]
  end.
  destruct (turns_memory _ _ _) as [r w2].
  destruct (turns _ _ w1) as [r' w2'].
  simpl in H1, H2. subst r'. destruct r; simpl; auto.
Qed.

End Programs.

Lemma withdraw_not_persisted_witness :
  PrimFloat.leb 250 0 = false /\
  (forall (w : world) (rest : list scanned),
     stdin w = ScanInt 3 :: ScanFloat 250 :: rest ->
     PrimFloat.ltb 1000 250 = false ->
     (turn format_example disk_example 1000 w).1 = Continue 750 /\
     files (turn format_example disk_example 1000 w).2 = files w) /\
  (forall (w : world) (rest : list scanned),
     stdin w = ScanInt 2 :: ScanFloat 250 :: rest ->
     (turn format_example disk_example 1000 w).1 = Continue 1250 /\
     last (stdout (turn format_example disk_example 1000 w).2) =
       Some (Println [Str "Deposited ✅.. Your updated account-balance: $";
                      Str "1250.00"]) /\
     files (turn format_example disk_example 1000 w).2 =
       <[accountBalanceFile := "1250.00"]> (files w)).
Proof.
  split; [reflexivity|].
  exact (withdraw_not_persisted format_example disk_example 1000 250 eq_refl).
Defined.

Lemma main_keeps_nonneg_witness :
  files (world_example [ScanInt 3; ScanFloat 250; ScanInt 2; ScanFloat 0.5])
    !! accountBalanceFile = Some "1000.00" /\
  parse_example "1000.00" = (1000%float, nil_error) /\
  nonneg 1000 = true /\
  Forall (fun x => finite_amount x = true)
    (stdin (world_example [ScanInt 3; ScanFloat 250; ScanInt 2; ScanFloat 0.5])) /\
  exists balance,
    (main parse_example format_example disk_example
       (world_example [ScanInt 3; ScanFloat 250; ScanInt 2; ScanFloat 0.5])).1
    = Returned balance /\
    nonneg balance = true.
Proof.
  assert (Hf : files (world_example [ScanInt 3; ScanFloat 250; ScanInt 2;
                                     ScanFloat 0.5])
                 !! accountBalanceFile = Some "1000.00") by reflexivity.
  assert (Hp : parse_example "1000.00" = (1000%float, nil_error))
    by reflexivity.
  assert (Hb : nonneg 1000 = true) by reflexivity.
  assert (Hin : Forall (fun x => finite_amount x = true)
                  (stdin (world_example [ScanInt 3; ScanFloat 250; ScanInt 2;
                                         ScanFloat 0.5])))
    by (repeat constructor).
  repeat (split; [assumption|]).
  exact (main_keeps_nonneg parse_example format_example disk_example
           _ _ _ Hf Hp Hb Hin).
Defined.

Lemma deposit_then_read_witness :
  stdin (world_example [ScanInt 2; ScanFloat 250])
    = ScanInt 2 :: ScanFloat 250 :: [] /\
  PrimFloat.leb 250 0 = false /\
  (* every write succeeds *)
  (files (turn format_example disk_example 500
            (world_example [ScanInt 2; ScanFloat 250])).2
     !! accountBalanceFile = Some "750.00" /\
   (readBalanceFromFile parse_example
      (turn format_example disk_example 500
         (world_example [ScanInt 2; ScanFloat 250])).2).1
   = (750%float, nil_error)) /\
  (* balance.txt is read-only *)
  (last (stdout (turn format_example disk_readonly 500
                   (world_example [ScanInt 2; ScanFloat 250])).2)
   = Some (Println [Str "Deposited ✅.. Your updated account-balance: $";
                    Str "750.00"]) /\
   files (turn format_example disk_readonly 500
            (world_example [ScanInt 2; ScanFloat 250])).2
   = files (world_example [ScanInt 2; ScanFloat 250]) /\
   (readBalanceFromFile parse_example
      (turn format_example disk_readonly 500
         (world_example [ScanInt 2; ScanFloat 250])).2).1
   = (readBalanceFromFile parse_example
        (world_example [ScanInt 2; ScanFloat 250])).1).
Proof.
  assert (Hin : stdin (world_example [ScanInt 2; ScanFloat 250])
                = ScanInt 2 :: ScanFloat 250 :: []) by reflexivity.
  assert (Hamt : PrimFloat.leb 250 0 = false) by reflexivity.
  split; [exact Hin|]. split; [exact Hamt|]. split.
  - exact (proj1 (deposit_then_read parse_example format_example disk_example
                    500 250 _ _ Hin Hamt) eq_refl).
  - exact (proj1 (proj2 (deposit_then_read parse_example format_example
                           disk_readonly 500 250 _ _ Hin Hamt))
             "open balance.txt: permission denied" eq_refl).
Defined.

Lemma main_first_keeps_nonneg_witness :
  Forall (fun x => finite_amount x = true)
    (stdin (world_example [ScanInt 3; ScanFloat 250])) /\
  nonneg (main_first format_example
            (world_example [ScanInt 3; ScanFloat 250])).1 = true /\
  (length (stdin (world_example [ScanInt 3; ScanFloat 250]))
   <= length (stdin (main_first format_example
                       (world_example [ScanInt 3; ScanFloat 250])).2) + 2)%nat.
Proof.
  assert (Hin : Forall (fun x => finite_amount x = true)
                  (stdin (world_example [ScanInt 3; ScanFloat 250])))
    by (repeat constructor).
  split; [exact Hin|].
  exact (main_first_keeps_nonneg format_example _ Hin).
Defined.

Lemma main_memory_agrees_witness :
  files (world_example [ScanInt 2; ScanFloat 250; ScanInt 3; ScanFloat 500])
    !! accountBalanceFile = Some "1000.00" /\
  parse_example "1000.00" = (1000%float, nil_error) /\
  (main_memory format_example
     (world_example [ScanInt 2; ScanFloat 250; ScanInt 3; ScanFloat 500])).1
  = (main parse_example format_example disk_example
       (world_example [ScanInt 2; ScanFloat 250; ScanInt 3; ScanFloat 500])).1 /\
  files (main_memory format_example
           (world_example [ScanInt 2; ScanFloat 250; ScanInt 3; ScanFloat 500])).2
  = files (world_example [ScanInt 2; ScanFloat 250; ScanInt 3; ScanFloat 500]).
Proof.
  assert (Hf : files (world_example [ScanInt 2; ScanFloat 250; ScanInt 3;
                                     ScanFloat 500])
                 !! accountBalanceFile = Some "1000.00") by reflexivity.
  assert (Hp : parse_example "1000.00" = (1000%float, nil_error))
    by reflexivity.
  split; [exact Hf|]. split; [exact Hp|].
  exact (main_memory_agrees parse_example format_example disk_example
           _ _ Hf Hp).
Defined.

(** A session: a withdrawal of 250, then a deposit of 500, then the exit.
    The file is written by the deposit only, with the balance 1250. *)
Example session :
  main parse_example format_example disk_example
    (world_example [ScanInt 3; ScanFloat 250; ScanInt 2; ScanFloat 500;
                    ScanInt 4])
  = (Returned 1250,
     (main parse_example format_example disk_example
        (world_example [ScanInt 3; ScanFloat 250; ScanInt 2; ScanFloat 500;
                        ScanInt 4])).2) /\
  files (main parse_example format_example disk_example
           (world_example [ScanInt 3; ScanFloat 250; ScanInt 2; ScanFloat 500;
                           ScanInt 4])).2
  = {[ accountBalanceFile := "1250.00" ]} /\
  files (main parse_example format_example disk_example
           (world_example [ScanInt 3; ScanFloat 250; ScanInt 4])).2
  = {[ accountBalanceFile := "1000.00" ]}.
Proof. vm_compute. repeat split; reflexivity. Qed.

(** The same deposit with balance.txt read-only: the session ends with the
    balance 1250 in memory and the deposit reported, and the file still
    holds 1000.00. *)
Example session_readonly :
  (main parse_example format_example disk_readonly
     (world_example [ScanInt 2; ScanFloat 250; ScanInt 4])).1
  = Returned 1250 /\
  Println [Str "Deposited ✅.. Your updated account-balance: $"; Str "1250.00"]
    ∈ stdout (main parse_example format_example disk_readonly
                (world_example [ScanInt 2; ScanFloat 250; ScanInt 4])).2 /\
  files (main parse_example format_example disk_readonly
           (world_example [ScanInt 2; ScanFloat 250; ScanInt 4])).2
  = {[ accountBalanceFile := "1000.00" ]}.
Proof.
  split; [vm_compute; reflexivity|]. split; [|vm_compute; reflexivity].
  apply list_elem_of_In. vm_compute. tauto.
Qed.

(** Without the file, or with a file that does not parse, [main] panics. *)
Example session_panics :
  (main parse_example format_example disk_example
     (mkWorld ∅ [ScanInt 1] [])).1
  = Panicked "Exiting the process.. 🔴" /\
  (main parse_example format_example disk_example
     (mkWorld {[ accountBalanceFile := "hello" ]} [ScanInt 1] [])).1
  = Panicked "Exiting the process.. 🔴".
Proof. vm_compute. split; reflexivity. Qed.

End GoBank.

(** ** Counting the characters of a string *)

Module CharCount.

(** The example of the [range] notes:
<<
    text := "hello world"
    freq := make(map[rune]int)

    for _, ch := range text {
        freq[ch]++
    }
>>
    [range] over a string yields its runes, in order; the text is given
    here by that sequence. *)
Definition rune : Type := Z.

(** [freq[ch]++]: a key that the map does not hold reads as 0. *)
Definition bump (freq : gmap rune Z) (ch : rune) : gmap rune Z :=
  <[ch := GoInt.incr (default 0 (freq !! ch))]> freq.

Definition count_chars (text : list rune) : gmap rune Z :=
  fold_left bump text ∅.

(** The runes of a string of ASCII characters. *)
Fixpoint runes (s : string) : list rune :=
  match s with
  | EmptyString => []
  | String a s => Z.of_nat (Ascii.nat_of_ascii a) :: runes s
  end.

(** How often a rune occurs in a text. *)
Definition occurrences (ch : rune) (text : list rune) : nat :=
  length (filter (fun x => x = ch) text).

(** What the map holds for a rune that occurs [k] times. *)
Definition entry (k : nat) : option Z :=
  match k with
  | O => None
  | S _ => Some (Z.of_nat k)
  end.

Lemma count_chars_snoc text ch :
  count_chars (text ++ [ch]) = bump (count_chars text) ch.
Proof. unfold count_chars. now rewrite fold_left_app. Qed.

Lemma occurrences_snoc ch text x :
  occurrences ch (text ++ [x])
  = (occurrences ch text + if decide (x = ch) then 1 else 0)%nat.
Proof.
  unfold occurrences. rewrite filter_app, length_app. f_equal.
  rewrite filter_cons, filter_nil. now destruct (decide (x = ch)).
Qed.

Lemma occurrences_le ch text : (occurrences ch text <= length text)%nat.
Proof. unfold occurrences. apply length_filter. Qed.

Lemma occurrences_zero ch text : occurrences ch text = 0%nat <-> ch ∉ text.
Proof.
  unfold occurrences. induction text as [|x text IH]; simpl.
  - split; [intros _ Hin; inversion Hin|reflexivity].
  - rewrite filter_cons, not_elem_of_cons.
    destruct (decide (x = ch)) as [->|Hne]; simpl.
    + split; [discriminate|]. intros [Hne _]. now destruct Hne.
    + rewrite IH. split; [intros Hout; split; [congruence|exact Hout]|tauto].
Qed.

Lemma count_chars_lookup (text : list rune) :
  Z.of_nat (length text) <= GoInt.max_int ->
  forall ch, count_chars text !! ch = entry (occurrences ch text).
Proof.
  induction text as [|x text IH] using rev_ind; intros Hlen ch.
  - reflexivity.
  - rewrite length_app in Hlen. simpl in Hlen.
    specialize (IH ltac:(lia)).
    rewrite count_chars_snoc, occurrences_snoc. unfold bump.
    destruct (decide (x = ch)) as [->|Hne].
    + rewrite lookup_insert_eq, IH.
      pose proof (occurrences_le ch text) as Hle.
      assert (Hread : default 0 (entry (occurrences ch text))
                      = Z.of_nat (occurrences ch text))
        by now destruct (occurrences ch text).
      rewrite Hread, GoInt.incr_small
        by (unfold GoInt.min_int, GoInt.max_int in *; lia).
      replace (occurrences ch text + 1)%nat with (S (occurrences ch text))
        by lia.
      simpl entry. f_equal. lia.
    + rewrite lookup_insert_ne by exact Hne.
      now rewrite IH, Nat.add_0_r.
Qed.

(** X16: the loop that counts characters.  For a text of fewer than 2^63
    runes, the map holds for every rune that occurs in the text the number
    of times it occurs, and holds no entry for a rune that does not
    occur. *)
Theorem count_chars_counts (text : list rune) (ch : rune) :
  Z.of_nat (length text) <= GoInt.max_int ->
  (ch ∈ text ->
     count_chars text !! ch = Some (Z.of_nat (occurrences ch text)) /\
     (0 < occurrences ch text)%nat) /\
  (ch ∉ text -> count_chars text !! ch = None).
Proof.
  intros Hlen. rewrite (count_chars_lookup text Hlen ch).
  pose proof (occurrences_zero ch text) as Hzero.
  destruct (occurrences ch text) as [|k]; simpl.
  - split; [|reflexivity]. intros Hin. exfalso. now apply Hzero.
  - split; [intros _; split; [reflexivity|lia]|].
    intros Hout. apply Hzero in Hout. discriminate.
Qed.

(** The text of the notes: in "hello world" the letter l occurs three
    times, the letter o twice, the space once, and z does not occur. *)
Lemma count_chars_counts_witness :
  Z.of_nat (length (runes "hello world")) <= GoInt.max_int /\
  (108 ∈ runes "hello world" ->
     count_chars (runes "hello world") !! 108
       = Some (Z.of_nat (occurrences 108 (runes "hello world"))) /\
     (0 < occurrences 108%Z (runes "hello world"))%nat) /\
  (108 ∉ runes "hello world" ->
     count_chars (runes "hello world") !! 108 = None).
Proof.
  assert (Hlen : Z.of_nat (length (runes "hello world")) <= GoInt.max_int)
    by (vm_compute; discriminate).
  split; [exact Hlen|].
  exact (count_chars_counts (runes "hello world") 108 Hlen).
Defined.

Example hello_world_counts :
  count_chars (runes "hello world") !! 108 = Some 3 /\
  count_chars (runes "hello world") !! 111 = Some 2 /\
  count_chars (runes "hello world") !! 32 = Some 1 /\
  count_chars (runes "hello world") !! 122 = None.
Proof. vm_compute. repeat split; reflexivity. Qed.

End CharCount.

(** ** A variadic sum *)

Module Variadic.

(** <<
    func sum(nums ...int)int{
        tot:=0
        for _,num:=range nums{
            tot = tot+num
        }
        return  tot
    }
>> *)
Definition sum (nums : list Z) : Z :=
  fold_left (fun tot num => GoInt.add tot num) nums 0.

(** The sum of the numbers as integers, without the wrap-around. *)
Definition exact (nums : list Z) : Z := foldr Z.add 0 nums.

Lemma wrap_add_l a b : GoInt.wrap (GoInt.wrap a + b) = GoInt.wrap (a + b).
Proof.
  unfold GoInt.wrap.
  replace ((a - GoInt.min_int) mod 2 ^ 64 + GoInt.min_int + b - GoInt.min_int)
    with ((a - GoInt.min_int) mod 2 ^ 64 + b) by lia.
  rewrite Zplus_mod_idemp_l. do 2 f_equal. lia.
Qed.

Lemma wrap_add_r a b : GoInt.wrap (a + GoInt.wrap b) = GoInt.wrap (a + b).
Proof. now rewrite Z.add_comm, wrap_add_l, Z.add_comm. Qed.

Lemma sum_from (nums : list Z) : forall a,
  fold_left (fun tot num => GoInt.add tot num) nums (GoInt.wrap a)
  = GoInt.wrap (a + exact nums).
Proof.
  induction nums as [|num nums IH]; intros a; simpl.
  - now rewrite Z.add_0_r.
  - unfold GoInt.add at 2. rewrite wrap_add_l, IH. f_equal. lia.
Qed.

Lemma exact_app (xs ys : list Z) : exact (xs ++ ys) = exact xs + exact ys.
Proof.
  unfold exact. induction xs as [|x xs IH]; simpl; [reflexivity|].
  rewrite IH. lia.
Qed.

(** X17: [sum] adds with the wrap-around of [int]: its result is the sum of
    the numbers brought back into the range of [int]; it is the sum itself
    when that is in the range; nothing given, it is 0; and the sum of two
    lists of arguments, one after the other, is the sum of their sums. *)
Theorem sum_wraps (nums : list Z) :
  sum nums = GoInt.wrap (exact nums) /\
  (GoInt.min_int <= exact nums <= GoInt.max_int -> sum nums = exact nums) /\
  sum [] = 0 /\
  (forall more, sum (nums ++ more) = GoInt.add (sum nums) (sum more)).
Proof.
  assert (Hsum : forall l, sum l = GoInt.wrap (exact l)).
  { intros l. unfold sum.
    change 0 with (GoInt.wrap 0) at 1. now rewrite sum_from. }
  split; [apply Hsum|]. split; [|split; [reflexivity|]].
  - intros Hrange. rewrite Hsum. now apply GoInt.wrap_in_range.
  - intros more. unfold GoInt.add.
    now rewrite !Hsum, wrap_add_l, wrap_add_r, exact_app.
Qed.

(** The calls of the file, and a sum that wraps around. *)
Example sum_examples :
  sum [3; 4; 10] = 17 /\ sum [10; 10; 20; 10] = 50 /\
  sum [GoInt.max_int; 1] = GoInt.min_int.
Proof. vm_compute. repeat split; reflexivity. Qed.

End Variadic.
